(** * LogStore: the Cassandra-backed message store of logstore-archive

    A shallow embedding of [LogStore] (the class whose text sits in
    [packages/client/src/exports-commonjs.js]) and the properties of its
    write coordinator ([store], [close]), its three read operations
    ([requestLast], [requestFrom], [requestRange]) and its scalar summary
    queries.

    Conventions of the embedding.
    - JavaScript numbers that hold timestamps, sequence numbers, counts and
      sizes are integers [Z]; the driver's 64-bit [Long] is a [Z] whose
      [low] word is read with its 32-bit wrap-around written out.
    - [undefined] / [null] are [None]; a key of the options object is
      [Absent] or [Present] with its value, so that the object spread can
      tell a missing key from one set to [undefined].
    - A function that can throw returns a sum whose [inl] is the error
      thrown; an exception that no handler catches is the event
      [EvUncaughtException].
    - Every effect on the outside (driver calls, logger, emitted events,
      manager calls, timers) is an [Event] appended to the [trace] of the
      [World]; callbacks that Node would run later are run to completion
      in the order the driver delivers them.
    - Closures handed to [setTimeout], [setImmediate] and to the batch
      manager are defunctionalised: a [Task] or [Callback] constructor
      holds the captured variables and [runTask] / [runCallback] is the
      closure body.

    After the store come its metrics listeners ([enableMetrics]) and its
    start-up ([startCassandraLogStore]), and three smaller parts of the
    repository, each in a module of its own: [SystemRecovery] (the
    validator's collection of the brokers' recovery), [LSAN] (the token
    contract of [Token.sol]) and [Runtime] ([validateSetConfig] of the
    validator). *)

From Stdlib Require Import ZArith Ascii String DecimalString List Lia Sorted.
From stdpp Require Import base option list sorting gmap strings.

Open Scope Z_scope.

(** ** Constants *)

Definition MIN_SEQUENCE_NUMBER_VALUE : Z := 0.
Definition MAX_SEQUENCE_NUMBER_VALUE : Z := 2147483647.
Definition MAX_TIMESTAMP_VALUE : Z := 8640000000000000.
Definition MAX_RESEND_LAST : Z := 10000.

(** ** Data *)

(** A bucket id is the time uuid of a row of the bucket table: as a value
    it is never empty, so [if (bucketId)] and [!bucketId] only tell a
    bucket id from [undefined]. An error is held as its message. *)
Abbreviation BucketId := string (only parsing).
Abbreviation Error := string (only parsing).

(** The driver's [Long]: a signed 64-bit integer; [low] is its low 32 bits
    read as a signed 32-bit integer. *)
Definition Long := Z.

(** A signed 32-bit integer: the value of [z] wrapped around. *)
Definition wrap32 (z : Z) : Z :=
  (z + 2147483648) `mod` 4294967296 - 2147483648.

Definition Long_low (l : Long) : Z := wrap32 l.

(** [types.Row]: one field per column this class selects. A query fills
    the columns of its SELECT list; [payload] is nullable. *)
Record Row := mkRow {
  row_id : BucketId;
  row_payload : option string;
  row_total : Long;
  row_ts : Z;
  row_count : Z;
  row_size : Z;
}.

Definition idRow (b : BucketId) : Row := mkRow b None 0 0 0 0.
Definition payloadRow (p : option string) : Row := mkRow "" p 0 0 0 0.
Definition totalRow (n : Long) : Row := mkRow "" None n 0 0 0.
Definition countRow (n : Z) : Row := mkRow "" None 0 0 n 0.
Definition sizeRow (n : Z) : Row := mkRow "" None 0 0 0 n.

(** Query parameters (the [params] arrays). *)
Inductive Param :=
| PString (s : string)
| PNumber (n : Z)
| PBucketId (b : BucketId)
| PBucketIds (bs : list BucketId).

(** Query options objects. *)
Record QueryOptions := mkOptions {
  prepare : bool;
  fetchSize : option Z;
  readTimeout : option Z;
}.

(** What [eachRow] delivers: page after page; [result.nextPage] is defined
    on a page exactly when another page follows. *)
Inductive ResultSetPages :=
| LastPage (rows : list Row)
| MorePages (rows : list Row) (next : ResultSetPages)
| PageError (err : Error).

(** What [stream] delivers: rows, then the end or an error. *)
Record RowStream := mkRowStream {
  stream_rows : list Row;
  stream_error : option Error;
}.

(** The driver, as far as this class uses it. Reads do not change the
    database, so a client is the table of its answers. *)
Record CassandraClient := mkClient {
  client_execute : string → list Param → QueryOptions → Error + list Row;
  client_eachRow : string → list Param → QueryOptions → ResultSetPages;
  client_stream : string → list Param → QueryOptions → RowStream;
}.

(** [Bucket] objects, as [bucketsToIds] uses them. *)
Record Bucket := mkBucket { getId : BucketId }.

Definition bucketsToIds (buckets : list Bucket) : list BucketId :=
  map getId buckets.

(** Modelled from the spec: the Bucket Directory, class [BucketManager] of
    [./BucketManager], of which [LogStore] shows only the calls.
    [resolveBucket] ([getBucketId]) is a pure lookup against the known
    buckets; [recordWrite] ([incrementBucket]) adds the size to the bucket's
    byte counter and one to its record counter; [bucketsInRange]
    ([getBucketsByTimestamp]) lists the buckets of a time range or fails. *)
Record BucketManager := mkBucketManager {
  bm_lookup : string → Z → Z → option BucketId;
  bm_counters : gmap string (Z * Z);
  bm_range : string → Z → Z → Z → Error + list Bucket;
  bm_stopped : bool;
}.

Definition recordWrite (n : Z) (c : Z * Z) : Z * Z := (c.1 + n, c.2 + 1).

Definition bm_increment (b : BucketId) (n : Z) (bm : BucketManager) : BucketManager :=
  mkBucketManager (bm_lookup bm) (alter (recordWrite n) b (bm_counters bm))
                  (bm_range bm) (bm_stopped bm).

Definition bm_stop (bm : BucketManager) : BucketManager :=
  mkBucketManager (bm_lookup bm) (bm_counters bm) (bm_range bm) true.

(** [ResendDebugInfo]. *)
Record ResendDebugInfo := mkDebugInfo {
  dbg_streamId : string;
  dbg_partition : option Z;
  dbg_limit : option Z;
  dbg_fromTimestamp : option Z;
  dbg_toTimestamp : option Z;
  dbg_fromSequenceNo : option Z;
  dbg_toSequenceNo : option Z;
  dbg_publisherId : option string;
  dbg_msgChainId : option string;
}.

(** A key of an options object: the object does not have it, or has it
    with a value, which may be [undefined] ([None]). *)
Inductive Key (A : Type) :=
| Absent
| Present (v : option A).

Arguments Absent {A}.
Arguments Present {A} v.

(** [o.key]: [undefined] also when the object does not have the key. *)
Definition Key_get {A} (k : Key A) : option A :=
  match k with
  | Absent => None
  | Present v => v
  end.

(** [LogStoreOptions], the two keys this class reads. *)
Record LogStoreOptions := mkLogStoreOptions {
  key_useTtl : Key bool;
  key_retriesIntervalMilliseconds : Key Z;
}.

Definition useTtl (o : LogStoreOptions) : option bool :=
  Key_get (key_useTtl o).

Definition retriesIntervalMilliseconds (o : LogStoreOptions) : option Z :=
  Key_get (key_retriesIntervalMilliseconds o).

Definition defaultOptions : LogStoreOptions :=
  mkLogStoreOptions (Present (Some false)) (Present (Some 500)).

(** Object spread [{...a, ...b}]: a key [b] has wins with the value it
    has in [b], [undefined] too. *)
Definition spread_key {A} (a b : Key A) : Key A :=
  match b with
  | Present v => Present v
  | Absent => a
  end.

Definition spread (a b : LogStoreOptions) : LogStoreOptions :=
  mkLogStoreOptions (spread_key (key_useTtl a) (key_useTtl b))
                    (spread_key (key_retriesIntervalMilliseconds a)
                                (key_retriesIntervalMilliseconds b)).

Inductive LogLevel := LDebug | LTrace | LError.

Inductive PromiseState :=
| Pending
| Resolved (v : bool)
| Rejected (err : Error).

(** ** The message codec

    [StreamMessage] comes from the protocol package; the store only uses
    the accessors below. [StreamMessage.deserialize] throws on a text that
    is not a serialised message: [inl] is the error it throws. *)
Class StreamMessageCodec (Msg : Type) := {
  getStreamId : Msg → string;
  getStreamPartition : Msg → Z;
  getTimestamp : Msg → Z;
  getSequenceNumber : Msg → Z;
  messageIdSerialize : Msg → string;
  serialize : Msg → string;
  deserialize : string → Error + Msg;
}.

(** [Buffer.byteLength] of a string held as its UTF-8 bytes. *)
Definition byteLength (s : string) : Z := Z.of_nat (String.length s).

Section LogStore.

Context {Msg : Type} {codec : StreamMessageCodec Msg}.

(** ** Effects *)

Inductive Event :=
| EvLog (level : LogLevel) (text : string) (info : option ResendDebugInfo)
| EvEmit (name : string) (m : Msg)
| EvExecute (q : string) (ps : list Param) (o : QueryOptions)
| EvEachRow (q : string) (ps : list Param) (o : QueryOptions)
| EvNextPage
| EvStream (q : string) (ps : list Param) (o : QueryOptions)
| EvGetBucketId (streamId : string) (partition timestamp : Z)
| EvIncrementBucket (b : BucketId) (n : Z)
| EvGetBucketsByTimestamp (streamId : string) (partition fromTs toTs : Z)
| EvBatchStore (b : BucketId) (m : Msg)
| EvClearTimeout (h : option nat)
| EvBucketManagerStop
| EvBatchManagerStop
| EvShutdown
| EvUncaughtException (err : Error).

(** The closure given to [setImmediate] and the one given to
    [setTimeout] in [store], with the variables they capture; [p] is the
    promise whose [resolve] and [reject] they hold. *)
Inductive Task :=
| BatchStoreTask (b : BucketId) (m : Msg) (p : nat)
| RetryStoreTask (uuid : nat) (m : Msg) (p : nat).

(** The completion callback given to [batchManager.store]. *)
Inductive Callback :=
| StoreDone (m : Msg) (p : nat).

(** Modelled from the spec: the Write Batcher, class [BatchManager] of
    [./BatchManager], of which [LogStore] shows only the calls. It holds
    what was handed to it together with the completion callback, and later
    reports success or a failure on each. *)
Record BatchManager := mkBatchManager {
  batch_queue : list (BucketId * Msg * Callback);
  batch_stopped : bool;
}.

(** The [LogStore] object ([opts], [cassandraClient], [bucketManager],
    [batchManager], [pendingStores]) and the part of the Node runtime it
    acts on: live timeouts, the [setImmediate] queue, the promises it made,
    a counter for fresh uuids, handles and promises, and the trace. *)
#[projections(primitive=yes)]
Record World := mkWorld {
  opts : LogStoreOptions;
  cassandraClient : CassandraClient;
  bucketManager : BucketManager;
  batchManager : BatchManager;
  pendingStores : gmap nat nat;
  timers : gmap nat (option Z * Task);
  immediates : list Task;
  promises : gmap nat PromiseState;
  nextId : nat;
  connected : bool;
  trace : list Event;
}.

Definition set_bucketManager (f : BucketManager → BucketManager) (w : World) : World :=
  mkWorld (opts w) (cassandraClient w) (f (bucketManager w)) (batchManager w)
          (pendingStores w) (timers w) (immediates w) (promises w) (nextId w)
          (connected w) (trace w).

Definition set_batchManager (f : BatchManager → BatchManager) (w : World) : World :=
  mkWorld (opts w) (cassandraClient w) (bucketManager w) (f (batchManager w))
          (pendingStores w) (timers w) (immediates w) (promises w) (nextId w)
          (connected w) (trace w).

Definition set_pendingStores (f : gmap nat nat → gmap nat nat) (w : World) : World :=
  mkWorld (opts w) (cassandraClient w) (bucketManager w) (batchManager w)
          (f (pendingStores w)) (timers w) (immediates w) (promises w) (nextId w)
          (connected w) (trace w).

Definition set_timers (f : gmap nat (option Z * Task) → gmap nat (option Z * Task))
    (w : World) : World :=
  mkWorld (opts w) (cassandraClient w) (bucketManager w) (batchManager w)
          (pendingStores w) (f (timers w)) (immediates w) (promises w) (nextId w)
          (connected w) (trace w).

Definition set_immediates (f : list Task → list Task) (w : World) : World :=
  mkWorld (opts w) (cassandraClient w) (bucketManager w) (batchManager w)
          (pendingStores w) (timers w) (f (immediates w)) (promises w) (nextId w)
          (connected w) (trace w).

Definition set_promises (f : gmap nat PromiseState → gmap nat PromiseState)
    (w : World) : World :=
  mkWorld (opts w) (cassandraClient w) (bucketManager w) (batchManager w)
          (pendingStores w) (timers w) (immediates w) (f (promises w)) (nextId w)
          (connected w) (trace w).

Definition set_nextId (f : nat → nat) (w : World) : World :=
  mkWorld (opts w) (cassandraClient w) (bucketManager w) (batchManager w)
          (pendingStores w) (timers w) (immediates w) (promises w) (f (nextId w))
          (connected w) (trace w).

Definition set_connected (b : bool) (w : World) : World :=
  mkWorld (opts w) (cassandraClient w) (bucketManager w) (batchManager w)
          (pendingStores w) (timers w) (immediates w) (promises w) (nextId w)
          b (trace w).

Definition set_trace (f : list Event → list Event) (w : World) : World :=
  mkWorld (opts w) (cassandraClient w) (bucketManager w) (batchManager w)
          (pendingStores w) (timers w) (immediates w) (promises w) (nextId w)
          (connected w) (f (trace w)).

(** The world after the events [t] were appended to its trace. *)
Definition emitted (t : list Event) (w : World) : World :=
  set_trace (λ tr, tr ++ t) w.

(** The state monad of the embedding. *)
Definition M (A : Type) : Type := World → A * World.

#[global] Instance M_ret : MRet M := λ A a w, (a, w).
#[global] Instance M_bind : MBind M :=
  λ A B k m w, let '(a, w1) := m w in k a w1.

Definition gets {A} (f : World → A) : M A := λ w, (f w, w).
Definition modify (f : World → World) : M unit := λ w, (tt, f w).
Definition event (e : Event) : M unit := modify (emitted [e]).

(** *** Logger and emitter *)

Definition logger_debug (text : string) : M unit := event (EvLog LDebug text None).
Definition logger_trace (text : string) (info : option ResendDebugInfo) : M unit :=
  event (EvLog LTrace text info).
Definition logger_error (text : string) (info : option ResendDebugInfo) : M unit :=
  event (EvLog LError text info).
Definition emit (name : string) (m : Msg) : M unit := event (EvEmit name m).

(** An exception that nothing catches: it leaves the callback it was
    thrown in and reaches the process. *)
Definition uncaughtException (err : Error) : M unit :=
  event (EvUncaughtException err).

(** *** Driver *)

Definition execute (q : string) (ps : list Param) (o : QueryOptions)
    : M (Error + list Row) :=
  event (EvExecute q ps o);;
  gets (λ w, client_execute (cassandraClient w) q ps o).

Definition eachRow (q : string) (ps : list Param) (o : QueryOptions)
    : M ResultSetPages :=
  event (EvEachRow q ps o);;
  gets (λ w, client_eachRow (cassandraClient w) q ps o).

Definition nextPage : M unit := event EvNextPage.

Definition stream (q : string) (ps : list Param) (o : QueryOptions) : M RowStream :=
  event (EvStream q ps o);;
  gets (λ w, client_stream (cassandraClient w) q ps o).

Definition shutdown : M unit := event EvShutdown;; modify (set_connected false).

(** *** Managers *)

Definition getBucketId (streamId : string) (partition timestamp : Z)
    : M (option BucketId) :=
  event (EvGetBucketId streamId partition timestamp);;
  gets (λ w, bm_lookup (bucketManager w) streamId partition timestamp).

Definition incrementBucket (b : BucketId) (n : Z) : M unit :=
  event (EvIncrementBucket b n);;
  modify (set_bucketManager (bm_increment b n)).

Definition getBucketsByTimestamp (streamId : string) (partition fromTs toTs : Z)
    : M (Error + list Bucket) :=
  event (EvGetBucketsByTimestamp streamId partition fromTs toTs);;
  gets (λ w, bm_range (bucketManager w) streamId partition fromTs toTs).

Definition bucketManager_stop : M unit :=
  event EvBucketManagerStop;; modify (set_bucketManager bm_stop).

Definition batchManager_store (b : BucketId) (m : Msg) (cb : Callback) : M unit :=
  event (EvBatchStore b m);;
  modify (set_batchManager (λ bm,
    mkBatchManager (batch_queue bm ++ [(b, m, cb)]) (batch_stopped bm))).

Definition batchManager_stop : M unit :=
  event EvBatchManagerStop;;
  modify (set_batchManager (λ bm, mkBatchManager (batch_queue bm) true)).

(** *** Timers, immediates, promises *)

Definition fresh : M nat :=
  n ← gets (λ w, nextId w); modify (set_nextId S);; mret n.

(** [uuidv1()]: an identifier never handed out before. *)
Definition uuidv1 : M nat := fresh.

Definition setTimeout (task : Task) (delay : option Z) : M nat :=
  h ← fresh; modify (set_timers (insert h (delay, task)));; mret h.

Definition clearTimeout (h : option nat) : M unit :=
  event (EvClearTimeout h);;
  match h with
  | Some h => modify (set_timers (delete h))
  | None => mret tt
  end.

Definition setImmediate (task : Task) : M unit :=
  modify (set_immediates (λ q, q ++ [task])).

Definition newPromise : M nat :=
  p ← fresh; modify (set_promises (insert p Pending));; mret p.

(** [resolve] and [reject] act on a pending promise only. *)
Definition settle (p : nat) (st : PromiseState) : M unit :=
  cur ← gets (λ w, promises w !! p);
  match cur with
  | Some Pending => modify (set_promises (insert p st))
  | _ => mret tt
  end.

Definition resolve (p : nat) (v : bool) : M unit := settle p (Resolved v).
Definition reject (p : nat) (err : Error) : M unit := settle p (Rejected err).

(** ** Construction *)

(** [new LogStore(cassandraClient, opts)]; the bucket manager it builds is
    given as its model. *)
Definition LogStore_new (client : CassandraClient) (o : LogStoreOptions)
    (bm : BucketManager) : World :=
  mkWorld (spread defaultOptions o) client bm (mkBatchManager [] false)
          ∅ ∅ [] ∅ 0%nat true [].

(** ** The write coordinator *)

(** The executor of the promise [store] returns. *)
Definition storeExecutor (m : Msg) (bucketId : option BucketId) (p : nat) : M unit :=
  match bucketId with
  | Some b =>
      logger_trace ("found bucketId: " +:+ b) None;;
      incrementBucket b (byteLength (serialize m));;
      setImmediate (BatchStoreTask b m p)
  | None =>
      let messageId := messageIdSerialize m in
      logger_trace ("bucket not found, put " +:+ messageId +:+ " to pendingMessages")
                   None;;
      uuid ← uuidv1;
      delay ← gets (λ w, retriesIntervalMilliseconds (opts w));
      timeout ← setTimeout (RetryStoreTask uuid m p) delay;
      modify (set_pendingStores (insert uuid timeout))
  end.

Definition store (m : Msg) : M nat :=
  logger_debug "Store message";;
  bucketId ← getBucketId (getStreamId m) (getStreamPartition m) (getTimestamp m);
  p ← newPromise;
  storeExecutor m bucketId p;;
  mret p.

(** [this.store(streamMessage).then(resolve, reject)] in the retry closure:
    the promise of the inner call is chained to [resolve] and [reject] of
    the promise [p] the closure holds, so the inner call settles [p]; it
    is [store] run for [p] in place of a promise of its own. *)
Definition storeWith (m : Msg) (p : nat) : M unit :=
  logger_debug "Store message";;
  bucketId ← getBucketId (getStreamId m) (getStreamPartition m) (getTimestamp m);
  storeExecutor m bucketId p.

Definition runTask (task : Task) : M unit :=
  match task with
  | BatchStoreTask b m p => batchManager_store b m (StoreDone m p)
  | RetryStoreTask uuid m p =>
      modify (set_pendingStores (delete uuid));;
      storeWith m p
  end.

Definition runCallback (cb : Callback) (err : option Error) : M unit :=
  match cb with
  | StoreDone m p =>
      match err with
      | Some e => reject p e
      | None => emit "write" m;; resolve p true
      end
  end.

(** *** The event loop and the batch manager acting on the store *)

(** A live timeout expires. *)
Definition fireTimer (h : nat) : M unit :=
  t ← gets (λ w, timers w !! h);
  match t with
  | Some (_, task) => modify (set_timers (delete h));; runTask task
  | None => mret tt
  end.

(** The first [setImmediate] closure runs. *)
Definition runImmediate : M unit :=
  q ← gets (λ w, immediates w);
  match q with
  | task :: rest => modify (set_immediates (λ _, rest));; runTask task
  | [] => mret tt
  end.

(** The batch manager reports on the [i]-th entry it holds. *)
Definition batchDone (i : nat) (err : option Error) : M unit :=
  q ← gets (λ w, batch_queue (batchManager w));
  match q !! i with
  | Some (_, _, cb) =>
      modify (set_batchManager (λ bm,
        mkBatchManager (take i (batch_queue bm) ++ drop (S i) (batch_queue bm))
                       (batch_stopped bm)));;
      runCallback cb err
  | None => mret tt
  end.

(** *** close *)

Fixpoint close_keys (keys : list nat) : M unit :=
  match keys with
  | [] => mret tt
  | key :: rest =>
      timeout ← gets (λ w, pendingStores w !! key);
      clearTimeout timeout;;
      modify (set_pendingStores (delete key));;
      close_keys rest
  end.

Definition close : M unit :=
  keys ← gets (λ w, (map_to_list (pendingStores w)).*1);
  close_keys keys;;
  bucketManager_stop;;
  batchManager_stop;;
  shutdown.

(** ** The result stream *)

Inductive StreamStatus :=
| Open
| Ended
| Destroyed (err : option Error).

(** The [Transform] of [createResultStream]: what it has pushed to its
    consumer, and whether it is open, ended or destroyed. *)
Record ResultStream := mkResultStream {
  rs_info : ResendDebugInfo;
  rs_pushed : list Msg;
  rs_status : StreamStatus;
}.

Definition createResultStream (debugInfo : ResendDebugInfo) : ResultStream :=
  mkResultStream debugInfo [] Open.

Definition push (m : Msg) (rs : ResultStream) : ResultStream :=
  mkResultStream (rs_info rs) (rs_pushed rs ++ [m]) (rs_status rs).

Definition stream_end (rs : ResultStream) : ResultStream :=
  match rs_status rs with
  | Open => mkResultStream (rs_info rs) (rs_pushed rs) Ended
  | _ => rs
  end.

Definition destroy (err : option Error) (rs : ResultStream) : ResultStream :=
  match rs_status rs with
  | Destroyed _ => rs
  | _ => mkResultStream (rs_info rs) (rs_pushed rs) (Destroyed err)
  end.

(** [writableEnded || readableEnded]. *)
Definition ended (rs : ResultStream) : bool :=
  match rs_status rs with Ended => true | _ => false end.

(** [parseRow]: [inl] is the error [StreamMessage.deserialize] throws,
    which [parseRow] lets through. *)
Definition parseRow (row : Row) (debugInfo : ResendDebugInfo)
    : M (Error + option Msg) :=
  match row_payload row with
  | None =>
      logger_error "Found message with NULL payload on cassandra; debug info: "
                   (Some debugInfo);;
      mret (inr None)
  | Some payload =>
      match deserialize payload with
      | inl err => mret (inl err)
      | inr streamMessage =>
          emit "read" streamMessage;;
          mret (inr (Some streamMessage))
      end
  end.

(** [transform(row, _, done)]; the pause every 100 ms only reschedules
    [done] and is left out: each row is transformed within the call of
    [write] that brings it. An exception of [parseRow] leaves [transform]
    before anything is pushed. *)
Definition transform (row : Row) (rs : ResultStream) : M (Error + ResultStream) :=
  message ← parseRow row (rs_info rs);
  match message with
  | inl err => mret (inl err)
  | inr (Some m) => mret (inr (push m rs))
  | inr None => mret (inr rs)
  end.

(** [resultStream.write(row)]: an open stream transforms the row, in the
    call itself; an exception of [transform] leaves [write]. *)
Definition write (row : Row) (rs : ResultStream) : M (Error + ResultStream) :=
  match rs_status rs with
  | Open => transform row rs
  | _ => mret (inr rs)
  end.

(** The rows written one after the other: the stream as the loop leaves
    it, and the exception that ended the loop, if one did. *)
Fixpoint writeRows (rows : list Row) (rs : ResultStream)
    : M (ResultStream * option Error) :=
  match rows with
  | [] => mret (rs, None)
  | row :: rest =>
      r ← write row rs;
      match r with
      | inl err => mret (rs, Some err)
      | inr rs1 => writeRows rest rs1
      end
  end.

(** ** requestLast *)

Definition GET_LAST_N_MESSAGES : string :=
  "SELECT payload FROM stream_data WHERE " +:+
  "stream_id = ? AND partition = ? AND bucket_id IN ? " +:+
  "ORDER BY ts DESC, sequence_no DESC " +:+
  "LIMIT ?".

Definition COUNT_MESSAGES : string :=
  "SELECT COUNT(*) AS total FROM stream_data WHERE stream_id = ? AND partition = ? AND bucket_id = ?".

Definition GET_BUCKETS : string :=
  "SELECT id FROM bucket WHERE stream_id = ? AND partition = ?".

(** [{ prepare: true, fetchSize: 0 }]: paging disabled. *)
Definition noPaging : QueryOptions := mkOptions true (Some 0) None.

Definition makeLastQuery (streamId : string) (partition limit : Z)
    (bucketIds : list BucketId) (rs : ResultStream) : M ResultStream :=
  r ← execute GET_LAST_N_MESSAGES
        [PString streamId; PNumber partition; PBucketIds bucketIds; PNumber limit]
        noPaging;
  match r with
  | inr rows =>
      written ← writeRows (rev rows) rs;
      match written.2 with
      | None => mret (stream_end written.1)
      | Some err => mret (destroy (Some err) written.1)
      end
  | inl err => mret (destroy (Some err) rs)
  end.

(** The variables the two [eachRow] callbacks share. *)
Record LastScan := mkLastScan {
  scan_bucketId : option BucketId;
  scan_bucketIds : list BucketId;
  scan_total : Z;
}.

(** The row callback, on every row of a page. *)
Definition rowCallback (sc : LastScan) (row : Row) : LastScan :=
  mkLastScan (Some (row_id row)) (scan_bucketIds sc ++ [row_id row]) (scan_total sc).

(** The end-of-page callback after the row callback has seen the rows of
    the page; [hasNext] is [result.nextPage] being defined. It answers
    with the finished stream, or with the scan state when it asked for
    the next page. *)
Definition pageCallback (streamId : string) (partition limit : Z) (hasNext : bool)
    (rows : list Row) (sc : LastScan) (rs : ResultStream)
    : M (ResultStream + LastScan) :=
  let sc := foldl rowCallback sc rows in
  if ended rs then mret (inl rs) else
  match scan_bucketId sc with
  | None => mret (inl (stream_end rs))
  | Some bucketId =>
      r ← execute COUNT_MESSAGES
            [PString streamId; PNumber partition; PBucketId bucketId] noPaging;
      match r with
      | inl err => mret (inl (destroy (Some err) rs))
      | inr counted =>
          match head counted with
          | None =>
              mret (inl (destroy (Some "TypeError: Cannot read properties of null") rs))
          | Some row =>
              let total := scan_total sc + Long_low (row_total row) in
              if hasNext && bool_decide (total < limit)
                 && bool_decide (total < MAX_RESEND_LAST)
              then nextPage;;
                   mret (inr (mkLastScan (scan_bucketId sc) (scan_bucketIds sc) total))
              else rs1 ← makeLastQuery streamId partition limit (scan_bucketIds sc) rs;
                   mret (inl rs1)
          end
      end
  end.

Fixpoint lastPages (streamId : string) (partition limit : Z)
    (pages : ResultSetPages) (sc : LastScan) (rs : ResultStream) : M ResultStream :=
  match pages with
  | PageError err =>
      mret (if ended rs then rs else destroy (Some err) rs)
  | LastPage rows =>
      r ← pageCallback streamId partition limit false rows sc rs;
      mret (match r with inl rs1 => rs1 | inr _ => rs end)
  | MorePages rows next =>
      r ← pageCallback streamId partition limit true rows sc rs;
      match r with
      | inl rs1 => mret rs1
      | inr sc1 => lastPages streamId partition limit next sc1 rs
      end
  end.

Definition requestLast (streamId : string) (partition limit : Z) : M ResultStream :=
  let limit := if bool_decide (limit > MAX_RESEND_LAST) then MAX_RESEND_LAST else limit in
  let info := mkDebugInfo streamId (Some partition) (Some limit)
                          None None None None None None in
  logger_trace "requestLast %o" (Some info);;
  let resultStream := createResultStream info in
  pages ← eachRow GET_BUCKETS [PString streamId; PNumber partition]
            (mkOptions true (Some 1) None);
  lastPages streamId partition limit pages (mkLastScan None [] 0) resultStream.

(** ** fetchRange, requestFrom, requestRange *)

Record Query := mkQuery {
  q_where : string;
  q_params : list Param;
}.

Definition rangeQueries (streamId : string)
    (partition fromTimestamp fromSequenceNo toTimestamp toSequenceNo : Z)
    (bucketIds : list BucketId) : list Query :=
  if bool_decide (fromSequenceNo = MIN_SEQUENCE_NUMBER_VALUE)
     && bool_decide (toSequenceNo = MAX_SEQUENCE_NUMBER_VALUE)
  then
    [ mkQuery
        "WHERE stream_id = ? AND partition = ? AND bucket_id IN ? AND ts >= ? AND ts <= ?"
        [PString streamId; PNumber partition; PBucketIds bucketIds;
         PNumber fromTimestamp; PNumber toTimestamp] ]
  else
    [ mkQuery
        "WHERE stream_id = ? AND partition = ? AND bucket_id IN ? AND ts = ? AND sequence_no >= ?"
        [PString streamId; PNumber partition; PBucketIds bucketIds;
         PNumber fromTimestamp; PNumber fromSequenceNo];
      mkQuery
        "WHERE stream_id = ? AND partition = ? AND bucket_id IN ? AND ts > ? AND ts < ?"
        [PString streamId; PNumber partition; PBucketIds bucketIds;
         PNumber fromTimestamp; PNumber toTimestamp];
      mkQuery
        "WHERE stream_id = ? AND partition = ? AND bucket_id IN ? AND ts = ? AND sequence_no <= ?"
        [PString streamId; PNumber partition; PBucketIds bucketIds;
         PNumber toTimestamp; PNumber toSequenceNo] ].

(** [if (v) { q.where += clause; q.params.push(v) }]: a string is truthy
    when it is defined and not empty. *)
Definition addFilter (clause : string) (v : option string) (q : Query) : Query :=
  match v with
  | Some s =>
      if bool_decide (s = "") then q
      else mkQuery (q_where q +:+ clause) (q_params q ++ [PString s])
  | None => q
  end.

Definition addFilters (publisherId msgChainId : option string) (q : Query) : Query :=
  addFilter " AND msg_chain_id = ?" msgChainId
    (addFilter " AND publisher_id = ?" publisherId q).

Definition selectOf (q : Query) : string :=
  "SELECT payload FROM stream_data " +:+ q_where q +:+ " ALLOW FILTERING".

Definition queryWithStreamingResults (query : string) (queryParams : list Param)
    : M RowStream :=
  stream query queryParams (mkOptions true (Some 128) (Some 0)).


Fixpoint openStreams (queries : list Query) : M (list RowStream) :=
  match queries with
  | [] => mret []
  | q :: rest =>
      s ← queryWithStreamingResults (selectOf q) (q_params q);
      ss ← openStreams rest;
      mret (s :: ss)
  end.

(** [pipeline(merge2(...streams, { pipeError: true }), resultStream, cb)]:
    streams given to [merge2] as separate arguments are merged one after the
    other; the first error destroys the result stream and the streams. The
    rows are written to the result stream by the pipe, from the handler of
    its ['data'] event: an exception of [write] leaves that handler, nothing
    catches it, and no further row is written. *)
Fixpoint pipeline (streams : list RowStream) (rs : ResultStream) : M ResultStream :=
  match streams with
  | [] => mret (stream_end rs)
  | s :: rest =>
      written ← writeRows (stream_rows s) rs;
      match written.2 with
      | Some err => uncaughtException err;; mret written.1
      | None =>
          match stream_error s with
          | Some err => mret (destroy (Some err) written.1)
          | None => pipeline rest written.1
          end
      end
  end.

Definition fetchRange (streamId : string)
    (partition fromTimestamp fromSequenceNo toTimestamp toSequenceNo : Z)
    (publisherId msgChainId : option string) : M ResultStream :=
  let resultStream :=
    createResultStream
      (mkDebugInfo streamId (Some partition) None (Some fromTimestamp)
         (Some toTimestamp) (Some fromSequenceNo) (Some toSequenceNo)
         publisherId msgChainId) in
  r ← getBucketsByTimestamp streamId partition fromTimestamp toTimestamp;
  match r with
  | inl e => mret (destroy (Some e) resultStream)
  | inr buckets =>
      if bool_decide (length buckets = 0%nat) then mret (stream_end resultStream)
      else
        let bucketIds := bucketsToIds buckets in
        let queries :=
          map (addFilters publisherId msgChainId)
              (rangeQueries streamId partition fromTimestamp fromSequenceNo
                            toTimestamp toSequenceNo bucketIds) in
        streams ← openStreams queries;
        pipeline streams resultStream
  end.

Definition requestFrom (streamId : string)
    (partition fromTimestamp fromSequenceNo : Z) (publisherId : option string)
    : M ResultStream :=
  logger_trace "requestFrom %o"
    (Some (mkDebugInfo streamId (Some partition) None (Some fromTimestamp) None
             (Some fromSequenceNo) None publisherId None));;
  fetchRange streamId partition fromTimestamp fromSequenceNo
             MAX_TIMESTAMP_VALUE MAX_SEQUENCE_NUMBER_VALUE publisherId None.

(** [requestRange] either throws ([inl]) or returns the stream. *)
Definition requestRange (streamId : string)
    (partition fromTimestamp fromSequenceNo toTimestamp toSequenceNo : Z)
    (publisherId msgChainId : option string) : M (Error + ResultStream) :=
  logger_trace "requestRange %o"
    (Some (mkDebugInfo streamId (Some partition) None (Some fromTimestamp)
             (Some toTimestamp) (Some fromSequenceNo) (Some toSequenceNo)
             publisherId msgChainId));;
  let isValidRequest :=
    (bool_decide (publisherId ≠ None) && bool_decide (msgChainId ≠ None))
    || (bool_decide (publisherId = None) && bool_decide (msgChainId = None)) in
  if negb isValidRequest
  then mret (inl "Invalid combination of requestFrom arguments")
  else rs ← fetchRange streamId partition fromTimestamp fromSequenceNo
              toTimestamp toSequenceNo publisherId msgChainId;
       mret (inr rs).

(** ** Scalar summary queries

    Each is an [async] function: [inl] is the rejection of its promise. *)

Definition prepared : QueryOptions := mkOptions true None None.

Definition timestampInStream (bucketQuery query : string) (streamId : string)
    (partition : Z) : M (Error + Z) :=
  buckets ← execute bucketQuery [PString streamId; PNumber partition] prepared;
  match buckets with
  | inl err => mret (inl err)
  | inr bucketRows =>
      match bucketRows with
      | [bucket] =>
          let bucketId := row_id bucket in
          streams ← execute query
                      [PString streamId; PNumber partition; PBucketId bucketId]
                      prepared;
          match streams with
          | inl err => mret (inl err)
          | inr [row] => mret (inr (row_ts row))
          | inr _ => mret (inr 0)
          end
      | _ => mret (inr 0)
      end
  end.

Definition getFirstMessageTimestampInStream (streamId : string) (partition : Z)
    : M (Error + Z) :=
  timestampInStream
    "SELECT id FROM bucket WHERE stream_id=? AND partition =? ORDER BY date_create ASC LIMIT 1"
    "SELECT ts FROM stream_data WHERE stream_id=? AND partition=? AND bucket_id=? ORDER BY ts ASC LIMIT 1"
    streamId partition.

Definition getLastMessageTimestampInStream (streamId : string) (partition : Z)
    : M (Error + Z) :=
  timestampInStream
    "SELECT id FROM bucket WHERE stream_id=? AND partition =? ORDER BY date_create DESC LIMIT 1"
    "SELECT ts FROM stream_data WHERE stream_id=? AND partition=? AND bucket_id=? ORDER BY ts DESC LIMIT 1"
    streamId partition.

Definition SUM_RECORDS : string :=
  "SELECT SUM(records) as count FROM bucket WHERE stream_id=? AND partition=?".
Definition SUM_SIZE : string :=
  "SELECT SUM(size) as count FROM bucket WHERE stream_id=? AND partition=?".
Definition SELECT_SIZE : string :=
  "SELECT size FROM bucket WHERE stream_id=? AND partition=?".

Definition getNumberOfMessagesInStream (streamId : string) (partition : Z)
    : M (Error + Z) :=
  res ← execute SUM_RECORDS [PString streamId; PNumber partition] prepared;
  match res with
  | inl err => mret (inl err)
  | inr [row] => mret (inr (row_count row))
  | inr _ => mret (inr 0)
  end.

Definition getTotalBytesInStream (streamId : string) (partition : Z)
    : M (Error + Z) :=
  res ← execute SUM_SIZE [PString streamId; PNumber partition] prepared;
  match res with
  | inl err => mret (inl err)
  | inr [row] =>
      let count := row_count row in
      if bool_decide (count < 0) then
        res1 ← execute SELECT_SIZE [PString streamId; PNumber partition] prepared;
        match res1 with
        | inl err => mret (inl err)
        | inr rows => mret (inr (foldl (λ count row, count + row_size row) 0 rows))
        end
      else mret (inr count)
  | inr _ => mret (inr 0)
  end.

(** ** Reading the trace *)

(** The events of [w1] that came after those of [w]. *)
Definition issued (w w1 : World) : list Event :=
  drop (length (trace w)) (trace w1).

(** The queries sent to the driver, with their parameters. *)
Definition physicalQuery (e : Event) : option (string * list Param) :=
  match e with
  | EvExecute q ps _ | EvEachRow q ps _ | EvStream q ps _ => Some (q, ps)
  | _ => None
  end.

Definition physicalQueries (t : list Event) : list (string * list Param) :=
  omap physicalQuery t.

(** Calls that reach the backend: driver calls and the bucket manager's
    lookups in the bucket table. *)
Definition isBackendCall (e : Event) : bool :=
  match e with
  | EvExecute _ _ _ | EvEachRow _ _ _ | EvStream _ _ _ | EvNextPage
  | EvGetBucketsByTimestamp _ _ _ _ | EvShutdown => true
  | _ => false
  end.

(** The error [parseRow] throws on a row: that of a payload that does
    not deserialise. *)
Definition rowError (row : Row) : option Error :=
  match row_payload row with
  | Some payload =>
      match deserialize payload with
      | inl err => Some err
      | inr _ => None
      end
  | None => None
  end.

(** The message of a row: that of a payload that deserialises. *)
Definition rowMessage (row : Row) : option Msg :=
  match row_payload row with
  | Some payload =>
      match deserialize payload with
      | inl _ => None
      | inr m => Some m
      end
  | None => None
  end.

(** The event of one row going through [parseRow]; none when it throws. *)
Definition rowEvent (info : ResendDebugInfo) (row : Row) : option Event :=
  match row_payload row with
  | None =>
      Some (EvLog LError "Found message with NULL payload on cassandra; debug info: "
                  (Some info))
  | Some payload =>
      match deserialize payload with
      | inl _ => None
      | inr m => Some (EvEmit "read" m)
      end
  end.

(** The rows before the first one [parseRow] throws on, and the error it
    throws there. *)
Fixpoint readable (rows : list Row) : list Row :=
  match rows with
  | [] => []
  | row :: rest =>
      match rowError row with
      | Some _ => []
      | None => row :: readable rest
      end
  end.

Fixpoint thrown (rows : list Row) : option Error :=
  match rows with
  | [] => None
  | row :: rest =>
      match rowError row with
      | Some err => Some err
      | None => thrown rest
      end
  end.

(** The messages of the rows whose payload deserialises, in the order of
    the rows. *)
Definition decoded (rows : list Row) : list Msg := omap rowMessage rows.

(** The messages a stream pushes when the rows are written to it: those
    of the rows before the first one [parseRow] throws on. *)
Definition forwarded (rows : list Row) : list Msg := decoded (readable rows).

(** The events of the rows written to a stream. *)
Definition rowEvents (info : ResendDebugInfo) (rows : list Row) : list Event :=
  omap (rowEvent info) (readable rows).

(** The exception of a row, when nothing catches it. *)
Definition escaped (rows : list Row) : list Event :=
  match thrown rows with
  | Some err => [EvUncaughtException err]
  | None => []
  end.

(** What [merge2] passes on: the rows of the streams one after the other,
    up to the first stream that fails, and that failure. *)
Fixpoint mergedRows (streams : list RowStream) : list Row :=
  match streams with
  | [] => []
  | s :: rest =>
      stream_rows s ++
      match stream_error s with Some _ => [] | None => mergedRows rest end
  end.

Fixpoint mergedError (streams : list RowStream) : option Error :=
  match streams with
  | [] => None
  | s :: rest =>
      match stream_error s with Some e => Some e | None => mergedError rest end
  end.

(** The options of [queryWithStreamingResults]. *)
Definition streaming : QueryOptions := mkOptions true (Some 128) (Some 0).

(** A filter value is present when [if (v)] takes it: defined and not the
    empty string. *)
Definition present (v : option string) : bool :=
  match v with Some s => negb (bool_decide (s = "")) | None => false end.

Definition filterClause (clause : string) (v : option string) : string :=
  if present v then clause else "".

Definition filterParam (v : option string) : list Param :=
  match v with
  | Some s => if present v then [PString s] else []
  | None => []
  end.

(** How a last-N request can end, given what it pushed and the events
    it caused: with nothing pushed, or with the rows its final query got
    pushed in reverse, as far as they deserialise, that query being the
    last one sent. *)
Definition lastOutcome (streamId : string) (partition limit : Z) (w : World)
    (pushed : list Msg) (t : list Event) : Prop :=
  pushed = []
  ∨ ∃ bucketIds rows,
      client_execute (cassandraClient w) GET_LAST_N_MESSAGES
        [PString streamId; PNumber partition; PBucketIds bucketIds; PNumber limit]
        noPaging = inr rows
      ∧ pushed = forwarded (rev rows)
      ∧ last (physicalQueries t)
        = Some (GET_LAST_N_MESSAGES,
                [PString streamId; PNumber partition; PBucketIds bucketIds;
                 PNumber limit]).

(** The pages of a bucket listing read one row at a time
    ([fetchSize: 1]): one bucket a page, the last page with no next. *)
Fixpoint pagesOf (bucketIds : list BucketId) : ResultSetPages :=
  match bucketIds with
  | [] => LastPage []
  | b :: rest =>
      match rest with
      | [] => LastPage [idRow b]
      | _ => MorePages [idRow b] (pagesOf rest)
      end
  end.

(** The pages of a listing, [first] and then [more]: the last one has
    no next. *)
Fixpoint pagesFrom (first : list Row) (more : list (list Row)) : ResultSetPages :=
  match more with
  | [] => LastPage first
  | next :: more => MorePages first (pagesFrom next more)
  end.

(** The bucket ids pages list, in the order of the listing. *)
Definition listedIds (pages : list (list Row)) : list BucketId :=
  map row_id (concat pages).

(** The count queries of a scan over [pages], [listed] being the ids
    listed before them: at the end of a page the bucket listed last so far is
    counted, and the next page is requested between two counts. *)
Fixpoint pageCalls (streamId : string) (partition : Z) (listed : list BucketId)
    (pages : list (list Row)) : list Event :=
  match pages with
  | [] => []
  | page :: rest =>
      let listed := listed ++ map row_id page in
      match last listed with
      | Some b =>
          [EvExecute COUNT_MESSAGES [PString streamId; PNumber partition; PBucketId b]
                     noPaging]
      | None => []
      end
      ++ match rest with
         | [] => []
         | _ => EvNextPage :: pageCalls streamId partition listed rest
         end
  end.

(** What these count queries add up to, [count] being the number of
    records of a bucket. *)
Fixpoint pageTotal (count : BucketId → Z) (listed : list BucketId)
    (pages : list (list Row)) : Z :=
  match pages with
  | [] => 0
  | page :: rest =>
      let listed := listed ++ map row_id page in
      match last listed with
      | Some b => count b
      | None => 0
      end
      + pageTotal count listed rest
  end.

(** An operation that only appends to the trace, and whose answer and
    events do not depend on the trace it found. *)
Definition log_only {A} (m : M A) : Prop :=
  ∀ w t, m (emitted t w) = ((m w).1, emitted (t ++ issued w (m w).2) w).

(** The order of a stream: by timestamp, then by sequence number. *)
Definition msg_le (m1 m2 : Msg) : Prop :=
  getTimestamp m1 < getTimestamp m2
  ∨ (getTimestamp m1 = getTimestamp m2 ∧ getSequenceNumber m1 ≤ getSequenceNumber m2).

#[global] Instance msg_le_dec : RelDecision msg_le.
Proof. intros m1 m2. unfold msg_le. apply _. Defined.

Definition oldestFirst (l : list Msg) : Prop := StronglySorted msg_le l.
Definition newestFirst (l : list Msg) : Prop := StronglySorted (flip msg_le) l.

(** The messages of the ['read'] notifications of a trace. *)
Definition readNotification (e : Event) : option Msg :=
  match e with
  | EvEmit name m => if bool_decide (name = "read") then Some m else None
  | _ => None
  end.

Definition readNotifications (t : list Event) : list Msg := omap readNotification t.

(** The error lines of the logger in a trace. *)
Definition isErrorLog (e : Event) : bool :=
  match e with EvLog LError _ _ => true | _ => false end.

Definition hasPayload (row : Row) : bool :=
  match row_payload row with Some _ => true | None => false end.

(** ** The store in motion *)

(** What the event loop and the batch manager do on their own: a timeout
    expires, an immediate runs, the batch manager reports on an entry. *)
Inductive loop_step : World → World → Prop :=
| loop_timer h w : loop_step w (fireTimer h w).2
| loop_immediate w : loop_step w (runImmediate w).2
| loop_batch i err w : loop_step w (batchDone i err w).2.

(** One step of the system: a step of the event loop, a call of [store]
    or [close], an operation that only reads and logs, or the bucket
    manager learning of buckets. *)
Inductive step : World → World → Prop :=
| step_loop w w1 : loop_step w w1 → step w w1
| step_store m w : step w (store m w).2
| step_close w : step w (close w).2
| step_read {A} (m : M A) w : log_only m → step w (m w).2
| step_buckets bm w : step w (set_bucketManager (λ _, bm) w).

(** The worlds a freshly constructed store can come to. *)
Definition reachable (w : World) : Prop :=
  ∃ client o bm, rtc step (LogStore_new client o bm) w.

Definition isBatchStoreTask (task : Task) : Prop :=
  match task with BatchStoreTask _ _ _ => True | RetryStoreTask _ _ _ => False end.

(** Every live timeout is the retry of a parked store and is registered
    in [pendingStores] under its uuid; identifiers in use are below the
    counter; the immediates are hand-overs to the batch manager. *)
Record registered (w : World) : Prop := mkRegistered {
  registered_timer : ∀ h delay task,
    timers w !! h = Some (delay, task) →
    ∃ uuid m p, task = RetryStoreTask uuid m p ∧ pendingStores w !! uuid = Some h;
  registered_fresh : ∀ uuid h,
    pendingStores w !! uuid = Some h → (uuid < nextId w)%nat ∧ (h < nextId w)%nat;
  registered_immediates : Forall isBatchStoreTask (immediates w);
}.

(** A world with no parked store. *)
Definition quiet (w : World) : Prop :=
  timers w = ∅ ∧ pendingStores w = ∅ ∧ Forall isBatchStoreTask (immediates w).

(** The start of an attempt of [store]: its bucket lookup. *)
Definition isStoreAttempt (e : Event) : bool :=
  match e with EvGetBucketId _ _ _ => true | _ => false end.

(** Exactly one of the two is supplied. *)
Definition exactlyOne (publisherId msgChainId : option string) : Prop :=
  (publisherId = None ∧ msgChainId ≠ None) ∨ (publisherId ≠ None ∧ msgChainId = None).

End LogStore.

(** ** Reading outcomes *)

Section Outcomes.

Context {Msg : Type} {codec : StreamMessageCodec Msg}.

(** A finished stream of a last-N read: ended, or destroyed with an
    error, either before anything was pushed or by a row of the final query
    that does not deserialise, after the rows before it were pushed. *)
Definition finished (client : CassandraClient) (streamId : string)
    (partition limit : Z) (rs : ResultStream (Msg:=Msg)) : Prop :=
  rs_status rs = Ended
  ∨ ∃ err,
      rs_status rs = Destroyed (Some err)
      ∧ (rs_pushed rs = []
         ∨ ∃ bucketIds rows,
             client_execute client GET_LAST_N_MESSAGES
               [PString streamId; PNumber partition; PBucketIds bucketIds;
                PNumber limit] noPaging = inr rows
             ∧ thrown (rev rows) = Some err
             ∧ rs_pushed rs = forwarded (rev rows)).

(** The events of reading: logger lines, ['read'] notifications, the
    driver's queries, the bucket manager's listing of a range, and the
    exception of a row that does not deserialise when nothing catches it.
    The others write: they change a manager, a timer or the connection, or
    notify a ['write']. *)
Definition isReadEvent (e : Event (Msg:=Msg)) : bool :=
  match e with
  | EvLog _ _ _ | EvExecute _ _ _ | EvEachRow _ _ _ | EvNextPage | EvStream _ _ _
  | EvGetBucketsByTimestamp _ _ _ _ | EvUncaughtException _ => true
  | EvEmit name _ => bool_decide (name = "read")
  | _ => false
  end.

(** An operation that leaves the store as it found it, its trace apart,
    and causes only events of reading. *)
Definition readOnly {A} (m : M (Msg:=Msg) A) : Prop :=
  ∀ w, ∃ t, (m w).2 = emitted t w ∧ Forall (λ e, isReadEvent e = true) t.

(** [log_only], and the events are events of reading. *)
Definition reading {A} (m : M (Msg:=Msg) A) : Prop :=
  log_only m ∧ ∀ w, Forall (λ e, isReadEvent e = true) (issued w (m w).2).

(** The promise a closure or a callback holds. *)
Definition taskPromise (task : Task (Msg:=Msg)) : nat :=
  match task with BatchStoreTask _ _ p | RetryStoreTask _ _ p => p end.

Definition callbackPromise (cb : Callback (Msg:=Msg)) : nat :=
  match cb with StoreDone _ p => p end.

(** The promises of the stores under way: those held by the retry of a
    live timeout, by a queued immediate, and by a callback the batch manager
    holds. *)
Definition outstandingOf (live : gmap nat (option Z * Task (Msg:=Msg)))
    (queued : list (Task (Msg:=Msg)))
    (batched : list (BucketId * Msg * Callback (Msg:=Msg))) : list nat :=
  ((λ ht, taskPromise ht.2.2) <$> map_to_list live)
  ++ (taskPromise <$> queued)
  ++ ((λ entry, callbackPromise entry.2) <$> batched).

Definition outstandingPromises (w : World (Msg:=Msg)) : list nat :=
  outstandingOf (timers w) (immediates w) (batch_queue (batchManager w)).

(** The stores under way, [held] being promises of stores between two
    places: every entry of [pendingStores] names a live timeout that retries
    under that uuid and waits the configured interval; the promises under way
    are pending, each held once; the promises made are below the counter;
    the callback of an entry of the batch manager is the one of the entry's
    message. *)
Record underWay (held : list nat) (w : World (Msg:=Msg)) : Prop := mkUnderWay {
  underWay_paired : ∀ uuid h,
    pendingStores w !! uuid = Some h →
    ∃ delay m p, timers w !! h = Some (delay, RetryStoreTask uuid m p);
  underWay_delay : ∀ h delay task,
    timers w !! h = Some (delay, task) →
    delay = retriesIntervalMilliseconds (opts w);
  underWay_pending :
    Forall (λ p, promises w !! p = Some Pending) (held ++ outstandingPromises w);
  underWay_own : NoDup (held ++ outstandingPromises w);
  underWay_below : ∀ p, is_Some (promises w !! p) → (p < nextId w)%nat;
  underWay_callbacks :
    Forall (λ entry, ∃ p, entry.2 = StoreDone entry.1.2 p)
           (batch_queue (batchManager w));
}.

End Outcomes.

(** ** Metrics *)

Section Metrics.

Context {Msg : Type} {codec : StreamMessageCodec Msg}.

(** [streamMessage.getContent(false).length], an accessor of the protocol
    package. *)
Context (contentLength : Msg → Z).

(** The four [RateMetric]s of [enableMetrics], each as the values given
    to its [record], oldest first. *)
Record Metrics := mkMetrics {
  readMessagesPerSecond : list Z;
  readBytesPerSecond : list Z;
  writeMessagesPerSecond : list Z;
  writeBytesPerSecond : list Z;
}.

Definition newMetrics : Metrics := mkMetrics [] [] [] [].

(** The listener [enableMetrics] registers for ['read']. *)
Definition onRead (streamMessage : Msg) (metrics : Metrics) : Metrics :=
  mkMetrics (readMessagesPerSecond metrics ++ [1])
            (readBytesPerSecond metrics ++ [contentLength streamMessage])
            (writeMessagesPerSecond metrics) (writeBytesPerSecond metrics).

(** The listener [enableMetrics] registers for ['write']. *)
Definition onWrite (streamMessage : Msg) (metrics : Metrics) : Metrics :=
  mkMetrics (readMessagesPerSecond metrics) (readBytesPerSecond metrics)
            (writeMessagesPerSecond metrics ++ [1])
            (writeBytesPerSecond metrics ++ [contentLength streamMessage]).

(** [emit(name, m)] on a store with these two listeners: the emitter
    calls the listeners of the name, at once. *)
Definition listen (metrics : Metrics) (e : Event (Msg:=Msg)) : Metrics :=
  match e with
  | EvEmit name m =>
      if bool_decide (name = "read") then onRead m metrics
      else if bool_decide (name = "write") then onWrite m metrics
      else metrics
  | _ => metrics
  end.

(** The messages of the ['write'] notifications of a trace. *)
Definition writeNotification (e : Event (Msg:=Msg)) : option Msg :=
  match e with
  | EvEmit name m =>
      if bool_decide (name = "write") then Some m else None
  | _ => None
  end.

Definition writeNotifications (t : list (Event (Msg:=Msg))) : list Msg :=
  omap writeNotification t.

(** The metrics after the events [t], for a store on which
    [enableMetrics] was called before them. *)
Definition recorded (t : list (Event (Msg:=Msg))) : Metrics :=
  foldl listen newMetrics t.

End Metrics.

(** ** Start-up *)

(** An error as [connect] rejects with it, and [Error.prototype.toString]. *)
Record JsError := mkJsError {
  err_name : string;
  err_message : string;
}.

Definition JsError_toString (e : JsError) : string :=
  if bool_decide (err_name e = "") then err_message e
  else if bool_decide (err_message e = "") then err_name e
  else err_name e +:+ ": " +:+ err_message e.

(** [StartCassandraOptions]. *)
Record StartCassandraOptions := mkStartCassandraOptions {
  contactPoints : list string;
  localDataCenter : string;
  keyspace : string;
  username : option string;
  password : option string;
  start_opts : option LogStoreOptions;
}.

(** The options [startCassandraLogStore] gives to [new Client]. *)
Record ClientOptions := mkClientOptions {
  client_contactPoints : list string;
  client_localDataCenter : string;
  client_keyspace : string;
  client_authProvider : string * string;
  client_slowThreshold : Z;
  client_maxRequestsPerConnection : Z;
}.

(** [v || ''] on an optional string. *)
Definition orEmpty (v : option string) : string :=
  match v with
  | Some s => if bool_decide (s = "") then "" else s
  | None => ""
  end.

Definition clientOptions (o : StartCassandraOptions) : ClientOptions :=
  mkClientOptions (contactPoints o) (localDataCenter o) (keyspace o)
                  (orEmpty (username o), orEmpty (password o))
                  (10 * 1000) 32768.

(** The driver at start-up: the client it builds for the options, and
    what the [n]-th call of [connect] on it rejects with, if it does. *)
Record Driver := mkDriver {
  newClient : ClientOptions → CassandraClient;
  connect : nat → option JsError;
}.

Inductive StartEvent :=
| StartConnect
| StartConsoleLog (text : string)
| StartSleep (ms : Z).

Section Startup.

Context {Msg : Type} {codec : StreamMessageCodec Msg}.

(** The [while (retryCount > 0)] loop: [attempt] counts the calls of
    [connect] made, [lastError] is the variable of that name ([None] for
    its first value, the empty string). It answers with what was done and
    the store, or the message of the error thrown. *)
Fixpoint connectTrials (driver : Driver) (cassandraClient : CassandraClient)
    (o : option LogStoreOptions) (bm : BucketManager)
    (retryCount attempt : nat) (lastError : option JsError)
    : list StartEvent * (string + World (Msg:=Msg)) :=
  match retryCount with
  | O =>
      ([], inl ("Failed to connect to Cassandra after 20 trials: "
                +:+ match lastError with
                    | Some err => JsError_toString err
                    | None => ""
                    end))
  | S retryCount =>
      match connect driver attempt with
      | None =>
          ([StartConnect],
           inr (LogStore_new cassandraClient
                  (default (mkLogStoreOptions Absent Absent) o) bm))
      | Some err =>
          let '(t, r) :=
            connectTrials driver cassandraClient o bm retryCount (S attempt)
                          (Some err) in
          (StartConnect :: StartConsoleLog "Cassandra not responding yet..."
             :: StartSleep 5000 :: t, r)
      end
  end.

(** [startCassandraLogStore]; [bm] is the bucket manager the constructor
    of the store builds. *)
Definition startCassandraLogStore (driver : Driver) (o : StartCassandraOptions)
    (bm : BucketManager) : list StartEvent * (string + World (Msg:=Msg)) :=
  let cassandraClient := newClient driver (clientOptions o) in
  let nbTrials := 20%nat in
  connectTrials driver cassandraClient (start_opts o) bm nbTrials 0 None.

(** One failed trial. *)
Definition failedTrial : list StartEvent :=
  [StartConnect; StartConsoleLog "Cassandra not responding yet..."; StartSleep 5000].

Fixpoint failedTrials (n : nat) : list StartEvent :=
  match n with
  | O => []
  | S n => failedTrial ++ failedTrials n
  end.

Definition isConnect (e : StartEvent) : bool :=
  match e with StartConnect => true | _ => false end.

Definition isSleep (e : StartEvent) : bool :=
  match e with StartSleep _ => true | _ => false end.

End Startup.

(** * SystemRecovery: collecting the recovery of the brokers

    The class [SystemRecovery] of the validator: it asks the brokers to
    replay the system stream and follows, broker by broker, how far the
    replay has come. *)

Module SystemRecovery.

Definition MAX_SAFE_INTEGER : Z := 9007199254740991.

(** [RecoveryProgress]; [timestamp] is optional. *)
Record RecoveryProgress := mkProgress {
  timestamp : option Z;
  isComplete : bool;
}.

(** [MessageMetadata], the two fields [onMessage] reads. *)
Record MessageMetadata := mkMetadata {
  publisherId : string;
  metadata_timestamp : Z;
}.

(** A [Map] with string keys: its entries in the order of insertion;
    [set] on a key it has keeps the place of the key. *)
Fixpoint Map_get {V} (key : string) (entries : list (string * V)) : option V :=
  match entries with
  | [] => None
  | (k, v) :: rest => if bool_decide (k = key) then Some v else Map_get key rest
  end.

Fixpoint Map_set {V} (key : string) (value : V) (entries : list (string * V))
    : list (string * V) :=
  match entries with
  | [] => [(key, value)]
  | (k, v) :: rest =>
      if bool_decide (k = key) then (key, value) :: rest
      else (k, v) :: Map_set key value rest
  end.

Section SystemRecovery.

(** An entry [[msg, msgMetadata]] of the payload of a recovery response. *)
Context {Item : Type}.

(** A system message as [SystemMessage.deserialize] reads it from the
    content; [OtherMessage] is one of a type not in
    [LISTENING_MESSAGE_TYPES]. *)
Inductive SystemMessage :=
| RecoveryResponse (requestId : string) (payload : list Item)
| RecoveryComplete (requestId : string)
| OtherMessage.

Inductive Event :=
| EvDebug (text : string) (publisher : string) (payloadLength : option nat)
| EvInfo (text : string)
| EvOnSystemMessage (item : Item)
| EvUnsubscribe.

(** The object: [requestId] (undefined until [start] sets it),
    [progresses], whether the subscriber is subscribed, and what was
    logged and called. *)
Record State := mkState {
  requestId : option string;
  progresses : list (string * RecoveryProgress);
  subscribed : bool;
  trace : list Event;
}.

Definition log (e : Event) (st : State) : State :=
  mkState (requestId st) (progresses st) (subscribed st) (trace st ++ [e]).

(** A write to a field of the progress object of [publisher]: the object
    is the one the map holds. *)
Definition setProgress (publisher : string) (f : RecoveryProgress → RecoveryProgress)
    (st : State) : State :=
  mkState (requestId st)
          (match Map_get publisher (progresses st) with
           | Some progress => Map_set publisher (f progress) (progresses st)
           | None => progresses st
           end)
          (subscribed st) (trace st).

(** [stop()]. *)
Definition stop (st : State) : State :=
  mkState (requestId st) (progresses st) false (trace st ++ [EvUnsubscribe]).

(** The loop of the getter [progress], [result] being its variable. *)
Fixpoint progressLoop (entries : list (string * RecoveryProgress))
    (result_timestamp : Z) (result_isComplete : bool) : RecoveryProgress :=
  match entries with
  | [] => mkProgress (Some result_timestamp) result_isComplete
  | (_, progress) :: rest =>
      match timestamp progress with
      | None => mkProgress None false
      | Some t =>
          progressLoop rest (Z.min result_timestamp t)
                       (result_isComplete && isComplete progress)
      end
  end.

(** [get progress()]. *)
Definition progress (st : State) : RecoveryProgress :=
  progressLoop (progresses st) MAX_SAFE_INTEGER true.

(** The loop of [start] over the addresses the recovery endpoint
    answered with. *)
Definition registerBrokers (brokerAddresses : list string) (st : State) : State :=
  foldl (λ st brokerAddress,
           mkState (requestId st)
                   (Map_set brokerAddress (mkProgress None false) (progresses st))
                   (subscribed st) (trace st))
        st brokerAddresses.

(** The loop of [onMessage] over the payload of a recovery response. *)
Definition replay (metadata : MessageMetadata) (payload : list Item) (st : State)
    : State :=
  foldl (λ st item,
           setProgress (publisherId metadata)
             (λ progress, mkProgress (Some (metadata_timestamp metadata))
                                     (isComplete progress))
             (log (EvOnSystemMessage item) st))
        st payload.

(** [onMessage(content, metadata)], [systemMessage] being the content
    deserialised; the calls of [onSystemMessage] and of [stop] it awaits
    are taken as done when it goes on. *)
Definition onMessage (systemMessage : SystemMessage) (metadata : MessageMetadata)
    (st : State) : State :=
  match systemMessage with
  | OtherMessage => st
  | _ =>
      let st :=
        match Map_get (publisherId metadata) (progresses st) with
        | Some _ => st
        | None =>
            mkState (requestId st)
                    (Map_set (publisherId metadata) (mkProgress None false)
                             (progresses st))
                    (subscribed st) (trace st)
        end in
      match systemMessage with
      | RecoveryResponse requestId0 payload =>
          if bool_decide (requestId st ≠ Some requestId0) then st
          else
            replay metadata payload
              (log (EvDebug "Processing RecoveryResponse" (publisherId metadata)
                            (Some (length payload))) st)
      | RecoveryComplete requestId0 =>
          if bool_decide (requestId st ≠ Some requestId0) then st
          else
            let st :=
              log (EvDebug "Processing RecoveryComplete" (publisherId metadata) None)
                  st in
            let st :=
              setProgress (publisherId metadata)
                (λ progress,
                   mkProgress (match timestamp progress with
                               | None => Some 0
                               | Some t => Some t
                               end)
                              (isComplete progress)) st in
            let st :=
              setProgress (publisherId metadata)
                (λ progress, mkProgress (timestamp progress) true) st in
            if isComplete (progress st)
            then log (EvInfo "Successfully complete SystemRecovery") (stop st)
            else st
      | OtherMessage => st
      end
  end.

(** A progress that lets the whole be complete. *)
Definition finishedProgress (entry : string * RecoveryProgress) : Prop :=
  timestamp entry.2 ≠ None ∧ isComplete entry.2 = true.

(** The timestamps of the entries that have one. *)
Definition timestamps (entries : list (string * RecoveryProgress)) : list Z :=
  omap (λ entry, timestamp entry.2) entries.

Definition isUnsubscribe (e : Event) : bool :=
  match e with EvUnsubscribe => true | _ => false end.

End SystemRecovery.

Arguments SystemMessage : clear implicits.
Arguments Event : clear implicits.
Arguments State : clear implicits.

End SystemRecovery.

(** * LSAN: the token contract

    The contract [LSAN] of [Token.sol] (Solidity 0.8: arithmetic on
    [uint256] is checked). The ledger of the token and the functions it
    inherits from [ERC20Upgradeable] are taken as they come; a call of a
    function that is not payable carries no value. *)

Module LSAN.

Abbreviation address := Z (only parsing).

Definition MAX_UINT256 : Z := 2 ^ 256 - 1.

(** How a call reverts: a [require] that fails, with its message; a
    revert that carries none (a [require] without message, a transfer of
    value that is not taken); a panic (0x11: overflow or underflow, 0x12:
    division by zero). *)
Inductive Failure :=
| Require (message : string)
| RequireBare
| Panic (code : Z).

Definition Result (A : Type) : Type := Failure + A.

#[global] Instance Result_ret : MRet Result := λ A a, inr a.
#[global] Instance Result_bind : MBind Result :=
  λ A B k r, match r with inl failure => inl failure | inr a => k a end.

Definition require (condition : bool) (message : string) : Result unit :=
  if condition then inr tt else inl (Require message).

(** Checked arithmetic of [uint256]. *)
Definition add (a b : Z) : Result Z :=
  if bool_decide (a + b ≤ MAX_UINT256) then inr (a + b) else inl (Panic 17).
Definition sub (a b : Z) : Result Z :=
  if bool_decide (b ≤ a) then inr (a - b) else inl (Panic 17).
Definition mul (a b : Z) : Result Z :=
  if bool_decide (a * b ≤ MAX_UINT256) then inr (a * b) else inl (Panic 17).
Definition div (a b : Z) : Result Z :=
  if bool_decide (b = 0) then inl (Panic 18) else inr (a `div` b).

(** [msg.sender], [msg.value] and [block.timestamp] of a call. *)
Record Call := mkCall {
  sender : address;
  value : Z;
  block_timestamp : Z;
}.

Section LSAN.

(** The ledger of [ERC20Upgradeable] and its functions [LSAN] calls. *)
Context {Ledger : Type}.
Context (ERC20_init : string → string → Ledger → Ledger)
        (_mint _burn : address → Z → Ledger → Result Ledger)
        (_transfer : address → address → Z → Ledger → Result Ledger)
        (_spendAllowance : address → address → Z → Ledger → Result Ledger).

(** The storage of the contract: its own variables, the owner of
    [OwnableUpgradeable], the flag of [Initializable], the ledger, and the
    balance of the contract's address. *)
Record Contract := mkContract {
  maticPerByte : Z;
  totalBytesStored : Z;
  multiplier : Z;
  minimumDeposit : Z;
  nodeManagerAddress : address;
  SAFE_ADDRESS : address;
  DEPLOYED_TIME : Z;
  treasury : Z;
  whitelistedSenders : gmap Z bool;
  whitelistedRecipients : gmap Z bool;
  owner : address;
  initialized : bool;
  ledger : Ledger;
  balance : Z;
}.

(** A mapping to [bool]: [false] where nothing was written. *)
Definition mapping (m : gmap Z bool) (a : address) : bool := default false (m !! a).

Definition set_maticPerByte (v : Z) (c : Contract) : Contract :=
  mkContract v (totalBytesStored c) (multiplier c) (minimumDeposit c)
    (nodeManagerAddress c) (SAFE_ADDRESS c) (DEPLOYED_TIME c) (treasury c)
    (whitelistedSenders c) (whitelistedRecipients c) (owner c) (initialized c)
    (ledger c) (balance c).

Definition set_totalBytesStored (v : Z) (c : Contract) : Contract :=
  mkContract (maticPerByte c) v (multiplier c) (minimumDeposit c)
    (nodeManagerAddress c) (SAFE_ADDRESS c) (DEPLOYED_TIME c) (treasury c)
    (whitelistedSenders c) (whitelistedRecipients c) (owner c) (initialized c)
    (ledger c) (balance c).

Definition set_multiplier (v : Z) (c : Contract) : Contract :=
  mkContract (maticPerByte c) (totalBytesStored c) v (minimumDeposit c)
    (nodeManagerAddress c) (SAFE_ADDRESS c) (DEPLOYED_TIME c) (treasury c)
    (whitelistedSenders c) (whitelistedRecipients c) (owner c) (initialized c)
    (ledger c) (balance c).

Definition set_minimumDeposit (v : Z) (c : Contract) : Contract :=
  mkContract (maticPerByte c) (totalBytesStored c) (multiplier c) v
    (nodeManagerAddress c) (SAFE_ADDRESS c) (DEPLOYED_TIME c) (treasury c)
    (whitelistedSenders c) (whitelistedRecipients c) (owner c) (initialized c)
    (ledger c) (balance c).

Definition set_nodeManagerAddress (v : address) (c : Contract) : Contract :=
  mkContract (maticPerByte c) (totalBytesStored c) (multiplier c) (minimumDeposit c)
    v (SAFE_ADDRESS c) (DEPLOYED_TIME c) (treasury c)
    (whitelistedSenders c) (whitelistedRecipients c) (owner c) (initialized c)
    (ledger c) (balance c).

Definition set_SAFE_ADDRESS (v : address) (c : Contract) : Contract :=
  mkContract (maticPerByte c) (totalBytesStored c) (multiplier c) (minimumDeposit c)
    (nodeManagerAddress c) v (DEPLOYED_TIME c) (treasury c)
    (whitelistedSenders c) (whitelistedRecipients c) (owner c) (initialized c)
    (ledger c) (balance c).

Definition set_DEPLOYED_TIME (v : Z) (c : Contract) : Contract :=
  mkContract (maticPerByte c) (totalBytesStored c) (multiplier c) (minimumDeposit c)
    (nodeManagerAddress c) (SAFE_ADDRESS c) v (treasury c)
    (whitelistedSenders c) (whitelistedRecipients c) (owner c) (initialized c)
    (ledger c) (balance c).

Definition set_treasury (v : Z) (c : Contract) : Contract :=
  mkContract (maticPerByte c) (totalBytesStored c) (multiplier c) (minimumDeposit c)
    (nodeManagerAddress c) (SAFE_ADDRESS c) (DEPLOYED_TIME c) v
    (whitelistedSenders c) (whitelistedRecipients c) (owner c) (initialized c)
    (ledger c) (balance c).

Definition set_whitelistedSenders (v : gmap Z bool) (c : Contract) : Contract :=
  mkContract (maticPerByte c) (totalBytesStored c) (multiplier c) (minimumDeposit c)
    (nodeManagerAddress c) (SAFE_ADDRESS c) (DEPLOYED_TIME c) (treasury c)
    v (whitelistedRecipients c) (owner c) (initialized c)
    (ledger c) (balance c).

Definition set_whitelistedRecipients (v : gmap Z bool) (c : Contract) : Contract :=
  mkContract (maticPerByte c) (totalBytesStored c) (multiplier c) (minimumDeposit c)
    (nodeManagerAddress c) (SAFE_ADDRESS c) (DEPLOYED_TIME c) (treasury c)
    (whitelistedSenders c) v (owner c) (initialized c)
    (ledger c) (balance c).

Definition set_owner (v : address) (c : Contract) : Contract :=
  mkContract (maticPerByte c) (totalBytesStored c) (multiplier c) (minimumDeposit c)
    (nodeManagerAddress c) (SAFE_ADDRESS c) (DEPLOYED_TIME c) (treasury c)
    (whitelistedSenders c) (whitelistedRecipients c) v (initialized c)
    (ledger c) (balance c).

Definition set_initialized (v : bool) (c : Contract) : Contract :=
  mkContract (maticPerByte c) (totalBytesStored c) (multiplier c) (minimumDeposit c)
    (nodeManagerAddress c) (SAFE_ADDRESS c) (DEPLOYED_TIME c) (treasury c)
    (whitelistedSenders c) (whitelistedRecipients c) (owner c) v
    (ledger c) (balance c).

Definition set_ledger (v : Ledger) (c : Contract) : Contract :=
  mkContract (maticPerByte c) (totalBytesStored c) (multiplier c) (minimumDeposit c)
    (nodeManagerAddress c) (SAFE_ADDRESS c) (DEPLOYED_TIME c) (treasury c)
    (whitelistedSenders c) (whitelistedRecipients c) (owner c) (initialized c)
    v (balance c).

Definition set_balance (v : Z) (c : Contract) : Contract :=
  mkContract (maticPerByte c) (totalBytesStored c) (multiplier c) (minimumDeposit c)
    (nodeManagerAddress c) (SAFE_ADDRESS c) (DEPLOYED_TIME c) (treasury c)
    (whitelistedSenders c) (whitelistedRecipients c) (owner c) (initialized c)
    (ledger c) v.

(** *** Modifiers *)

Definition onlyOwner (call : Call) (c : Contract) : Result unit :=
  require (bool_decide (owner c = sender call)) "Ownable: caller is not the owner".

Definition onlySafe (call : Call) (c : Contract) : Result unit :=
  if bool_decide (sender call = SAFE_ADDRESS c) then inr tt else inl RequireBare.

Definition onlyWhitelistedSender (destinationAddress : address) (call : Call)
    (c : Contract) : Result unit :=
  require (bool_decide (destinationAddress ≠ nodeManagerAddress c)
           || mapping (whitelistedSenders c) (sender call))
          "User is not whitelisted to transfer to the address".

Definition onlyWhitelistedRecipient (destinationAddress : address) (call : Call)
    (c : Contract) : Result unit :=
  require (bool_decide (destinationAddress ≠ nodeManagerAddress c)
           || mapping (whitelistedRecipients c) (sender call))
          "User is not whitelisted to transferFrom this address".

(** *** Admin functions *)

Definition mintTokens (account : address) (amount : Z) (call : Call) (c : Contract)
    : Result Contract :=
  onlyOwner call c;;
  l ← _mint account amount (ledger c);
  mret (set_ledger l c).

Definition burn (account : address) (amount : Z) (call : Call) (c : Contract)
    : Result Contract :=
  onlyOwner call c;;
  l ← _burn account amount (ledger c);
  mret (set_ledger l c).

Definition whitelistSender (account : address) (call : Call) (c : Contract)
    : Result Contract :=
  onlyOwner call c;;
  require (negb (mapping (whitelistedSenders c) account))
          "Address already whitelisted as sender";;
  mret (set_whitelistedSenders (<[account := true]> (whitelistedSenders c)) c).

Definition whitelistRecipient (account : address) (call : Call) (c : Contract)
    : Result Contract :=
  onlyOwner call c;;
  require (negb (mapping (whitelistedRecipients c) account))
          "Account already whitelisted as recipient";;
  mret (set_whitelistedRecipients (<[account := true]> (whitelistedRecipients c)) c).

(** [withdraw]; [accepted] tells whether the safe takes the transfer. *)
Definition withdraw (amount : Z) (accepted : bool) (call : Call) (c : Contract)
    : Result Contract :=
  onlyOwner call c;;
  require (bool_decide (balance c >= amount)) "Insufficient contract balance";;
  t ← sub (treasury c) amount;
  if accepted then mret (set_balance (balance c - amount) (set_treasury t c))
  else inl RequireBare.

Definition setMaticPerByte (_maticPerByte : Z) (call : Call) (c : Contract)
    : Result Contract :=
  onlyOwner call c;; mret (set_maticPerByte _maticPerByte c).

Definition setTotalBytesStored (_totalBytesStored : Z) (call : Call) (c : Contract)
    : Result Contract :=
  onlyOwner call c;; mret (set_totalBytesStored _totalBytesStored c).

Definition setMultipler (_multiplier : Z) (call : Call) (c : Contract)
    : Result Contract :=
  onlyOwner call c;; mret (set_multiplier _multiplier c).

Definition setNodeManagerAddress (_nodeManagerAddress : address) (call : Call)
    (c : Contract) : Result Contract :=
  onlyOwner call c;; mret (set_nodeManagerAddress _nodeManagerAddress c).

Definition setMinimumDeposit (_minimumDeposit : Z) (call : Call) (c : Contract)
    : Result Contract :=
  onlyOwner call c;; mret (set_minimumDeposit _minimumDeposit c).

(** *** Safe functions *)

Definition destroy (call : Call) (c : Contract) : Result Contract :=
  onlySafe call c;; mret c.

(** *** Public methods *)

Definition getTokenPrice (call : Call) (c : Contract) : Result Z :=
  totalExpense ← mul (maticPerByte c) (totalBytesStored c);
  timeSinceStart ← sub (block_timestamp call) (DEPLOYED_TIME c);
  hours ← mul timeSinceStart 24;
  minutes ← mul hours 60;
  seconds ← mul minutes 60;
  millis ← mul seconds 1000;
  totalExpensePerDay ← div totalExpense millis;
  mul totalExpensePerDay (multiplier c).

(** [mint]: the value sent is in the balance when the body runs. *)
Definition mint (call : Call) (c : Contract) : Result Contract :=
  let c := set_balance (balance c + value call) c in
  require (bool_decide (value call > minimumDeposit c))
          "sent amount less than minimum amount";;
  require (bool_decide (maticPerByte c > 0)) "maticPerByte <= 0";;
  require (bool_decide (totalBytesStored c > 0)) "totalBytesStored <= 0";;
  lsanPrice ← getTokenPrice call c;
  mintAmount ← div (value call) lsanPrice;
  t ← add (treasury c) (value call);
  l ← _mint (sender call) mintAmount (ledger c);
  mret (set_ledger l (set_treasury t c)).

(** *** Override methods *)

Definition transfer (_to : address) (_amount : Z) (call : Call) (c : Contract)
    : Result (bool * Contract) :=
  onlyWhitelistedSender _to call c;;
  let owner := sender call in
  l ← _transfer owner _to _amount (ledger c);
  mret (true, set_ledger l c).

Definition transferFrom (_from _to : address) (amount : Z) (call : Call)
    (c : Contract) : Result (bool * Contract) :=
  onlyWhitelistedRecipient _from call c;;
  onlyWhitelistedSender _to call c;;
  let spender := sender call in
  l ← _spendAllowance _from spender amount (ledger c);
  l ← _transfer _from _to amount l;
  mret (true, set_ledger l c).

(** *** initialize *)

Fixpoint whitelistAll (initialWhitelist : list address) (call : Call) (c : Contract)
    : Result Contract :=
  match initialWhitelist with
  | [] => mret c
  | account :: rest =>
      c ← whitelistSender account call c;
      c ← whitelistRecipient account call c;
      whitelistAll rest call c
  end.

(** [initialize], under the modifier [initializer] of a contract that
    is initialised once. *)
Definition initialize (initialWhitelist : list address)
    (_safeAddress _nodeManagerAddress : address) (call : Call) (c : Contract)
    : Result Contract :=
  require (negb (initialized c)) "Initializable: contract is already initialized";;
  let c := set_initialized true c in
  let c := set_owner (sender call) c in
  let c := set_ledger (ERC20_init "Logstore Alpha Network Token" "LSAN" (ledger c)) c in
  c ← whitelistAll initialWhitelist call c;
  let c := set_SAFE_ADDRESS _safeAddress c in
  let c := set_DEPLOYED_TIME (block_timestamp call) c in
  let c := set_nodeManagerAddress _nodeManagerAddress c in
  let c := set_multiplier 1 c in
  let c := set_minimumDeposit 0 c in
  mret c.

(** *** The calls of the contract *)

(** One successful call of a function of the contract that changes its
    storage or its balance. *)
Inductive transaction : Contract → Contract → Prop :=
| tx_mintTokens account amount call c c1 :
    mintTokens account amount call c = inr c1 → transaction c c1
| tx_burn account amount call c c1 :
    burn account amount call c = inr c1 → transaction c c1
| tx_whitelistSender account call c c1 :
    whitelistSender account call c = inr c1 → transaction c c1
| tx_whitelistRecipient account call c c1 :
    whitelistRecipient account call c = inr c1 → transaction c c1
| tx_withdraw amount accepted call c c1 :
    0 ≤ amount → withdraw amount accepted call c = inr c1 → transaction c c1
| tx_setMaticPerByte v call c c1 :
    setMaticPerByte v call c = inr c1 → transaction c c1
| tx_setTotalBytesStored v call c c1 :
    setTotalBytesStored v call c = inr c1 → transaction c c1
| tx_setMultipler v call c c1 :
    setMultipler v call c = inr c1 → transaction c c1
| tx_setNodeManagerAddress v call c c1 :
    setNodeManagerAddress v call c = inr c1 → transaction c c1
| tx_setMinimumDeposit v call c c1 :
    setMinimumDeposit v call c = inr c1 → transaction c c1
| tx_destroy call c c1 :
    destroy call c = inr c1 → transaction c c1
| tx_mint call c c1 :
    0 ≤ value call → mint call c = inr c1 → transaction c c1
| tx_transfer _to _amount call c r :
    transfer _to _amount call c = inr r → transaction c r.2
| tx_transferFrom _from _to amount call c r :
    transferFrom _from _to amount call c = inr r → transaction c r.2.

End LSAN.

End LSAN.

(** * Runtime: the configuration of the validator

    [validateSetConfig] of the class [Runtime] of the validator: it takes
    the configuration of the pool, asks each of its sources for its
    network and, when they agree on a chain that has system contracts,
    sets the configuration of the runtime. *)

Module Runtime.

(** [s.includes(sub)]. *)
Definition includes (s sub : string) : bool :=
  match String.index 0 sub s with
  | Some _ => true
  | None => false
  end.

Section Runtime.

(** The [fees] of a configuration. *)
Context {Fees : Type}.

(** [new JsonRpcProvider(source).getNetwork()], then [chainId]: the chain
    id of the network of the source, or the error the call rejects with. *)
Context (getNetwork : string → string + Z).

(** [ContractAddresses[chainId]], the table of [@logsn/contracts]: the
    [nodeManagerAddress] of the system contracts of the chain, if the
    table has the chain. *)
Context (ContractAddresses : Z → option string).

(** [IConfig]. *)
Record IConfig := mkConfig {
  systemStreamId : string;
  sources : list string;
  fees : Fees;
}.

(** What [JSON.parse] reads of the raw configuration: [sources], and the
    other fields if the text has them. *)
Record ParsedConfig := mkParsed {
  parsed_systemStreamId : option string;
  parsed_sources : list string;
  parsed_fees : option Fees;
}.

(** The loop over the sources, [chainId] being its variable ([None] for
    [null]). It answers with the sources whose network was asked for, and
    the final [chainId] or the message of the error thrown. *)
Fixpoint chainIdLoop (sources : list string) (chainId : option Z)
    : list string * (string + option Z) :=
  match sources with
  | [] => ([], inr chainId)
  | source :: rest =>
      match getNetwork source with
      | inl err => ([source], inl err)
      | inr network_chainId =>
          match chainId with
          | None =>
              let '(asked, r) := chainIdLoop rest (Some network_chainId) in
              (source :: asked, r)
          | Some id =>
              if bool_decide (id ≠ network_chainId)
              then ([source],
                    inl "Config sources have different network chain identifiers")
              else
                let '(asked, r) := chainIdLoop rest chainId in
                (source :: asked, r)
          end
      end
  end.

(** The sources [validateSetConfig] goes on with. *)
Definition effectiveSources (sources : list string) : list string :=
  if existsb (λ source, includes source "polygon-rpc.com") sources
  then ["https://polygon-mainnet.g.alchemy.com/v2/TZ57-u9wrzpTTndvgMNQqPq790OaEdpp"]
  else sources.

(** [validateSetConfig(rawConfig)], [config] being the raw configuration
    parsed and [this_config] the configuration of the runtime: the sources
    asked, and the new [this.config] or the message of the error thrown. *)
Definition validateSetConfig (config : ParsedConfig) (this_config : IConfig)
    : list string * (string + IConfig) :=
  if bool_decide (length (parsed_sources config) = 0%nat)
  then ([], inl "Config does not have any sources")
  else
    let sources := effectiveSources (parsed_sources config) in
    let '(asked, r) := chainIdLoop sources None in
    match r with
    | inl err => (asked, inl err)
    | inr chainId =>
        match chainId ≫= ContractAddresses with
        | None =>
            (asked, inl "Config sources have invalid network chain identifier")
        | Some nodeManagerAddress =>
            (asked,
             inr (mkConfig (nodeManagerAddress +:+ "/system") sources
                    (default (fees this_config) (parsed_fees config))))
        end
    end.

End Runtime.

End Runtime.

(** * A sample store

    Stream ["s1"], partition 0: bucket ["A"] holds the messages of the
    timestamps 100 and 101, the newer bucket ["B"] those of 102 and 103;
    no bucket covers timestamps below 100. The bucket table counts
    1073741824 records and as many bytes for each bucket, so that the
    32-bit sums of the backend wrap around. *)

Record SampleMessage := mkSample {
  sample_timestamp : Z;
  sample_sequenceNumber : Z;
}.

Definition digits (z : Z) : string :=
  NilZero.string_of_uint (N.to_uint (Z.to_N z)).

Definition number (s : string) : Z :=
  match NilZero.uint_of_string s with
  | Some u => Z.of_uint u
  | None => 0
  end.

Fixpoint splitColon (s : string) : string * string :=
  match s with
  | EmptyString => (EmptyString, EmptyString)
  | String c rest =>
      if Ascii.eqb c ":"%char then (EmptyString, rest)
      else let '(a, b) := splitColon rest in (String c a, b)
  end.

Definition sampleSerialize (m : SampleMessage) : string :=
  digits (sample_timestamp m) +:+ ":" +:+ digits (sample_sequenceNumber m).

(** A text that is not two numbers around a colon does not deserialise. *)
Definition sampleDeserialize (s : string) : Error + SampleMessage :=
  let '(a, b) := splitColon s in
  match NilZero.uint_of_string a, NilZero.uint_of_string b with
  | Some _, Some _ => inr (mkSample (number a) (number b))
  | _, _ => inl "SyntaxError: Unexpected token in JSON"
  end.

Definition sampleCodec : StreamMessageCodec SampleMessage := {|
  getStreamId _ := "s1";
  getStreamPartition _ := 0;
  getTimestamp := sample_timestamp;
  getSequenceNumber := sample_sequenceNumber;
  messageIdSerialize := sampleSerialize;
  serialize := sampleSerialize;
  deserialize := sampleDeserialize;
|}.

Definition samplePayload (timestamp sequenceNumber : Z) : Row :=
  payloadRow (Some (sampleSerialize (mkSample timestamp sequenceNumber))).

Definition sampleRecords : list Z := [1073741824; 1073741824].
Definition sampleSizes : list Z := [1073741824; 1073741824].

Definition sampleExecute (q : string) (ps : list Param) (o : QueryOptions)
    : Error + list Row :=
  if String.eqb q COUNT_MESSAGES then inr [totalRow 2]
  else if String.eqb q GET_LAST_N_MESSAGES then
    inr [samplePayload 103 0; samplePayload 102 0; samplePayload 101 0]
  else if String.eqb q SUM_RECORDS then
    inr [countRow (wrap32 (foldr Z.add 0 sampleRecords))]
  else if String.eqb q SUM_SIZE then
    inr [countRow (wrap32 (foldr Z.add 0 sampleSizes))]
  else if String.eqb q SELECT_SIZE then inr (map sizeRow sampleSizes)
  else inr [].

Definition sampleClient : CassandraClient := {|
  client_execute := sampleExecute;
  client_eachRow _ _ _ := pagesOf ["B"; "A"];
  client_stream _ _ _ :=
    mkRowStream [samplePayload 102 0; payloadRow None; samplePayload 103 0] None;
|}.

Definition sampleBucketManager : BucketManager := {|
  bm_lookup _ _ timestamp :=
    if bool_decide (timestamp < 100) then None
    else if bool_decide (timestamp < 102) then Some "A" else Some "B";
  bm_counters := {[ "A" := (0, 0); "B" := (0, 0) ]};
  bm_range _ _ _ _ := inr [mkBucket "A"; mkBucket "B"];
  bm_stopped := false;
|}.

Definition sampleWorld : World (Msg:=SampleMessage) :=
  LogStore_new sampleClient (mkLogStoreOptions Absent Absent) sampleBucketManager.

(** A message no bucket covers yet, and the world after [store] parked it. *)
Definition earlyMessage : SampleMessage := mkSample 50 0.

Definition parkedWorld : World (Msg:=SampleMessage) :=
  (store (codec:=sampleCodec) earlyMessage sampleWorld).2.

(** The world after that message went through the immediate: the batch
    manager holds it. *)
Definition batchedWorld : World (Msg:=SampleMessage) :=
  (runImmediate (codec:=sampleCodec)
     (store (codec:=sampleCodec) (mkSample 103 0) sampleWorld).2).2.

(** The sample store with a row of bucket ["B"] whose payload is not a
    serialised message. *)
Definition corruptRows : list Row :=
  [samplePayload 103 0; payloadRow (Some "garbage"); samplePayload 101 0].

Definition corruptClient : CassandraClient := {|
  client_execute q ps o :=
    if String.eqb q GET_LAST_N_MESSAGES then inr corruptRows
    else sampleExecute q ps o;
  client_eachRow _ _ _ := pagesOf ["B"; "A"];
  client_stream _ _ _ := mkRowStream (rev corruptRows) None;
|}.

Definition corruptWorld : World (Msg:=SampleMessage) :=
  LogStore_new corruptClient (mkLogStoreOptions Absent Absent) sampleBucketManager.

(** The sample store with two records in each bucket, behind a driver
    that delivers an empty page of the listing between the page of bucket
    ["B"] and the page of bucket ["A"]; the final query answers with the
    rows of the buckets it is sent for. *)
Definition gapExecute (q : string) (ps : list Param) (o : QueryOptions)
    : Error + list Row :=
  match ps with
  | [_; _; PBucketIds [b]; _] =>
      if String.eqb q GET_LAST_N_MESSAGES && String.eqb b "B"
      then inr [samplePayload 103 0; samplePayload 102 0]
      else sampleExecute q ps o
  | _ => sampleExecute q ps o
  end.

Definition gapClient : CassandraClient := {|
  client_execute := gapExecute;
  client_eachRow _ _ _ := MorePages [idRow "B"] (MorePages [] (LastPage [idRow "A"]));
  client_stream := client_stream sampleClient;
|}.

Definition gapWorld : World (Msg:=SampleMessage) :=
  LogStore_new gapClient (mkLogStoreOptions Absent Absent) sampleBucketManager.

(** A store that knows no bucket and holds no data. *)
Definition emptyClient : CassandraClient := {|
  client_execute _ _ _ := inr [];
  client_eachRow _ _ _ := LastPage [];
  client_stream _ _ _ := mkRowStream [] None;
|}.

Definition emptyBucketManager : BucketManager := {|
  bm_lookup _ _ _ := None;
  bm_counters := ∅;
  bm_range _ _ _ _ := inr [];
  bm_stopped := false;
|}.

Definition emptyWorld : World (Msg:=SampleMessage) :=
  LogStore_new emptyClient (mkLogStoreOptions Absent Absent) emptyBucketManager.

(** A driver whose first two calls of [connect] fail. *)
Definition sampleDriver : Driver := {|
  newClient _ := sampleClient;
  connect n :=
    if bool_decide (n < 2)%nat
    then Some (mkJsError "NoHostAvailableError" "All host(s) tried for query failed.")
    else None;
|}.

Definition sampleStart : StartCassandraOptions :=
  mkStartCassandraOptions ["127.0.0.1"] "datacenter1" "logstore_dev" None None None.

(** The length of the content of a sample message. *)
Definition sampleContentLength (m : SampleMessage) : Z :=
  byteLength (sampleSerialize m).

(** ** A sample token

    A ledger that only holds balances, and a contract deployed at second
    1000 by account 1 with the accounts 10 and 11 whitelisted, the safe 99
    and the node manager 50; ten seconds later the expense counts
    1728000000, so that the price is 2. *)

Definition sampleLedger_mint (account amount : Z) (l : gmap Z Z)
    : LSAN.Result (gmap Z Z) :=
  inr (<[account := default 0 (l !! account) + amount]> l).

Definition sampleLedger_transfer (from to amount : Z) (l : gmap Z Z)
    : LSAN.Result (gmap Z Z) :=
  if bool_decide (amount ≤ default 0 (l !! from))
  then inr (<[to := default 0 (l !! to) + amount]>
              (<[from := default 0 (l !! from) - amount]> l))
  else inl (LSAN.Require "ERC20: transfer amount exceeds balance").

Definition newContract : LSAN.Contract (Ledger:=gmap Z Z) :=
  LSAN.mkContract 0 0 0 0 0 0 0 0 ∅ ∅ 0 false ∅ 0.

Definition deployedContract : LSAN.Contract (Ledger:=gmap Z Z) :=
  LSAN.mkContract 2 864000000 1 0 50 99 1000 0
    {[ 10 := true; 11 := true ]} {[ 10 := true; 11 := true ]} 1 true ∅ 0.

Definition sampleMintCall : LSAN.Call := LSAN.mkCall 7 10 1010.

(** ** A sample pool configuration

    Two sources on the chain 137, one on the chain 5; the table of the
    system contracts has the chain 137. *)

Definition sampleGetNetwork (source : string) : string + Z :=
  if bool_decide (source = "https://rpc-a.example") then inr 137
  else if bool_decide (source = "https://rpc-b.example") then inr 137
  else if bool_decide (source = "https://rpc-c.example") then inr 5
  else inl "could not detect network".

Definition sampleContractAddresses (chainId : Z) : option string :=
  if bool_decide (chainId = 137) then Some "0xnodemanager" else None.

Definition sampleConfig : Runtime.IConfig (Fees:=Z) :=
  Runtime.mkConfig "" [] 1.

(** * Properties *)

Section Properties.

Context {Msg : Type} {codec : StreamMessageCodec Msg}.

Implicit Types (w : World (Msg:=Msg)) (rs : ResultStream (Msg:=Msg))
  (t : list (Event (Msg:=Msg))) (e : Event (Msg:=Msg)).

Lemma mbind_run {A B} (m : M A) (k : A → M B) w :
  (m ≫= k) w = k (m w).1 (m w).2.
Proof. unfold mbind, M_bind. by destruct (m w). Qed.

Lemma emitted_nil w : emitted [] w = w.
Proof. destruct w; unfold emitted, set_trace; simpl. by rewrite app_nil_r. Qed.

Lemma emitted_emitted t1 t2 w : emitted t2 (emitted t1 w) = emitted (t1 ++ t2) w.
Proof. unfold emitted, set_trace; simpl. by rewrite app_assoc. Qed.

Lemma trace_emitted t w : trace (emitted t w) = trace w ++ t.
Proof. done. Qed.

Lemma issued_emitted t w : issued w (emitted t w) = t.
Proof. unfold issued. rewrite trace_emitted. apply drop_app_length. Qed.

(** ** The primitive operations, run *)

Lemma mret_run {A} (a : A) w : mret (M:=M) a w = (a, w).
Proof. done. Qed.

Lemma gets_run {A} (f : World (Msg:=Msg) → A) w : gets f w = (f w, w).
Proof. done. Qed.

Lemma modify_run (f : World (Msg:=Msg) → World) w : modify f w = (tt, f w).
Proof. done. Qed.

Lemma event_run (e : Event) w : event e w = (tt, emitted [e] w).
Proof. done. Qed.

Lemma execute_run q ps o w :
  execute q ps o w
  = (client_execute (cassandraClient w) q ps o, emitted [EvExecute q ps o] w).
Proof. done. Qed.

Lemma eachRow_run q ps o w :
  eachRow q ps o w
  = (client_eachRow (cassandraClient w) q ps o, emitted [EvEachRow q ps o] w).
Proof. done. Qed.

Lemma stream_run q ps o w :
  stream q ps o w
  = (client_stream (cassandraClient w) q ps o, emitted [EvStream q ps o] w).
Proof. done. Qed.

Lemma nextPage_run w : nextPage w = (tt, emitted [EvNextPage] w).
Proof. done. Qed.

Lemma getBucketsByTimestamp_run s p fromTs toTs w :
  getBucketsByTimestamp s p fromTs toTs w
  = (bm_range (bucketManager w) s p fromTs toTs,
     emitted [EvGetBucketsByTimestamp s p fromTs toTs] w).
Proof. done. Qed.

Lemma logger_trace_run text info w :
  logger_trace text info w = (tt, emitted [EvLog LTrace text info] w).
Proof. done. Qed.

Lemma cassandraClient_emitted t w : cassandraClient (emitted t w) = cassandraClient w.
Proof. done. Qed.

Lemma bucketManager_emitted t w : bucketManager (emitted t w) = bucketManager w.
Proof. done. Qed.

Create Rewrite HintDb run.

#[local] Hint Rewrite @mbind_run @mret_run @gets_run modify_run event_run execute_run eachRow_run
  stream_run nextPage_run getBucketsByTimestamp_run logger_trace_run
  cassandraClient_emitted bucketManager_emitted emitted_emitted : run.

(** Rewriting with the run lemmas; the setters stay folded meanwhile. *)
Ltac run :=
  repeat (with_strategy opaque
            [emitted set_trace set_nextId set_promises set_immediates set_timers
             set_pendingStores set_batchManager set_bucketManager set_connected]
            (autorewrite with run);
          cbn [fst snd]).

(** Running the primitive operations by computation. *)
Ltac compute_run :=
  repeat progress
    (unfold mbind, M_bind, mret, M_ret, gets, modify, event, logger_debug,
       logger_trace, logger_error, emit, getBucketId, incrementBucket,
       batchManager_store, batchManager_stop, bucketManager_stop, shutdown,
       fresh, uuidv1, setTimeout, clearTimeout, setImmediate, newPromise;
     cbv beta iota zeta).

(** Projections of a world built by the setters, innermost first: a
    setter repeats its argument once a field. *)
Ltac fields :=
  cbn [fst snd opts cassandraClient bucketManager batchManager pendingStores
       timers immediates promises nextId connected trace emitted set_trace
       set_nextId set_promises set_immediates set_timers set_pendingStores
       set_batchManager set_bucketManager set_connected].

(** A world built by the setters brought to its constructor, innermost
    setter first: a setter repeats its argument once a field. *)
Ltac world_normal :=
  cbv beta iota zeta delta
    [opts cassandraClient bucketManager batchManager pendingStores timers
     immediates promises nextId connected trace emitted set_trace set_nextId
     set_promises set_immediates set_timers set_pendingStores set_batchManager
     set_bucketManager set_connected].

Ltac fields_everywhere :=
  cbn [fst snd opts cassandraClient bucketManager batchManager pendingStores
       timers immediates promises nextId connected trace emitted set_trace
       set_nextId set_promises set_immediates set_timers set_pendingStores
       set_batchManager set_bucketManager set_connected] in *.

(** ** The result stream *)

Lemma parseRow_run row info w :
  parseRow row info w
  = (match rowError row with
     | Some err => inl err
     | None => inr (rowMessage row)
     end,
     emitted (option_list (rowEvent info row)) w).
Proof.
  unfold parseRow, rowError, rowMessage, rowEvent.
  destruct (row_payload row) as [payload|]; [|done].
  destruct (deserialize payload); [|done].
  rewrite mret_run. by rewrite emitted_nil.
Qed.

Lemma readable_app (rows1 rows2 : list Row) :
  readable (codec:=codec) (rows1 ++ rows2)
  = readable rows1 ++ match thrown rows1 with
                      | Some _ => []
                      | None => readable rows2
                      end.
Proof.
  induction rows1 as [|row rows1 IH]; [done|].
  cbn [app readable thrown]. destruct (rowError row); [done|].
  by rewrite IH.
Qed.

Lemma thrown_app (rows1 rows2 : list Row) :
  thrown (codec:=codec) (rows1 ++ rows2)
  = match thrown rows1 with
    | Some err => Some err
    | None => thrown rows2
    end.
Proof.
  induction rows1 as [|row rows1 IH]; [done|].
  cbn [app thrown]. by destruct (rowError row).
Qed.

Lemma decoded_app (rows1 rows2 : list Row) :
  decoded (Msg:=Msg) (rows1 ++ rows2) = decoded rows1 ++ decoded rows2.
Proof. apply omap_app. Qed.

Lemma forwarded_app (rows1 rows2 : list Row) :
  forwarded (Msg:=Msg) (rows1 ++ rows2)
  = forwarded rows1 ++ match thrown rows1 with
                       | Some _ => []
                       | None => forwarded rows2
                       end.
Proof.
  unfold forwarded. rewrite readable_app, decoded_app.
  by destruct (thrown rows1).
Qed.

Lemma rowEvents_app info (rows1 rows2 : list Row) :
  rowEvents (Msg:=Msg) info (rows1 ++ rows2)
  = rowEvents info rows1 ++ match thrown rows1 with
                            | Some _ => []
                            | None => rowEvents info rows2
                            end.
Proof.
  unfold rowEvents. rewrite readable_app, omap_app.
  by destruct (thrown rows1).
Qed.

(** Rows that all deserialise are all readable. *)
Lemma readable_all (rows : list Row) :
  thrown (codec:=codec) rows = None → readable rows = rows.
Proof.
  induction rows as [|row rows IH]; [done|]. cbn [thrown readable].
  destruct (rowError row); [done|]. intros Hrest. by rewrite IH.
Qed.

Lemma forwarded_all (rows : list Row) :
  thrown (codec:=codec) rows = None → forwarded rows = decoded rows.
Proof. intros Hall. unfold forwarded. by rewrite readable_all. Qed.

(** The readable rows are the first rows. *)
Lemma readable_prefix (rows : list Row) :
  ∃ rest, rows = readable (codec:=codec) rows ++ rest.
Proof.
  induction rows as [|row rows [rest IH]]; [by exists []|].
  cbn [readable]. destruct (rowError row).
  - by exists (row :: rows).
  - exists rest. cbn [app]. by rewrite <- IH.
Qed.

Lemma write_open row rs w :
  rs_status rs = Open →
  write row rs w
  = (match rowError row with
     | Some err => inl err
     | None => inr (mkResultStream (rs_info rs) (rs_pushed rs ++ forwarded [row]) Open)
     end,
     emitted (rowEvents (rs_info rs) [row]) w).
Proof.
  intros Hopen. unfold write, transform. rewrite Hopen, mbind_run, parseRow_run.
  destruct rs as [info pushed st]; simpl in *; subst.
  unfold forwarded, rowEvents, decoded, push, rowError, rowMessage, rowEvent.
  cbn [readable]. unfold rowError.
  destruct (row_payload row) as [payload|] eqn:Hrow;
    [destruct (deserialize payload) eqn:Hpayload|];
    cbn; rewrite ?Hrow; cbn; rewrite ?Hpayload; cbn;
    by rewrite ?emitted_nil, ?app_nil_r.
Qed.

Lemma writeRows_open rows rs w :
  rs_status rs = Open →
  writeRows rows rs w
  = ((mkResultStream (rs_info rs) (rs_pushed rs ++ forwarded rows) Open, thrown rows),
     emitted (rowEvents (rs_info rs) rows) w).
Proof.
  revert rs w. induction rows as [|row rows IH]; intros rs w Hopen.
  - simpl. rewrite emitted_nil. unfold forwarded, decoded; simpl. rewrite app_nil_r.
    destruct rs; simpl in *; by subst.
  - cbn [writeRows]. rewrite mbind_run, write_open by done. cbn [fst snd].
    change (row :: rows) with ([row] ++ rows).
    rewrite forwarded_app, rowEvents_app, thrown_app.
    cbn [thrown]. destruct (rowError row) as [err|] eqn:Hrow.
    + rewrite mret_run, !app_nil_r. unfold forwarded. cbn [readable].
      rewrite Hrow. unfold decoded. cbn. rewrite app_nil_r.
      destruct rs; simpl in *; by subst.
    + rewrite IH by done. cbn [rs_info rs_pushed]. rewrite emitted_emitted.
      by rewrite app_assoc.
Qed.

Lemma writeRows_closed rows rs w :
  rs_status rs ≠ Open → writeRows rows rs w = ((rs, None), w).
Proof.
  revert w. induction rows as [|row rows IH]; intros w Hst; [done|].
  cbn [writeRows]. rewrite mbind_run. unfold write at 1 2.
  destruct (rs_status rs) eqn:E; try done; simpl; by apply IH.
Qed.

(** ** fetchRange *)

Lemma pipeline_run streams rs w :
  rs_status rs = Open →
  pipeline streams rs w
  = (mkResultStream (rs_info rs) (rs_pushed rs ++ forwarded (mergedRows streams))
       (match thrown (mergedRows streams) with
        | Some _ => Open
        | None =>
            match mergedError streams with
            | Some e => Destroyed (Some e)
            | None => Ended
            end
        end),
     emitted (rowEvents (rs_info rs) (mergedRows streams)
              ++ escaped (mergedRows streams)) w).
Proof.
  revert rs w. induction streams as [|s streams IH]; intros rs w Hopen.
  - simpl. rewrite emitted_nil. unfold stream_end, forwarded, decoded. rewrite Hopen.
    simpl. by rewrite app_nil_r.
  - cbn [pipeline mergedRows mergedError]. rewrite mbind_run, writeRows_open by done.
    cbn [fst snd]. unfold escaped.
    rewrite forwarded_app, rowEvents_app, thrown_app.
    destruct (thrown (stream_rows s)) as [err|].
    + unfold uncaughtException. run. by rewrite !app_nil_r.
    + destruct (stream_error s) as [e|].
      * rewrite mret_run. unfold destroy. cbn [rs_status rs_info rs_pushed thrown].
        unfold forwarded, rowEvents. cbn. by rewrite !app_nil_r.
      * rewrite IH by done. cbn [rs_info rs_pushed]. unfold escaped.
        by rewrite emitted_emitted, !app_assoc.
Qed.

Lemma openStreams_run (queries : list Query) w :
  openStreams queries w
  = (map (λ q, client_stream (cassandraClient w) (selectOf q) (q_params q) streaming)
         queries,
     emitted (map (λ q, EvStream (selectOf q) (q_params q) streaming) queries) w).
Proof.
  revert w. induction queries as [|q queries IH]; intros w.
  - simpl. by rewrite emitted_nil.
  - cbn [openStreams]. unfold queryWithStreamingResults. run.
    rewrite IH. by run.
Qed.

Lemma physicalQueries_app t1 t2 :
  physicalQueries (t1 ++ t2) = physicalQueries t1 ++ physicalQueries t2.
Proof. apply omap_app. Qed.

Lemma physicalQueries_rows info (rows : list Row) :
  physicalQueries (rowEvents info rows) = [].
Proof.
  unfold rowEvents. induction (readable rows) as [|row l IH]; [done|].
  unfold physicalQueries in *. cbn [omap list_omap].
  unfold rowEvent at 1. destruct (row_payload row) as [payload|]; [|done].
  by destruct (deserialize payload).
Qed.

Lemma physicalQueries_escaped (rows : list Row) :
  physicalQueries (escaped (Msg:=Msg) rows) = [].
Proof. unfold escaped. by destruct (thrown rows). Qed.

Lemma physicalQueries_streams (queries : list Query) :
  physicalQueries (Msg:=Msg)
    (map (λ q, EvStream (selectOf q) (q_params q) streaming) queries)
  = map (λ q, (selectOf q, q_params q)) queries.
Proof. induction queries as [|q queries IH]; [done|]. simpl. by f_equal. Qed.

(** The queries [fetchRange] sends when the bucket manager finds buckets. *)
Lemma fetchRange_physicalQueries streamId partition fromTimestamp fromSequenceNo
    toTimestamp toSequenceNo publisherId msgChainId w buckets :
  bm_range (bucketManager w) streamId partition fromTimestamp toTimestamp
    = inr buckets →
  buckets ≠ [] →
  physicalQueries
    (issued w (fetchRange streamId partition fromTimestamp fromSequenceNo
                 toTimestamp toSequenceNo publisherId msgChainId w).2)
  = map (λ q, (selectOf q, q_params q))
      (map (addFilters publisherId msgChainId)
         (rangeQueries streamId partition fromTimestamp fromSequenceNo
            toTimestamp toSequenceNo (bucketsToIds buckets))).
Proof.
  intros Hrange Hne. unfold fetchRange. run.
  rewrite Hrange. rewrite bool_decide_eq_false_2 by (by destruct buckets).
  run. rewrite openStreams_run. run.
  rewrite pipeline_run by done. run. cbn [rs_info]. rewrite issued_emitted.
  rewrite !physicalQueries_app, physicalQueries_streams.
  by rewrite physicalQueries_rows, physicalQueries_escaped, !app_nil_r.
Qed.

(** ** Operations that only log *)

#[local] Abbreviation log_only := (log_only (Msg:=Msg)).

Lemma log_only_world {A} (m : M (Msg:=Msg) A) w :
  log_only m → (m w).2 = emitted (issued w (m w).2) w.
Proof. intros Hm. specialize (Hm w []). rewrite emitted_nil in Hm. by rewrite Hm at 1. Qed.

Lemma log_only_ret {A} (a : A) : log_only (mret a).
Proof. intros w t. rewrite !mret_run. cbn. unfold issued. by rewrite drop_all, app_nil_r. Qed.

Lemma log_only_bind {A B} (m : M (Msg:=Msg) A) (k : A → M B) :
  log_only m → (∀ a, log_only (k a)) → log_only (m ≫= k).
Proof.
  intros Hm Hk w t. rewrite !mbind_run, Hm. cbn [fst snd]. rewrite Hk.
  pose proof (log_only_world m w Hm) as Hw.
  remember (issued w (m w).2) as tm eqn:Htm. rewrite Hw, (Hk _ w tm).
  cbn [fst snd]. by rewrite issued_emitted, app_assoc.
Qed.

Lemma log_only_event e : log_only (event e).
Proof. intros w t. rewrite !event_run. cbn [fst snd]. by rewrite issued_emitted, emitted_emitted. Qed.

Lemma log_only_gets {A} (f : World (Msg:=Msg) → A) :
  (∀ w t, f (emitted t w) = f w) → log_only (gets f).
Proof.
  intros Hf w t. unfold gets. cbn [fst snd]. rewrite Hf. unfold issued.
  by rewrite drop_all, app_nil_r.
Qed.

Create HintDb logonly.

#[local] Hint Resolve log_only_ret log_only_event : logonly.
#[local] Hint Extern 1 (log_only (gets _)) =>
  apply log_only_gets; reflexivity : logonly.

Ltac log_only_step :=
  lazymatch goal with
  | |- log_only (_ ≫= _) => apply log_only_bind; [|intros]
  | |- log_only (match ?x with _ => _ end) => destruct x
  | |- log_only (let _ := _ in _) => cbv zeta
  | |- _ => solve [auto with logonly]
  end.

Ltac log_only := repeat log_only_step.

Lemma log_only_execute q ps o : log_only (execute q ps o).
Proof. unfold execute. log_only. Qed.

Lemma log_only_eachRow q ps o : log_only (eachRow q ps o).
Proof. unfold eachRow. log_only. Qed.

Lemma log_only_stream q ps o : log_only (stream q ps o).
Proof. unfold stream. log_only. Qed.

Lemma log_only_getBucketsByTimestamp s p fromTs toTs :
  log_only (getBucketsByTimestamp s p fromTs toTs).
Proof. unfold getBucketsByTimestamp. log_only. Qed.

Lemma log_only_logger_trace text info : log_only (logger_trace text info).
Proof. apply log_only_event. Qed.

Lemma log_only_nextPage : log_only nextPage.
Proof. apply log_only_event. Qed.

Lemma log_only_parseRow row info : log_only (parseRow row info).
Proof.
  unfold parseRow, logger_error, emit. log_only.
Qed.

#[local] Hint Resolve log_only_execute log_only_eachRow log_only_stream
  log_only_getBucketsByTimestamp log_only_logger_trace log_only_nextPage
  log_only_parseRow : logonly.

Lemma log_only_write row rs : log_only (write row rs).
Proof. unfold write, transform. log_only. Qed.

#[local] Hint Resolve log_only_write : logonly.

Lemma log_only_writeRows rows rs : log_only (writeRows rows rs).
Proof. revert rs. induction rows; intros rs; cbn [writeRows]; log_only. Qed.

#[local] Hint Resolve log_only_writeRows : logonly.

Lemma log_only_pipeline streams rs : log_only (pipeline streams rs).
Proof.
  revert rs. induction streams; intros rs; cbn [pipeline];
    unfold uncaughtException; log_only.
Qed.

Lemma log_only_openStreams queries : log_only (openStreams queries).
Proof.
  induction queries; cbn [openStreams]; unfold queryWithStreamingResults; log_only.
Qed.

#[local] Hint Resolve log_only_pipeline log_only_openStreams : logonly.

Lemma log_only_fetchRange s p fromTs fromSeq toTs toSeq pub chain :
  log_only (fetchRange s p fromTs fromSeq toTs toSeq pub chain).
Proof. unfold fetchRange. log_only. Qed.

#[local] Hint Resolve log_only_fetchRange : logonly.

Lemma log_only_requestFrom s p fromTs fromSeq pub :
  log_only (requestFrom s p fromTs fromSeq pub).
Proof. unfold requestFrom. log_only. Qed.

Lemma log_only_requestRange s p fromTs fromSeq toTs toSeq pub chain :
  log_only (requestRange s p fromTs fromSeq toTs toSeq pub chain).
Proof. unfold requestRange. log_only. Qed.

Lemma log_only_makeLastQuery s p limit ids rs :
  log_only (makeLastQuery s p limit ids rs).
Proof. unfold makeLastQuery. log_only. Qed.

#[local] Hint Resolve log_only_makeLastQuery : logonly.

Lemma log_only_pageCallback s p limit hasNext rows sc rs :
  log_only (pageCallback s p limit hasNext rows sc rs).
Proof. unfold pageCallback. log_only. Qed.

#[local] Hint Resolve log_only_pageCallback : logonly.

Lemma log_only_lastPages s p limit pages sc rs :
  log_only (lastPages s p limit pages sc rs).
Proof. revert sc. induction pages; intros sc; cbn [lastPages]; log_only. Qed.

#[local] Hint Resolve log_only_lastPages : logonly.

Lemma log_only_requestLast s p limit : log_only (requestLast s p limit).
Proof. unfold requestLast. log_only. Qed.

Lemma log_only_timestampInStream bucketQuery query s p :
  log_only (timestampInStream bucketQuery query s p).
Proof. unfold timestampInStream. log_only. Qed.

Lemma log_only_getNumberOfMessagesInStream s p :
  log_only (getNumberOfMessagesInStream s p).
Proof. unfold getNumberOfMessagesInStream. log_only. Qed.

Lemma log_only_getTotalBytesInStream s p : log_only (getTotalBytesInStream s p).
Proof. unfold getTotalBytesInStream. log_only. Qed.

(** ** requestRange, requestFrom and the query plan *)

Lemma exactlyOne_invalid (publisherId msgChainId : option string) :
  exactlyOne publisherId msgChainId ↔
  negb ((bool_decide (publisherId ≠ None) && bool_decide (msgChainId ≠ None))
        || (bool_decide (publisherId = None) && bool_decide (msgChainId = None)))
  = true.
Proof.
  unfold exactlyOne.
  destruct publisherId, msgChainId; simpl; split; intros H; try done;
    try (by destruct H as [[? ?]|[? ?]]); [right|left]; done.
Qed.

Lemma fetchRange_first_call s p fromTs fromSeq toTs toSeq pub chain w :
  ∃ t, issued w (fetchRange s p fromTs fromSeq toTs toSeq pub chain w).2
       = EvGetBucketsByTimestamp s p fromTs toTs :: t.
Proof.
  unfold fetchRange. run.
  destruct (bm_range (bucketManager w) s p fromTs toTs) as [err|buckets].
  - run. rewrite issued_emitted. eauto.
  - case_bool_decide.
    + run. rewrite issued_emitted. eauto.
    + run. rewrite openStreams_run. run. rewrite pipeline_run by done. run.
      rewrite issued_emitted. simpl. eauto.
Qed.

(** C2. [requestRange] throws the invalid-argument error exactly when one
    of [publisherId] and [msgChainId] is supplied and the other is not; it
    has then only written its trace log line, and no call has reached the
    backend. When both are supplied or both are absent it returns the
    stream of [fetchRange], whose first act is the bucket manager's lookup
    of the buckets of the range. *)
Theorem requestRange_validation (streamId : string)
    (partition fromTimestamp fromSequenceNo toTimestamp toSequenceNo : Z)
    (publisherId msgChainId : option string) w :
  let logged :=
    EvLog LTrace "requestRange %o"
      (Some (mkDebugInfo streamId (Some partition) None (Some fromTimestamp)
               (Some toTimestamp) (Some fromSequenceNo) (Some toSequenceNo)
               publisherId msgChainId)) in
  let r := requestRange streamId partition fromTimestamp fromSequenceNo
             toTimestamp toSequenceNo publisherId msgChainId w in
  let ranged := fetchRange streamId partition fromTimestamp fromSequenceNo
                  toTimestamp toSequenceNo publisherId msgChainId w in
  ((∃ err, r.1 = inl err) ↔ exactlyOne publisherId msgChainId)
  ∧ (exactlyOne publisherId msgChainId →
       r.1 = inl "Invalid combination of requestFrom arguments"
       ∧ r.2 = emitted [logged] w
       ∧ Forall (λ e, isBackendCall e = false) (issued w r.2))
  ∧ (¬ exactlyOne publisherId msgChainId →
       r.1 = inr ranged.1
       ∧ r.2 = emitted (logged :: issued w ranged.2) w
       ∧ ∃ t, issued w r.2
              = logged
                :: EvGetBucketsByTimestamp streamId partition fromTimestamp toTimestamp
                :: t).
Proof.
  intros logged r ranged.
  assert (Hinvalid : exactlyOne publisherId msgChainId →
            r = (inl "Invalid combination of requestFrom arguments",
                 emitted [logged] w)).
  { intros Hone. apply exactlyOne_invalid in Hone. subst r. unfold requestRange.
    run. by rewrite Hone. }
  assert (Hvalid : ¬ exactlyOne publisherId msgChainId →
            r = (inr ranged.1, emitted (logged :: issued w ranged.2) w)).
  { intros Hnot. rewrite exactlyOne_invalid in Hnot.
    apply not_true_is_false in Hnot. subst r ranged. unfold requestRange.
    run. rewrite Hnot. run.
    by rewrite (log_only_fetchRange _ _ _ _ _ _ _ _ w [logged]). }
  split; [|split].
  - split.
    + intros [err Herr]. destruct (decide (exactlyOne publisherId msgChainId))
        as [|Hnot]; [done|]. rewrite (Hvalid Hnot) in Herr. done.
    + intros Hone. rewrite (Hinvalid Hone). eauto.
  - intros Hone. rewrite (Hinvalid Hone). cbn [fst snd].
    rewrite issued_emitted. repeat split. by repeat constructor.
  - intros Hnot. rewrite (Hvalid Hnot). cbn [fst snd].
    rewrite issued_emitted. repeat split.
    destruct (fetchRange_first_call streamId partition fromTimestamp fromSequenceNo
                toTimestamp toSequenceNo publisherId msgChainId w) as [t Ht].
    exists t. subst ranged. by rewrite Ht.
Qed.

Lemma string_app_assoc (s1 s2 s3 : string) :
  (s1 +:+ s2) +:+ s3 = s1 +:+ s2 +:+ s3.
Proof.
  induction s1 as [|c s1 IH]; [done|].
  change (String c ((s1 +:+ s2) +:+ s3) = String c (s1 +:+ s2 +:+ s3)).
  by rewrite IH.
Qed.

Lemma selectOf_addFilters publisherId msgChainId (q : Query) :
  selectOf (addFilters publisherId msgChainId q)
  = "SELECT payload FROM stream_data " +:+ q_where q
    +:+ filterClause " AND publisher_id = ?" publisherId
    +:+ filterClause " AND msg_chain_id = ?" msgChainId
    +:+ " ALLOW FILTERING".
Proof.
  unfold selectOf, addFilters, addFilter, filterClause, present.
  destruct publisherId as [pub|], msgChainId as [chain|];
    repeat case_bool_decide; cbn [negb q_where];
    by rewrite ?string_app_assoc.
Qed.

Lemma params_addFilters publisherId msgChainId (q : Query) :
  q_params (addFilters publisherId msgChainId q)
  = q_params q ++ filterParam publisherId ++ filterParam msgChainId.
Proof.
  unfold addFilters, addFilter, filterParam, present.
  destruct publisherId as [pub|], msgChainId as [chain|];
    repeat case_bool_decide; cbn [negb q_params];
    by rewrite <- ?app_assoc, ?app_nil_r.
Qed.

(** C3. When the bucket manager finds buckets for the range, [fetchRange]
    sends one query, [ts >= fromTimestamp AND ts <= toTimestamp] over the
    bucket ids, if [fromSequenceNo] is 0 and [toSequenceNo] is 2147483647;
    otherwise it sends three: [ts = fromTimestamp AND sequence_no >=
    fromSequenceNo], then [ts > fromTimestamp AND ts < toTimestamp], then
    [ts = toTimestamp AND sequence_no <= toSequenceNo]. Each query carries
    the publisher and the message-chain filter when that value is present. *)
Theorem fetchRange_query_plan (streamId : string)
    (partition fromTimestamp fromSequenceNo toTimestamp toSequenceNo : Z)
    (publisherId msgChainId : option string) w (buckets : list Bucket) :
  bm_range (bucketManager w) streamId partition fromTimestamp toTimestamp
    = inr buckets →
  buckets ≠ [] →
  let ids := bucketsToIds buckets in
  let filters :=
    filterClause " AND publisher_id = ?" publisherId
    +:+ filterClause " AND msg_chain_id = ?" msgChainId
    +:+ " ALLOW FILTERING" in
  let filterParams := filterParam publisherId ++ filterParam msgChainId in
  let sent :=
    physicalQueries
      (issued w (fetchRange streamId partition fromTimestamp fromSequenceNo
                   toTimestamp toSequenceNo publisherId msgChainId w).2) in
  (fromSequenceNo = 0 ∧ toSequenceNo = 2147483647 →
     sent =
     [ ("SELECT payload FROM stream_data WHERE stream_id = ? AND partition = ? AND bucket_id IN ? AND ts >= ? AND ts <= ?"
          +:+ filters,
        [PString streamId; PNumber partition; PBucketIds ids;
         PNumber fromTimestamp; PNumber toTimestamp] ++ filterParams) ])
  ∧ (¬ (fromSequenceNo = 0 ∧ toSequenceNo = 2147483647) →
     sent =
     [ ("SELECT payload FROM stream_data WHERE stream_id = ? AND partition = ? AND bucket_id IN ? AND ts = ? AND sequence_no >= ?"
          +:+ filters,
        [PString streamId; PNumber partition; PBucketIds ids;
         PNumber fromTimestamp; PNumber fromSequenceNo] ++ filterParams);
       ("SELECT payload FROM stream_data WHERE stream_id = ? AND partition = ? AND bucket_id IN ? AND ts > ? AND ts < ?"
          +:+ filters,
        [PString streamId; PNumber partition; PBucketIds ids;
         PNumber fromTimestamp; PNumber toTimestamp] ++ filterParams);
       ("SELECT payload FROM stream_data WHERE stream_id = ? AND partition = ? AND bucket_id IN ? AND ts = ? AND sequence_no <= ?"
          +:+ filters,
        [PString streamId; PNumber partition; PBucketIds ids;
         PNumber toTimestamp; PNumber toSequenceNo] ++ filterParams) ]).
Proof.
  intros Hrange Hne ids filters filterParams sent. subst sent.
  rewrite (fetchRange_physicalQueries _ _ _ _ _ _ _ _ _ _ Hrange Hne).
  rewrite map_map. unfold rangeQueries, MIN_SEQUENCE_NUMBER_VALUE,
    MAX_SEQUENCE_NUMBER_VALUE.
  split.
  - intros [-> ->]. rewrite !bool_decide_eq_true_2 by done.
    cbn [andb map]. by rewrite selectOf_addFilters, params_addFilters.
  - intros Hnot.
    assert (bool_decide (fromSequenceNo = 0) && bool_decide (toSequenceNo = 2147483647)
            = false) as ->.
    { apply andb_false_iff. destruct (decide (fromSequenceNo = 0)) as [->|];
        [right|left]; apply bool_decide_eq_false_2; naive_solver. }
    cbn [map]. by rewrite !selectOf_addFilters, !params_addFilters.
Qed.

(** C7. [requestFrom] is [fetchRange] with [toTimestamp] 8640000000000000
    and [toSequenceNo] 2147483647 (and no [msgChainId]): it returns the same
    stream and has the same exchange with the bucket manager and the
    driver, after its own trace log line. *)
Theorem requestFrom_is_fetchRange (streamId : string)
    (partition fromTimestamp fromSequenceNo : Z) (publisherId : option string) w :
  let from := requestFrom streamId partition fromTimestamp fromSequenceNo
                publisherId w in
  let ranged := fetchRange streamId partition fromTimestamp fromSequenceNo
                  8640000000000000 2147483647 publisherId None w in
  from.1 = ranged.1
  ∧ from.2
    = emitted
        (EvLog LTrace "requestFrom %o"
           (Some (mkDebugInfo streamId (Some partition) None (Some fromTimestamp)
                    None (Some fromSequenceNo) None publisherId None))
         :: issued w ranged.2) w
  ∧ filter (λ e, isBackendCall e = true) (issued w from.2)
    = filter (λ e, isBackendCall e = true) (issued w ranged.2).
Proof.
  intros from ranged. subst from ranged. unfold requestFrom. run.
  change MAX_TIMESTAMP_VALUE with 8640000000000000.
  change MAX_SEQUENCE_NUMBER_VALUE with 2147483647.
  rewrite (log_only_fetchRange _ _ _ _ _ _ _ _ w [_]). cbn [fst snd].
  rewrite issued_emitted. split; [done|]. split; [done|].
  cbn [app]. by rewrite filter_cons_False by (by cbn).
Qed.

(** C10. [requestFrom] has no check of the [publisherId] / [msgChainId]
    combination: called with a [publisherId] (and never a [msgChainId]) it
    goes on to the bucket manager and, when buckets are found, sends the
    range queries with the publisher filter alone; [requestRange] with the
    same [publisherId] and no [msgChainId] throws before any call. *)
Theorem requestFrom_no_validation (streamId : string)
    (partition fromTimestamp fromSequenceNo : Z) (publisherId : string) w :
  let from := requestFrom streamId partition fromTimestamp fromSequenceNo
                (Some publisherId) w in
  let ranged := requestRange streamId partition fromTimestamp fromSequenceNo
                  MAX_TIMESTAMP_VALUE MAX_SEQUENCE_NUMBER_VALUE
                  (Some publisherId) None w in
  (∃ t, filter (λ e, isBackendCall e = true) (issued w from.2)
        = EvGetBucketsByTimestamp streamId partition fromTimestamp
            MAX_TIMESTAMP_VALUE :: t)
  ∧ (∀ buckets,
       bm_range (bucketManager w) streamId partition fromTimestamp
         MAX_TIMESTAMP_VALUE = inr buckets →
       buckets ≠ [] →
       publisherId ≠ "" →
       physicalQueries (issued w from.2)
       = map (λ q, ("SELECT payload FROM stream_data " +:+ q_where q
                      +:+ " AND publisher_id = ?" +:+ " ALLOW FILTERING",
                    q_params q ++ [PString publisherId]))
             (rangeQueries streamId partition fromTimestamp fromSequenceNo
                MAX_TIMESTAMP_VALUE MAX_SEQUENCE_NUMBER_VALUE
                (bucketsToIds buckets)))
  ∧ ranged.1 = inl "Invalid combination of requestFrom arguments"
  ∧ Forall (λ e, isBackendCall e = false) (issued w ranged.2).
Proof.
  intros from ranged.
  assert (Hfrom : from.2
            = emitted
                (EvLog LTrace "requestFrom %o"
                   (Some (mkDebugInfo streamId (Some partition) None
                            (Some fromTimestamp) None (Some fromSequenceNo) None
                            (Some publisherId) None))
                 :: issued w (fetchRange streamId partition fromTimestamp
                                fromSequenceNo MAX_TIMESTAMP_VALUE
                                MAX_SEQUENCE_NUMBER_VALUE (Some publisherId) None w).2)
                w).
  { subst from. unfold requestFrom. run.
    by rewrite (log_only_fetchRange _ _ _ _ _ _ _ _ w [_]). }
  split; [|split; [|split]].
  - rewrite Hfrom, issued_emitted.
    destruct (fetchRange_first_call streamId partition fromTimestamp fromSequenceNo
                MAX_TIMESTAMP_VALUE MAX_SEQUENCE_NUMBER_VALUE (Some publisherId)
                None w) as [t Ht].
    rewrite Ht. rewrite filter_cons_False by (by cbn).
    rewrite filter_cons_True by (by cbn). eauto.
  - intros buckets Hrange Hne Hpub. rewrite Hfrom, issued_emitted.
    change (?e :: ?l) with ([e] ++ l). rewrite physicalQueries_app.
    rewrite (fetchRange_physicalQueries _ _ _ _ _ _ _ _ _ _ Hrange Hne).
    cbn [physicalQueries omap physicalQuery app]. rewrite map_map.
    apply map_ext. intros q. rewrite selectOf_addFilters, params_addFilters.
    unfold filterClause, filterParam, present.
    rewrite bool_decide_eq_false_2 by done. cbn [negb].
    by rewrite app_nil_r.
  - subst ranged. unfold requestRange. by run.
  - subst ranged. unfold requestRange. run. cbn. rewrite issued_emitted.
    by repeat constructor.
Qed.

(** ** Rows with a null payload *)

Lemma decoded_rev (rows : list Row) :
  decoded (Msg:=Msg) (rev rows) = rev (decoded rows).
Proof.
  induction rows as [|row rows IH]; [done|].
  cbn [rev]. rewrite decoded_app, IH.
  change (decoded (row :: rows)) with (decoded ([row] ++ rows)).
  rewrite decoded_app, rev_app_distr. f_equal.
  unfold decoded. simpl. by destruct (rowMessage row).
Qed.

(** The rows with a payload and their messages, when all deserialise. *)
Lemma decoded_Forall2 (rows : list Row) :
  thrown (codec:=codec) rows = None →
  Forall2 (λ row m, ∃ payload, row_payload row = Some payload
                               ∧ deserialize payload = inr m)
          (filter (λ row, hasPayload row = true) rows) (decoded rows).
Proof.
  induction rows as [|row rows IH]; [constructor|].
  cbn [thrown]. unfold rowError, decoded. cbn [omap list_omap].
  unfold rowMessage at 1, hasPayload at 1.
  destruct (row_payload row) as [payload|] eqn:Hrow.
  - destruct (deserialize payload) as [err|m] eqn:Hpayload; [done|].
    intros Hrest. rewrite filter_cons_True by (unfold hasPayload; by rewrite Hrow).
    constructor; [by exists payload|by apply IH].
  - intros Hrest. rewrite filter_cons_False by (unfold hasPayload; by rewrite Hrow).
    by apply IH.
Qed.

(** A row with a null payload adds nothing to what is forwarded and
    throws nothing. *)
Lemma forwarded_null (before after : list Row) (row : Row) :
  row_payload row = None →
  forwarded (Msg:=Msg) (before ++ row :: after) = forwarded (before ++ after)
  ∧ thrown (before ++ row :: after) = thrown (before ++ after).
Proof.
  intros Hnull. rewrite !forwarded_app, !thrown_app.
  assert (Herror : rowError row = None) by (unfold rowError; by rewrite Hnull).
  assert (Hmessage : rowMessage row = None) by (unfold rowMessage; by rewrite Hnull).
  unfold forwarded. cbn [readable thrown]. rewrite Herror.
  unfold decoded. cbn [omap list_omap]. by rewrite Hmessage.
Qed.

(** What is forwarded of rows the first undecodable of which is [row]. *)
Lemma forwarded_split (before after : list Row) (row : Row) (err : Error) :
  thrown (codec:=codec) before = None → rowError row = Some err →
  forwarded (before ++ row :: after) = decoded before
  ∧ thrown (before ++ row :: after) = Some err.
Proof.
  intros Hbefore Hrow. rewrite forwarded_app, thrown_app, Hbefore.
  unfold forwarded at 2. cbn [readable thrown]. rewrite Hrow.
  unfold decoded at 2. cbn [omap list_omap]. rewrite app_nil_r.
  split; [by apply forwarded_all|done].
Qed.

Lemma readNotifications_rows info (rows : list Row) :
  readNotifications (rowEvents info rows) = forwarded rows.
Proof.
  unfold readNotifications, rowEvents, forwarded, decoded.
  induction (readable rows) as [|row l IH]; [done|].
  cbn [omap list_omap]. unfold rowEvent at 1, rowMessage at 1.
  destruct (row_payload row) as [payload|]; [|done].
  destruct (deserialize payload); [done|]. cbn. by rewrite IH.
Qed.

Lemma readNotifications_escaped (rows : list Row) :
  readNotifications (escaped (Msg:=Msg) rows) = [].
Proof. unfold escaped. by destruct (thrown rows). Qed.

Lemma errorLogs_rows info (rows : list Row) :
  length (filter (λ e, isErrorLog e = true) (rowEvents (Msg:=Msg) info rows))
  = length (filter (λ row, hasPayload row = false) (readable rows)).
Proof.
  unfold rowEvents.
  induction (readable rows) as [|row l IH]; [done|].
  cbn [omap list_omap]. unfold rowEvent at 1.
  destruct (row_payload row) as [payload|] eqn:Hrow.
  - rewrite (filter_cons_False _ row) by (unfold hasPayload; by rewrite Hrow).
    destruct (deserialize payload); [done|].
    by rewrite filter_cons_False.
  - rewrite filter_cons_True by done.
    rewrite (filter_cons_True _ row) by (unfold hasPayload; by rewrite Hrow).
    simpl. by rewrite IH.
Qed.

Lemma makeLastQuery_run streamId partition limit bucketIds rs w :
  rs_status rs = Open →
  makeLastQuery streamId partition limit bucketIds rs w
  = let sent :=
      EvExecute GET_LAST_N_MESSAGES
        [PString streamId; PNumber partition; PBucketIds bucketIds; PNumber limit]
        noPaging in
    match client_execute (cassandraClient w) GET_LAST_N_MESSAGES
            [PString streamId; PNumber partition; PBucketIds bucketIds; PNumber limit]
            noPaging with
    | inr rows =>
        (mkResultStream (rs_info rs) (rs_pushed rs ++ forwarded (rev rows))
           (match thrown (rev rows) with
            | Some err => Destroyed (Some err)
            | None => Ended
            end),
         emitted (sent :: rowEvents (rs_info rs) (rev rows)) w)
    | inl err =>
        (mkResultStream (rs_info rs) (rs_pushed rs) (Destroyed (Some err)),
         emitted [sent] w)
    end.
Proof.
  intros Hopen. unfold makeLastQuery. run.
  destruct (client_execute _ _ _ _) as [err|rows]; run.
  - unfold destroy. by rewrite Hopen.
  - rewrite writeRows_open by done. cbn [fst snd].
    destruct (thrown (rev rows)); by run.
Qed.


(** ** requestLast *)

Lemma lastOutcome_later s p limit w pushed t1 t2 :
  lastOutcome s p limit (emitted t1 w) pushed t2 →
  lastOutcome s p limit w pushed (t1 ++ t2).
Proof.
  intros [->|(ids & rows & Hrows & -> & Hlast)]; [by left|right].
  exists ids, rows. split; [done|]. split; [done|].
  by rewrite physicalQueries_app, last_app, Hlast.
Qed.

Lemma makeLastQuery_outcome s p limit ids rs w :
  rs_status rs = Open → rs_pushed rs = [] →
  let r := makeLastQuery s p limit ids rs w in
  ∃ t, r.2 = emitted t w ∧ lastOutcome s p limit w (rs_pushed r.1) t.
Proof.
  intros Hopen Hnil r. subst r. rewrite makeLastQuery_run by done. cbv zeta.
  destruct (client_execute _ _ _ _) as [err|rows] eqn:Hrows; cbn [fst snd rs_pushed].
  - eexists. split; [done|]. by left.
  - eexists. split; [done|]. right. exists ids, rows. rewrite Hnil.
    split; [done|]. split; [done|].
    change (?e :: ?l) with ([e] ++ l).
    by rewrite physicalQueries_app, physicalQueries_rows.
Qed.

Lemma pageCallback_outcome s p limit hasNext rows sc rs w :
  rs_status rs = Open → rs_pushed rs = [] →
  let r := pageCallback s p limit hasNext rows sc rs w in
  ∃ t, r.2 = emitted t w
       ∧ match r.1 with
         | inl rs1 => lastOutcome s p limit w (rs_pushed rs1) t
         | inr _ => True
         end.
Proof.
  intros Hopen Hnil r. subst r. unfold pageCallback. cbv zeta.
  unfold ended. rewrite Hopen.
  destruct (scan_bucketId (foldl rowCallback sc rows)) as [bucketId|].
  2:{ exists []. run. rewrite emitted_nil. split; [done|]. left.
      unfold stream_end. rewrite Hopen. done. }
  run. destruct (client_execute _ _ _ _) as [err|counted].
  { run. eexists. split; [done|]. left. unfold destroy. by rewrite Hopen. }
  destruct (head counted) as [row|].
  2:{ run. eexists. split; [done|]. left. unfold destroy. by rewrite Hopen. }
  destruct (_ && _ && _).
  { run. eexists. by split. }
  run.
  destruct (makeLastQuery_outcome s p limit
              (scan_bucketIds (foldl rowCallback sc rows)) rs
              (emitted [EvExecute COUNT_MESSAGES
                          [PString s; PNumber p; PBucketId bucketId] noPaging] w)
              Hopen Hnil) as (t & Hw & Hout).
  cbv zeta in Hw, Hout. rewrite Hw. run. eexists. split; [done|].
  by apply lastOutcome_later.
Qed.

Lemma lastPages_outcome s p limit pages sc rs w :
  rs_status rs = Open → rs_pushed rs = [] →
  let r := lastPages s p limit pages sc rs w in
  ∃ t, r.2 = emitted t w ∧ lastOutcome s p limit w (rs_pushed r.1) t.
Proof.
  intros Hopen Hnil. revert sc w.
  induction pages as [rows|rows next IH|err]; intros sc w r; subst r;
    cbn [lastPages].
  - run.
    destruct (pageCallback_outcome s p limit false rows sc rs w Hopen Hnil)
      as (t & Hw & Hout). cbv zeta in Hw, Hout.
    exists t. split; [done|].
    destruct (pageCallback s p limit false rows sc rs w).1; [done|by left].
  - run.
    destruct (pageCallback_outcome s p limit true rows sc rs w Hopen Hnil)
      as (t & Hw & Hout). cbv zeta in Hw, Hout.
    destruct (pageCallback s p limit true rows sc rs w).1 as [rs1|sc1].
    + run. by exists t.
    + rewrite Hw. destruct (IH sc1 (emitted t w)) as (t1 & Hw1 & Hout1).
      rewrite Hw1. run. eexists. split; [done|]. by apply lastOutcome_later.
  - run. exists []. rewrite emitted_nil. split; [done|]. left.
    unfold ended, destroy. by rewrite Hopen.
Qed.

Lemma clamp_min (limit : Z) :
  (if bool_decide (limit > MAX_RESEND_LAST) then MAX_RESEND_LAST else limit)
  = Z.min limit 10000.
Proof. unfold MAX_RESEND_LAST. case_bool_decide; lia. Qed.

Lemma decoded_length (rows : list Row) :
  (length (decoded (Msg:=Msg) rows) ≤ length rows)%nat.
Proof.
  induction rows as [|row rows IH]; [done|].
  change (decoded (row :: rows)) with (decoded ([row] ++ rows)).
  rewrite decoded_app, length_app.
  assert (length (decoded (Msg:=Msg) [row]) ≤ 1)%nat.
  { unfold decoded. simpl. destruct (rowMessage row); simpl; lia. }
  change (length (row :: rows)) with (S (length rows)). lia.
Qed.

(** What is forwarded is the first messages of the rows. *)
Lemma forwarded_prefix (rows : list Row) :
  ∃ rest, decoded (Msg:=Msg) rows = forwarded rows ++ rest.
Proof.
  destruct (readable_prefix rows) as [rest Hrows].
  exists (decoded rest). unfold forwarded. by rewrite <- decoded_app, <- Hrows.
Qed.

Lemma forwarded_length (rows : list Row) :
  (length (forwarded (Msg:=Msg) rows) ≤ length rows)%nat.
Proof.
  destruct (forwarded_prefix rows) as [rest Hrows].
  pose proof (decoded_length rows) as Hlen.
  rewrite Hrows, length_app in Hlen. lia.
Qed.

Lemma newestFirst_rev (l : list Msg) : newestFirst l → oldestFirst (rev l).
Proof.
  unfold newestFirst, oldestFirst. induction 1 as [|m l Hl IH Hm]; simpl.
  - constructor.
  - apply StronglySorted_app_2; [|done|repeat constructor].
    intros m1 m2 Hm1 Hm2. apply list_elem_of_singleton in Hm2 as ->.
    apply list_elem_of_In, in_rev in Hm1.
    rewrite Forall_forall in Hm. by apply Hm, list_elem_of_In.
Qed.

(** C1. [requestLast] pushes at most min(limit, 10000) messages, oldest
    first, whenever the backend honours the [LIMIT] and the [ORDER BY ts
    DESC, sequence_no DESC] of the final query: what it pushed is nothing,
    or the rows that query returned for the clamped limit, reversed. *)
Theorem requestLast_bounded_oldest_first (streamId : string) (partition limit : Z) w :
  (∀ bucketIds rows,
     client_execute (cassandraClient w) GET_LAST_N_MESSAGES
       [PString streamId; PNumber partition; PBucketIds bucketIds;
        PNumber (Z.min limit 10000)] noPaging = inr rows →
     (length rows ≤ Z.to_nat (Z.min limit 10000))%nat ∧ newestFirst (decoded rows)) →
  let r := requestLast streamId partition limit w in
  (length (rs_pushed r.1) ≤ Z.to_nat (Z.min limit 10000))%nat
  ∧ oldestFirst (rs_pushed r.1)
  ∧ lastOutcome streamId partition (Z.min limit 10000) w (rs_pushed r.1)
      (issued w r.2).
Proof.
  intros Hbackend r. subst r. unfold requestLast. cbv zeta. rewrite clamp_min. run.
  set (info := mkDebugInfo _ _ _ _ _ _ _ _ _).
  set (w1 := emitted _ w).
  destruct (lastPages_outcome streamId partition (Z.min limit 10000)
              (client_eachRow (cassandraClient w) GET_BUCKETS
                 [PString streamId; PNumber partition] (mkOptions true (Some 1) None))
              (mkLastScan None [] 0) (createResultStream info) w1)
    as (t & Hw & Hout); [done..|].
  cbv zeta in Hw, Hout. rewrite Hw. subst w1. run. rewrite issued_emitted.
  apply lastOutcome_later in Hout.
  assert (Hpushed : ∀ pushed t1,
            lastOutcome streamId partition (Z.min limit 10000) w pushed t1 →
            (length pushed ≤ Z.to_nat (Z.min limit 10000))%nat ∧ oldestFirst pushed).
  { intros pushed t1 [->|(ids & rows & Hrows & -> & _)].
    - split; [simpl; lia|constructor].
    - destruct (Hbackend ids rows Hrows) as [Hlen Hsorted]. split.
      + pose proof (forwarded_length (rev rows)) as Hpushed.
        rewrite length_rev in Hpushed. lia.
      + destruct (forwarded_prefix (rev rows)) as [rest Hrest].
        apply newestFirst_rev in Hsorted. rewrite <- decoded_rev, Hrest in Hsorted.
        unfold oldestFirst in *. by apply StronglySorted_app_1_l in Hsorted. }
  destruct (Hpushed _ _ Hout) as [Hlen Hsorted]. done.
Qed.

Lemma Long_low_small (n : Long) : 0 ≤ n < 2147483648 → Long_low n = n.
Proof.
  intros Hn. unfold Long_low, wrap32.
  rewrite Z.mod_small by lia. lia.
Qed.

Lemma backendCalls_rows info (rows : list Row) :
  filter (λ e, isBackendCall e = true) (rowEvents (Msg:=Msg) info rows) = [].
Proof.
  unfold rowEvents. induction (readable rows) as [|row l IH]; [done|].
  cbn [omap list_omap]. unfold rowEvent at 1.
  destruct (row_payload row) as [payload|].
  - destruct (deserialize payload); [done|]. by rewrite filter_cons_False.
  - by rewrite filter_cons_False.
Qed.

Lemma backendCalls_makeLastQuery s p limit ids rs w :
  rs_status rs = Open →
  filter (λ e, isBackendCall e = true)
    (issued w (makeLastQuery s p limit ids rs w).2)
  = [EvExecute GET_LAST_N_MESSAGES
       [PString s; PNumber p; PBucketIds ids; PNumber limit] noPaging].
Proof.
  intros Hopen. rewrite makeLastQuery_run by done. cbv zeta.
  destruct (client_execute _ _ _ _) as [err|rows]; cbn [snd];
    rewrite issued_emitted, filter_cons_True by done; [done|].
  by rewrite backendCalls_rows.
Qed.

(** ** The scan of the buckets *)

Lemma foldl_rowCallback (rows : list Row) (sc : LastScan) :
  scan_bucketId sc = last (scan_bucketIds sc) →
  foldl rowCallback sc rows
  = mkLastScan (last (scan_bucketIds sc ++ map row_id rows))
               (scan_bucketIds sc ++ map row_id rows) (scan_total sc).
Proof.
  revert sc. induction rows as [|row rows IH]; intros sc Hsc.
  - cbn. rewrite app_nil_r, <- Hsc. by destruct sc.
  - cbn [foldl]. rewrite IH.
    + cbn [rowCallback scan_bucketIds scan_total map]. by rewrite <- !app_assoc.
    + cbn [rowCallback scan_bucketId scan_bucketIds]. by rewrite last_snoc.
Qed.

Lemma listedIds_cons (page : list Row) (pages : list (list Row)) :
  listedIds (page :: pages) = map row_id page ++ listedIds pages.
Proof. unfold listedIds. cbn [concat]. by rewrite map_app. Qed.

Lemma backendCalls_pageCalls s p (listed : list BucketId) (pages : list (list Row)) :
  filter (λ e, isBackendCall e = true) (pageCalls (Msg:=Msg) s p listed pages)
  = pageCalls s p listed pages.
Proof.
  revert listed. induction pages as [|page rest IH]; intros listed; [done|].
  cbn [pageCalls]. rewrite filter_app. f_equal.
  - destruct (last _); [|done]. by rewrite filter_cons_True.
  - destruct rest as [|next rest]; [done|].
    rewrite filter_cons_True by done. by rewrite IH.
Qed.

(** The scan of [requestLast] over any listing: it stops after [k] pages
    and hands the ids listed so far to the final query. *)
Lemma lastPages_scan s p limit (count : BucketId → Z) (more : list (list Row)) :
  ∀ (first : list Row) sc rs w,
    rs_status rs = Open →
    scan_bucketId sc = last (scan_bucketIds sc) →
    scan_bucketIds sc ++ map row_id first ≠ [] →
    (∀ b, b ∈ scan_bucketIds sc ++ listedIds (first :: more) →
       client_execute (cassandraClient w) COUNT_MESSAGES
         [PString s; PNumber p; PBucketId b] noPaging = inr [totalRow (count b)]
       ∧ 0 ≤ count b < 2147483648) →
    ∃ k, (1 ≤ k ≤ S (length more))%nat
      ∧ lastPages s p limit (pagesFrom first more) sc rs w
        = makeLastQuery s p limit
            (scan_bucketIds sc ++ listedIds (take k (first :: more))) rs
            (emitted (pageCalls s p (scan_bucketIds sc) (take k (first :: more))) w)
      ∧ (∀ j, (1 ≤ j < k)%nat →
           let total :=
             scan_total sc
             + pageTotal count (scan_bucketIds sc) (take j (first :: more)) in
           total < limit ∧ total < MAX_RESEND_LAST)
      ∧ (let total :=
           scan_total sc
           + pageTotal count (scan_bucketIds sc) (take k (first :: more)) in
         k = S (length more) ∨ limit ≤ total ∨ MAX_RESEND_LAST ≤ total).
Proof.
  induction more as [|next more IH]; intros first sc rs w Hopen Hsc Hne Hcount.
  - exists 1%nat.
    destruct (last (scan_bucketIds sc ++ map row_id first)) as [b|] eqn:Hlast.
    2:{ apply last_None in Hlast. done. }
    destruct (Hcount b) as [Hb Hsmall].
    { rewrite listedIds_cons, app_assoc. apply elem_of_app. left.
      by apply last_Some_elem_of. }
    cbn [pagesFrom lastPages]. unfold pageCallback, ended. rewrite Hopen.
    rewrite foldl_rowCallback by done.
    cbn [scan_bucketId scan_bucketIds scan_total]. rewrite Hlast.
    run. rewrite Hb. cbn [head andb]. run. rewrite <- surjective_pairing.
    cbn [take pageCalls]. rewrite Hlast, listedIds_cons.
    unfold listedIds at 1. cbn [concat map]. rewrite !app_nil_r.
    split; [simpl; lia|]. split; [done|]. split; [lia|]. by left.
  - destruct (last (scan_bucketIds sc ++ map row_id first)) as [b|] eqn:Hlast.
    2:{ apply last_None in Hlast. done. }
    destruct (Hcount b) as [Hb Hsmall].
    { rewrite listedIds_cons, app_assoc. apply elem_of_app. left.
      by apply last_Some_elem_of. }
    set (total1 := scan_total sc + count b).
    assert (Hlow : Long_low (count b) = count b) by (by apply Long_low_small).
    cbn [pagesFrom lastPages]. unfold pageCallback, ended. rewrite Hopen.
    rewrite foldl_rowCallback by done.
    cbn [scan_bucketId scan_bucketIds scan_total]. rewrite Hlast.
    run. rewrite Hb. cbn [head row_total totalRow]. rewrite Hlow. fold total1.
    destruct (decide (total1 < limit ∧ total1 < MAX_RESEND_LAST))
      as [[Hlt1 Hlt2]|Hstop].
    + rewrite !bool_decide_eq_true_2 by done. cbn [andb]. run.
      set (sc1 := mkLastScan _ _ _).
      destruct (IH next sc1 rs
                  (emitted [EvExecute COUNT_MESSAGES
                              [PString s; PNumber p; PBucketId b] noPaging;
                            EvNextPage] w) Hopen)
        as (k & Hk & Hrun & Hbefore & Hat).
      { subst sc1. by cbn [scan_bucketId scan_bucketIds]. }
      { subst sc1. cbn [scan_bucketIds]. intros Hnil.
        apply app_eq_nil in Hnil as [Hnil _]. done. }
      { subst sc1. cbn [scan_bucketIds]. intros b1 Hb1.
        rewrite cassandraClient_emitted. apply Hcount.
        by rewrite listedIds_cons, app_assoc. }
      exists (S k). split; [simpl in *; lia|]. split; [|split].
      * cbn [app]. rewrite Hrun. subst sc1. cbn [scan_bucketIds take pageCalls].
        rewrite Hlast, listedIds_cons, <- !app_assoc.
        destruct k as [|k]; [lia|]. cbn [take]. run. cbn [app]. done.
      * intros j Hj. destruct j as [|j]; [lia|].
        cbn [take pageTotal]. rewrite Hlast.
        destruct j as [|j].
        { cbn [take pageTotal]. fold total1. lia. }
        specialize (Hbefore (S j) ltac:(lia)). cbv zeta in Hbefore.
        subst sc1. cbn [scan_total scan_bucketIds] in Hbefore. unfold total1 in *.
        lia.
      * cbv zeta in *. subst sc1. cbn [scan_total scan_bucketIds] in Hat.
        cbn [take pageTotal length]. rewrite Hlast. unfold total1 in *.
        destruct Hat as [Hat|[Hat|Hat]]; [left; lia|right; left; lia|right; right; lia].
    + assert (bool_decide (total1 < limit) && bool_decide (total1 < MAX_RESEND_LAST)
              = false) as Hcond.
      { apply andb_false_iff. destruct (decide (total1 < limit));
          [right|left]; apply bool_decide_eq_false_2; intuition. }
      cbn [andb]. rewrite Hcond. run. rewrite <- surjective_pairing.
      exists 1%nat. cbn [take pageCalls pageTotal]. rewrite Hlast, listedIds_cons.
      unfold listedIds at 1. cbn [concat map]. rewrite !app_nil_r.
      split; [simpl; lia|]. split; [done|]. split; [lia|].
      fold total1. rewrite Z.add_0_r. fold total1. right.
      destruct (decide (total1 < limit)); [right|left]; lia.
Qed.

(** With one bucket on every page, the buckets listed by the first pages
    are the first buckets, and each is counted once. *)
Lemma pageTotal_single (count : BucketId → Z) (pages : list (list Row))
    (listed : list BucketId) :
  Forall (λ page, length page = 1%nat) pages →
  pageTotal count listed pages = foldr (λ b acc, count b + acc) 0 (listedIds pages).
Proof.
  revert listed. induction pages as [|page rest IH]; intros listed Hsingle; [done|].
  apply Forall_cons in Hsingle as [Hpage Hrest].
  destruct page as [|row [|? ?]]; try done.
  cbn [pageTotal map]. rewrite last_snoc, listedIds_cons. cbn [map app foldr].
  by rewrite IH.
Qed.

Lemma listedIds_take_single (pages : list (list Row)) (j : nat) :
  Forall (λ page, length page = 1%nat) pages →
  listedIds (take j pages) = take j (listedIds pages).
Proof.
  revert j. induction pages as [|page rest IH]; intros j Hsingle.
  { by destruct j. }
  apply Forall_cons in Hsingle as [Hpage Hrest].
  destruct page as [|row [|? ?]]; try done.
  destruct j as [|j]; [done|].
  cbn [take]. rewrite !listedIds_cons. cbn [map app take]. by rewrite IH.
Qed.

(** X21. The scan of the buckets by [requestLast]. When the first page
    of the listing holds a bucket and the counts of the buckets listed
    succeed, below 2^31, [requestLast] asks for the listing and then, at the
    end of each of the first [k] pages, for the count of the bucket listed
    last so far, asking for the next page between two counts; it then sends
    one final query over exactly the bucket ids these [k] pages listed, with
    the clamped limit. It goes on to the next page while the counts add up to
    less than the clamped limit and less than 10000, and stops at the first
    page where they reach either, or where the listing ends. When every page
    holds one bucket, the buckets are those the listing gives first, each
    counted once: the running total is the sum of their record counts. *)
Theorem requestLast_page_scan (streamId : string) (partition limit : Z) w
    (first : list Row) (more : list (list Row)) (count : BucketId → Z) :
  first ≠ [] →
  client_eachRow (cassandraClient w) GET_BUCKETS
    [PString streamId; PNumber partition] (mkOptions true (Some 1) None)
    = pagesFrom first more →
  (∀ b, b ∈ listedIds (first :: more) →
     client_execute (cassandraClient w) COUNT_MESSAGES
       [PString streamId; PNumber partition; PBucketId b] noPaging
     = inr [totalRow (count b)]
     ∧ 0 ≤ count b < 2147483648) →
  let pages := first :: more in
  let clamped := Z.min limit 10000 in
  let total := λ j : nat, pageTotal count [] (take j pages) in
  (∃ k : nat,
     (1 ≤ k ≤ length pages)%nat
     ∧ filter (λ e, isBackendCall e = true)
         (issued w (requestLast streamId partition limit w).2)
       = EvEachRow GET_BUCKETS [PString streamId; PNumber partition]
           (mkOptions true (Some 1) None)
         :: pageCalls streamId partition [] (take k pages)
         ++ [EvExecute GET_LAST_N_MESSAGES
               [PString streamId; PNumber partition;
                PBucketIds (listedIds (take k pages)); PNumber clamped] noPaging]
     ∧ (∀ j : nat, (1 ≤ j < k)%nat → total j < clamped ∧ total j < 10000)
     ∧ (k = length pages ∨ clamped ≤ total k ∨ 10000 ≤ total k))
  ∧ (Forall (λ page, length page = 1%nat) pages →
     ∀ j : nat,
       listedIds (take j pages) = take j (listedIds pages)
       ∧ total j = foldr (λ b acc, count b + acc) 0 (take j (listedIds pages))).
Proof.
  intros Hne Hpages Hcount pages clamped total. subst pages. split.
  - unfold requestLast. cbv zeta. rewrite clamp_min. fold clamped. run.
    rewrite Hpages.
    set (info := mkDebugInfo _ _ _ _ _ _ _ _ _).
    set (w1 := emitted _ w).
    destruct (lastPages_scan streamId partition clamped count more first
                (mkLastScan None [] 0) (createResultStream info) w1 eq_refl eq_refl)
      as (k & Hk & Hrun & Hbefore & Hat).
    { cbn [scan_bucketIds app]. by destruct first. }
    { intros b Hb. by apply Hcount. }
    exists k. split; [done|]. split; [|split].
    + rewrite Hrun. cbn [scan_bucketIds app].
      pose proof (backendCalls_makeLastQuery streamId partition clamped
                    (listedIds (take k (first :: more))) (createResultStream info)
                    (emitted (pageCalls streamId partition []
                                (take k (first :: more))) w1)
                    eq_refl) as Hlast.
      rewrite makeLastQuery_run in * by done. cbv zeta in *.
      destruct (client_execute _ _ _ _) as [err|rows]; cbn [snd] in *;
        rewrite issued_emitted in Hlast; subst w1; run; rewrite issued_emitted;
        rewrite !filter_app, Hlast, backendCalls_pageCalls;
        by rewrite filter_cons_False, filter_cons_True by done.
    + intros j Hj. specialize (Hbefore j Hj). cbv zeta in Hbefore.
      cbn [scan_total scan_bucketIds] in Hbefore.
      unfold MAX_RESEND_LAST in Hbefore. subst total. cbv beta. lia.
    + cbv zeta in Hat. cbn [scan_total scan_bucketIds] in Hat.
      unfold MAX_RESEND_LAST in Hat. subst total. cbv beta. cbn [length].
      destruct Hat as [Hat|[Hat|Hat]]; [by left|right; left; lia|right; right; lia].
  - intros Hsingle j. split; [by apply listedIds_take_single|].
    subst total. cbv beta. rewrite pageTotal_single.
    + by rewrite listedIds_take_single.
    + apply Forall_take. done.
Qed.

(** ** Scalar summary queries *)

(** Without exactly one bucket row, or without exactly one data row in
    that bucket, the first and the last timestamp are 0. *)
Lemma timestampInStream_no_bucket bucketQuery query s p w buckets :
  client_execute (cassandraClient w) bucketQuery [PString s; PNumber p] prepared
    = inr buckets →
  length buckets ≠ 1%nat →
  (timestampInStream bucketQuery query s p w).1 = inr 0.
Proof.
  intros Hbuckets Hlen. unfold timestampInStream. run. rewrite Hbuckets.
  by destruct buckets as [|? [|? ?]].
Qed.

Lemma timestampInStream_no_row bucketQuery query s p w bucket rows :
  client_execute (cassandraClient w) bucketQuery [PString s; PNumber p] prepared
    = inr [bucket] →
  client_execute (cassandraClient w) query
    [PString s; PNumber p; PBucketId (row_id bucket)] prepared = inr rows →
  length rows ≠ 1%nat →
  (timestampInStream bucketQuery query s p w).1 = inr 0.
Proof.
  intros Hbucket Hrows Hlen. unfold timestampInStream. run. rewrite Hbucket.
  run. rewrite Hrows. by destruct rows as [|? [|? ?]].
Qed.

Lemma getNumberOfMessagesInStream_fallback s p w rows :
  client_execute (cassandraClient w) SUM_RECORDS [PString s; PNumber p] prepared
    = inr rows →
  length rows ≠ 1%nat →
  (getNumberOfMessagesInStream s p w).1 = inr 0.
Proof.
  intros Hrows Hlen. unfold getNumberOfMessagesInStream. run. rewrite Hrows.
  by destruct rows as [|? [|? ?]].
Qed.

Lemma getTotalBytesInStream_fallback s p w rows :
  client_execute (cassandraClient w) SUM_SIZE [PString s; PNumber p] prepared
    = inr rows →
  length rows ≠ 1%nat →
  (getTotalBytesInStream s p w).1 = inr 0.
Proof.
  intros Hrows Hlen. unfold getTotalBytesInStream. run. rewrite Hrows.
  by destruct rows as [|? [|? ?]].
Qed.

Lemma foldl_sizes (rows : list Row) (acc : Z) :
  foldl (λ count row, count + row_size row) acc rows
  = acc + foldr Z.add 0 (map row_size rows).
Proof.
  revert acc. induction rows as [|row rows IH]; intros acc; simpl; [lia|].
  rewrite IH. lia.
Qed.

(** A negative [SUM(size)] makes [getTotalBytesInStream] add the sizes
    row by row. *)
Lemma getTotalBytesInStream_overflow s p w sum rows :
  client_execute (cassandraClient w) SUM_SIZE [PString s; PNumber p] prepared
    = inr [sum] →
  row_count sum < 0 →
  client_execute (cassandraClient w) SELECT_SIZE [PString s; PNumber p] prepared
    = inr rows →
  getTotalBytesInStream s p w
  = (inr (foldr Z.add 0 (map row_size rows)),
     emitted [EvExecute SUM_SIZE [PString s; PNumber p] prepared;
              EvExecute SELECT_SIZE [PString s; PNumber p] prepared] w).
Proof.
  intros Hsum Hneg Hrows. unfold getTotalBytesInStream. run. rewrite Hsum.
  rewrite bool_decide_eq_true_2 by done. run. rewrite Hrows. run.
  by rewrite foldl_sizes.
Qed.

(** A negative [SUM(records)] is what [getNumberOfMessagesInStream]
    returns: it sends no second query. *)
Lemma getNumberOfMessagesInStream_overflow s p w sum :
  client_execute (cassandraClient w) SUM_RECORDS [PString s; PNumber p] prepared
    = inr [sum] →
  getNumberOfMessagesInStream s p w
  = (inr (row_count sum),
     emitted [EvExecute SUM_RECORDS [PString s; PNumber p] prepared] w).
Proof.
  intros Hsum. unfold getNumberOfMessagesInStream. run. by rewrite Hsum.
Qed.

(** ** store *)

Lemma storeWith_found (m : Msg) (p : nat) w b :
  bm_lookup (bucketManager w) (getStreamId m) (getStreamPartition m) (getTimestamp m)
    = Some b →
  storeWith m p w
  = (tt,
     set_immediates (λ q, q ++ [BatchStoreTask b m p])
       (set_bucketManager (bm_increment b (byteLength (serialize m)))
          (emitted
             [EvLog LDebug "Store message" None;
              EvGetBucketId (getStreamId m) (getStreamPartition m) (getTimestamp m);
              EvLog LTrace ("found bucketId: " +:+ b) None;
              EvIncrementBucket b (byteLength (serialize m))] w))).
Proof.
  intros Hb. unfold storeWith, storeExecutor. compute_run. fields_everywhere.
  rewrite Hb. compute_run. fields. by rewrite !emitted_emitted.
Qed.

Lemma storeWith_parked (m : Msg) (p : nat) w :
  bm_lookup (bucketManager w) (getStreamId m) (getStreamPartition m) (getTimestamp m)
    = None →
  storeWith m p w
  = (tt,
     set_pendingStores <[nextId w := S (nextId w)]>
       (set_timers
          <[S (nextId w) := (retriesIntervalMilliseconds (opts w),
                             RetryStoreTask (nextId w) m p)]>
          (set_nextId S
             (set_nextId S
                (emitted
                   [EvLog LDebug "Store message" None;
                    EvGetBucketId (getStreamId m) (getStreamPartition m)
                      (getTimestamp m);
                    EvLog LTrace ("bucket not found, put " +:+ messageIdSerialize m
                                  +:+ " to pendingMessages") None] w))))).
Proof.
  intros Hb. unfold storeWith, storeExecutor. compute_run. fields_everywhere.
  rewrite Hb. compute_run. fields. by rewrite !emitted_emitted.
Qed.

Lemma store_run (m : Msg) w :
  store m w
  = (nextId w,
     (storeWith m (nextId w) (set_promises <[nextId w := Pending]> (set_nextId S w))).2).
Proof.
  unfold store, storeWith, storeExecutor. compute_run. fields.
  destruct (bm_lookup _ _ _ _) as [b|]; compute_run; fields; f_equal;
    world_normal; reflexivity.
Qed.

(** ** close *)

Lemma lookup_foldl_delete {V} (ks : list nat) (m : gmap nat V) (i : nat) :
  foldl (flip delete) m ks !! i = if decide (i ∈ ks) then None else m !! i.
Proof.
  revert m. induction ks as [|k ks IH]; intros m.
  - case_decide as Hin; [by apply elem_of_nil in Hin|done].
  - cbn [foldl]. rewrite IH. unfold flip.
    destruct (decide (i ∈ ks)) as [Hin|Hnin].
    + by rewrite decide_True by (by right).
    + destruct (decide (i = k)) as [->|Hne].
      * rewrite lookup_delete_eq. by rewrite decide_True by left.
      * rewrite lookup_delete_ne by done.
        rewrite decide_False; [done|]. by intros [?|?]%elem_of_cons.
Qed.

(** [close]'s loop over the keys it copied from [pendingStores]. *)
Lemma close_keys_run (kvs : list (nat * nat)) w :
  NoDup kvs.*1 →
  (∀ k v, (k, v) ∈ kvs → pendingStores w !! k = Some v) →
  close_keys kvs.*1 w
  = (tt,
     mkWorld (opts w) (cassandraClient w) (bucketManager w) (batchManager w)
       (foldl (flip delete) (pendingStores w) kvs.*1)
       (foldl (flip delete) (timers w) kvs.*2)
       (immediates w) (promises w) (nextId w) (connected w)
       (trace w ++ map (λ kv, EvClearTimeout (Some kv.2)) kvs)).
Proof.
  revert w. induction kvs as [|[k v] kvs IH]; intros w Hnodup Hkvs.
  - cbn [fmap list_fmap close_keys foldl map]. rewrite app_nil_r. by destruct w.
  - cbn [fmap list_fmap fst snd close_keys] in *. compute_run.
    rewrite (Hkvs k v) by left. compute_run.
    apply NoDup_cons in Hnodup as [Hk Hnodup]. rewrite IH; [|done|].
    + fields. cbn [foldl map snd]. by rewrite <- app_assoc.
    + intros k1 v1 Hin. fields. rewrite lookup_delete_ne.
      * apply Hkvs. by right.
      * intros ->. apply Hk. apply list_elem_of_fmap. by exists (k1, v1).
Qed.

Lemma close_pendingStores_empty w :
  foldl (flip delete) (pendingStores w) (map_to_list (pendingStores w)).*1 = ∅.
Proof.
  apply map_eq. intros i. rewrite lookup_foldl_delete, lookup_empty.
  case_decide as Hin; [done|].
  destruct (pendingStores w !! i) as [v|] eqn:Hi; [|done].
  destruct Hin. apply list_elem_of_fmap. exists (i, v).
  split; [done|]. by apply elem_of_map_to_list.
Qed.

Lemma close_timers_empty w :
  registered w →
  foldl (flip delete) (timers w) (map_to_list (pendingStores w)).*2 = ∅.
Proof.
  intros Hreg. apply map_eq. intros h. rewrite lookup_foldl_delete, lookup_empty.
  case_decide as Hin; [done|].
  destruct (timers w !! h) as [[delay task]|] eqn:Hh; [|done].
  destruct (registered_timer w Hreg h delay task Hh) as (uuid & m & p & _ & Hp).
  destruct Hin. apply list_elem_of_fmap. exists (uuid, h).
  split; [done|]. by apply elem_of_map_to_list.
Qed.

Lemma close_run w :
  registered w →
  close w
  = (tt,
     mkWorld (opts w) (cassandraClient w) (bm_stop (bucketManager w))
       (mkBatchManager (batch_queue (batchManager w)) true)
       ∅ ∅ (immediates w) (promises w) (nextId w) false
       (trace w
        ++ map (λ kv, EvClearTimeout (Some kv.2)) (map_to_list (pendingStores w))
        ++ [EvBucketManagerStop; EvBatchManagerStop; EvShutdown])).
Proof.
  intros Hreg. unfold close. compute_run.
  rewrite close_keys_run.
  2:{ apply NoDup_fst_map_to_list. }
  2:{ intros k v Hin. by apply elem_of_map_to_list. }
  rewrite close_pendingStores_empty, (close_timers_empty w Hreg).
  world_normal. by rewrite <- !app_assoc.
Qed.

(** *** The parked stores stay registered *)

Lemma registered_same w w1 :
  timers w1 = timers w →
  pendingStores w1 = pendingStores w →
  (nextId w ≤ nextId w1)%nat →
  Forall isBatchStoreTask (immediates w1) →
  registered w → registered w1.
Proof.
  intros Ht Hp Hn Hi [Htimer Hfresh _]. split; [| |done].
  - intros h delay task. rewrite Ht, Hp. apply Htimer.
  - intros uuid h. rewrite Hp. intros Hu. destruct (Hfresh uuid h Hu). lia.
Qed.

Lemma registered_new client o bm : registered (LogStore_new (Msg:=Msg) client o bm).
Proof.
  split; unfold LogStore_new; fields;
    [intros ??? [=]|intros ?? [=]|constructor].
Qed.

Lemma storeWith_registered (m : Msg) (p : nat) w :
  registered w → registered (storeWith m p w).2.
Proof.
  intros Hreg.
  destruct (bm_lookup (bucketManager w) (getStreamId m) (getStreamPartition m)
              (getTimestamp m)) as [b|] eqn:Hb.
  - rewrite (storeWith_found m p w b Hb). cbn [snd].
    apply (registered_same w); fields_everywhere; [done|done|lia| |done].
    apply Forall_app. split; [apply Hreg|by repeat constructor].
  - rewrite (storeWith_parked m p w Hb). cbn [snd].
    destruct Hreg as [Htimer Hfresh Himm]. split; fields_everywhere; [| |done].
    + intros h delay task Hh.
      apply lookup_insert_Some in Hh as [[<- [= <- <-]]|[Hne Hh]].
      * eexists _, _, _. split; [done|]. apply lookup_insert_eq.
      * destruct (Htimer h delay task Hh) as (uuid & m1 & p1 & -> & Hu).
        exists uuid, m1, p1. split; [done|].
        rewrite lookup_insert_ne; [done|]. destruct (Hfresh uuid h Hu). lia.
    + intros uuid h Hu. apply lookup_insert_Some in Hu as [[<- <-]|[Hne Hu]]; [lia|].
      destruct (Hfresh uuid h Hu). lia.
Qed.

Lemma fireTimer_registered h w : registered w → registered (fireTimer h w).2.
Proof.
  intros Hreg. unfold fireTimer. compute_run.
  destruct (timers w !! h) as [[delay task]|] eqn:Hh; cbv beta iota; cbn [snd]; [|done].
  destruct (registered_timer w Hreg h delay task Hh) as (uuid & m & p & -> & Hu).
  unfold runTask. compute_run. apply storeWith_registered.
  destruct Hreg as [Htimer Hfresh Himm]. split; fields_everywhere; [| |done].
  - intros h1 delay1 task1 Hh1. apply lookup_delete_Some in Hh1 as [Hne Hh1].
    destruct (Htimer h1 delay1 task1 Hh1) as (uuid1 & m1 & p1 & -> & Hu1).
    exists uuid1, m1, p1. split; [done|].
    rewrite lookup_delete_ne; [done|]. intros ->. congruence.
  - intros uuid1 h1 Hu1. apply lookup_delete_Some in Hu1 as [_ Hu1].
    by apply Hfresh.
Qed.

Lemma runImmediate_registered w : registered w → registered (runImmediate w).2.
Proof.
  intros Hreg. unfold runImmediate. compute_run.
  destruct (immediates w) as [|task rest] eqn:Himm; cbv beta iota; cbn [snd]; [done|].
  pose proof (registered_immediates w Hreg) as Hall. rewrite Himm in Hall.
  apply Forall_cons in Hall as [Htask Hrest].
  destruct task as [b m p|]; [|done]. unfold runTask. compute_run.
  by apply (registered_same w); fields_everywhere.
Qed.

Lemma settle_registered p st w : registered w → registered (settle p st w).2.
Proof.
  intros Hreg. unfold settle. compute_run.
  destruct (promises w !! p) as [[| |]|]; cbv beta iota; cbn [snd]; try done.
  apply (registered_same w); fields_everywhere; try done. apply Hreg.
Qed.

Lemma batchDone_registered i err w : registered w → registered (batchDone i err w).2.
Proof.
  intros Hreg. unfold batchDone. compute_run.
  destruct (batch_queue (batchManager w) !! i) as [[[b m] [m1 p]]|];
    cbv beta iota; cbn [snd]; [|done].
  unfold runCallback, reject, resolve. compute_run.
  destruct err as [e|]; compute_run; apply settle_registered;
    apply (registered_same w); fields_everywhere; try done; apply Hreg.
Qed.

Lemma step_registered w w1 : step w w1 → registered w → registered w1.
Proof.
  intros Hstep Hreg. destruct Hstep as [w w1 Hloop|m w|w|A m w Hm|bm w].
  - destruct Hloop.
    + by apply fireTimer_registered.
    + by apply runImmediate_registered.
    + by apply batchDone_registered.
  - rewrite store_run. cbn [snd]. apply storeWith_registered.
    apply (registered_same w); fields_everywhere; [done|done|lia|apply Hreg|done].
  - rewrite close_run by done. cbn [snd].
    split; fields_everywhere; [intros ??? [=]|intros ?? [=]|apply Hreg].
  - rewrite (log_only_world m w Hm).
    apply (registered_same w); fields_everywhere; [done|done|lia|apply Hreg|done].
  - apply (registered_same w); fields_everywhere; [done|done|lia|apply Hreg|done].
Qed.

Lemma steps_registered w w1 : rtc step w w1 → registered w → registered w1.
Proof.
  induction 1 as [w|w w1 w2 Hstep _ IH]; [done|].
  intros Hreg. apply IH. by eapply step_registered.
Qed.

Lemma reachable_registered w : reachable w → registered w.
Proof.
  intros (client & o & bm & Hsteps).
  eapply steps_registered; [done|]. apply registered_new.
Qed.

(** C6. [store] returns a pending promise. When the bucket manager
    resolves a bucket, the counters of that bucket grow by the byte length
    of the serialised message and by one record, and a [setImmediate]
    closure is queued that hands the message to the batch manager with a
    callback; the callback resolves the promise with [true] after emitting
    ['write'], or rejects it with the batcher's error. When no bucket is
    resolved, a timeout of the configured retry interval is registered in
    [pendingStores] under a fresh uuid. When it expires it leaves
    [pendingStores] and [store] starts again, from the bucket lookup, for the
    same message and the caller's promise: with the logger lines and manager
    calls [store] itself would cause there; if a bucket is now resolved the
    counters grow and the hand-over is queued for the caller's promise, if
    not the message is parked again under a fresh uuid; no promise is
    settled or made. [store] is this body run for a new pending promise. The
    interval is the one the options give, 500 when they do not have the
    key. *)
Theorem store_coordinator (m : Msg) w :
  let lookup :=
    bm_lookup (bucketManager w) (getStreamId m) (getStreamPartition m)
              (getTimestamp m) in
  let p := (store m w).1 in
  let w1 := (store m w).2 in
  promises w1 !! p = Some Pending
  ∧ (∀ b, lookup = Some b →
       bucketManager w1
         = bm_increment b (byteLength (serialize m)) (bucketManager w)
       ∧ bm_counters (bucketManager w1) !! b
         = recordWrite (byteLength (serialize m))
             <$> bm_counters (bucketManager w) !! b
       ∧ immediates w1 = immediates w ++ [BatchStoreTask b m p]
       ∧ pendingStores w1 = pendingStores w
       ∧ timers w1 = timers w
       ∧ (∀ w2,
            let w3 := (runTask (BatchStoreTask b m p) w2).2 in
            batch_queue (batchManager w3)
              = batch_queue (batchManager w2) ++ [(b, m, StoreDone m p)]
            ∧ issued w2 w3 = [EvBatchStore b m])
       ∧ (∀ w2, promises w2 !! p = Some Pending →
            let w3 := (runCallback (StoreDone m p) None w2).2 in
            promises w3 !! p = Some (Resolved true)
            ∧ issued w2 w3 = [EvEmit "write" m])
       ∧ (∀ w2 err, promises w2 !! p = Some Pending →
            let w3 := (runCallback (StoreDone m p) (Some err) w2).2 in
            promises w3 !! p = Some (Rejected err)
            ∧ issued w2 w3 = []))
  ∧ (lookup = None →
       ∃ uuid h,
         pendingStores w1 = <[uuid := h]> (pendingStores w)
         ∧ timers w1
           = <[h := (retriesIntervalMilliseconds (opts w), RetryStoreTask uuid m p)]>
               (timers w)
         ∧ bucketManager w1 = bucketManager w
         ∧ immediates w1 = immediates w
         ∧ batchManager w1 = batchManager w
         ∧ (reachable w → pendingStores w !! uuid = None ∧ timers w !! h = None)
         ∧ (∀ w2 delay,
              timers w2 !! h = Some (delay, RetryStoreTask uuid m p) →
              let expired :=
                set_pendingStores (delete uuid) (set_timers (delete h) w2) in
              let lookup2 :=
                bm_lookup (bucketManager w2) (getStreamId m) (getStreamPartition m)
                          (getTimestamp m) in
              let w3 := (fireTimer h w2).2 in
              fireTimer h w2 = storeWith m p expired
              ∧ issued w2 w3 = issued expired (store m expired).2
              ∧ promises w3 = promises w2
              ∧ (∀ b, lookup2 = Some b →
                   bucketManager w3
                     = bm_increment b (byteLength (serialize m)) (bucketManager w2)
                   ∧ immediates w3 = immediates w2 ++ [BatchStoreTask b m p]
                   ∧ pendingStores w3 = delete uuid (pendingStores w2)
                   ∧ timers w3 = delete h (timers w2))
              ∧ (lookup2 = None →
                   ∃ uuid1 h1,
                     pendingStores w3
                       = <[uuid1 := h1]> (delete uuid (pendingStores w2))
                     ∧ timers w3
                       = <[h1 := (retriesIntervalMilliseconds (opts w2),
                                  RetryStoreTask uuid1 m p)]>
                           (delete h (timers w2))
                     ∧ bucketManager w3 = bucketManager w2
                     ∧ immediates w3 = immediates w2)))
  ∧ (∀ w0,
       store m w0
       = (nextId w0,
          (storeWith m (nextId w0)
             (set_promises <[nextId w0 := Pending]> (set_nextId S w0))).2))
  ∧ (∀ client o bm,
       retriesIntervalMilliseconds
         (opts (LogStore_new (Msg:=Msg) client o bm))
       = match key_retriesIntervalMilliseconds o with
         | Absent => Some 500
         | Present interval => interval
         end).
Proof.
  intros lookup p w1. subst p w1. rewrite store_run. cbn [fst snd].
  set (p := nextId w).
  set (w0 := set_promises <[p := Pending]> (set_nextId S w)).
  assert (Hlookup : bm_lookup (bucketManager w0) (getStreamId m)
                      (getStreamPartition m) (getTimestamp m) = lookup) by done.
  split; [|split; [|split; [|split]]].
  - destruct lookup as [b|] eqn:Hl.
    + rewrite (storeWith_found m p w0 b Hlookup). cbn. apply lookup_insert_eq.
    + rewrite (storeWith_parked m p w0 Hlookup). cbn. apply lookup_insert_eq.
  - intros b Hb. rewrite Hb in Hlookup.
    rewrite (storeWith_found m p w0 b Hlookup). cbn [snd].
    split; [done|]. split.
    { cbn. by rewrite lookup_alter_eq. }
    split; [done|]. split; [done|]. split; [done|]. split; [|split].
    + intros w2. unfold runTask, batchManager_store. run.
      split; [done|]. cbn. apply issued_emitted.
    + intros w2 Hpending. unfold runCallback, emit, resolve, settle.
      run. cbn [promises emitted set_trace]. rewrite Hpending. run.
      split; [cbn; apply lookup_insert_eq|].
      unfold issued. cbn. apply drop_app_length.
    + intros w2 err Hpending. unfold runCallback, reject, settle.
      run. rewrite Hpending. run.
      split; [cbn; apply lookup_insert_eq|].
      unfold issued. cbn. apply drop_all.
  - intros Hnone. rewrite Hnone in Hlookup.
    rewrite (storeWith_parked m p w0 Hlookup). cbn [snd].
    exists (nextId w0), (S (nextId w0)).
    split; [done|]. split; [done|]. split; [done|]. split; [done|].
    split; [done|]. split.
    + intros Hreach. apply reachable_registered in Hreach as [Htimer Hfresh _].
      subst w0 p. fields. split.
      * destruct (pendingStores w !! S (nextId w)) as [h|] eqn:Hu; [|done].
        destruct (Hfresh _ _ Hu). lia.
      * destruct (timers w !! S (S (nextId w))) as [[delay task]|] eqn:Hh; [|done].
        destruct (Htimer _ _ _ Hh) as (uuid & m1 & p1 & _ & Hu).
        destruct (Hfresh _ _ Hu). lia.
    + intros w2 delay Htimer.
      set (expired := set_pendingStores (delete (nextId w0))
                        (set_timers (delete (S (nextId w0))) w2)).
      set (lookup2 := bm_lookup (bucketManager w2) (getStreamId m)
                        (getStreamPartition m) (getTimestamp m)).
      assert (Hfire : fireTimer (S (nextId w0)) w2 = storeWith m p expired).
      { unfold fireTimer. run. rewrite Htimer. run. unfold runTask. by run. }
      rewrite Hfire, store_run. cbn [snd].
      set (made := set_promises _ (set_nextId S expired)).
      assert (Hexpired : bm_lookup (bucketManager expired) (getStreamId m)
                           (getStreamPartition m) (getTimestamp m) = lookup2) by done.
      assert (Hmade : bm_lookup (bucketManager made) (getStreamId m)
                        (getStreamPartition m) (getTimestamp m) = lookup2) by done.
      split; [done|].
      destruct lookup2 as [b|] eqn:Hl2.
      * rewrite (storeWith_found m p expired b Hexpired).
        rewrite (storeWith_found m (nextId expired) made b Hmade). cbn [snd].
        split; [|split; [done|split; [|done]]].
        { unfold issued. by fields. }
        intros b1 [= <-]. by fields.
      * rewrite (storeWith_parked m p expired Hexpired).
        rewrite (storeWith_parked m (nextId expired) made Hmade). cbn [snd].
        split; [|split; [done|split; [done|]]].
        { unfold issued. by fields. }
        intros _. eexists _, _. by fields.
  - intros w0'. apply store_run.
  - intros client o bm. cbn. unfold retriesIntervalMilliseconds, spread. cbn.
    by destruct (key_retriesIntervalMilliseconds o).
Qed.

(** *** After close *)

Lemma settle_quiet p st w :
  quiet w →
  quiet (settle p st w).2 ∧ trace (settle p st w).2 = trace w.
Proof.
  intros Hq. unfold settle. compute_run.
  by destruct (promises w !! p) as [[| |]|]; cbv beta iota; cbn [snd].
Qed.

(** A step of the event loop in a world with no parked store leaves
    none and starts no attempt of [store]. *)
Lemma loop_step_quiet w w1 :
  quiet w → loop_step w w1 →
  quiet w1 ∧ ∃ t, trace w1 = trace w ++ t ∧ Forall (λ e, isStoreAttempt e = false) t.
Proof.
  intros Hq Hstep. pose proof Hq as (Htimers & Hpending & Himm).
  destruct Hstep as [h w|w|i err w].
  - unfold fireTimer. compute_run. rewrite Htimers, lookup_empty.
    split; [done|]. exists []. by rewrite app_nil_r.
  - unfold runImmediate. compute_run.
    destruct (immediates w) as [|task rest] eqn:Hq1; cbv beta iota; cbn [snd].
    { split; [done|]. exists []. by rewrite app_nil_r. }
    apply Forall_cons in Himm as [Htask Hrest].
    destruct task as [b m p|]; [|done]. unfold runTask. compute_run.
    split; [done|]. exists [EvBatchStore b m]. split; [done|]. by repeat constructor.
  - unfold batchDone. compute_run.
    destruct (batch_queue (batchManager w) !! i) as [[[b m] [m1 p]]|];
      cbv beta iota; cbn [snd].
    2:{ split; [done|]. exists []. by rewrite app_nil_r. }
    unfold runCallback, reject, resolve. destruct err as [e|]; compute_run.
    + set (w0 := set_batchManager _ w).
      destruct (settle_quiet p (Rejected e) w0) as [Hq1 Ht1]; [done|].
      split; [done|]. exists []. by rewrite app_nil_r.
    + set (w0 := emitted _ (set_batchManager _ w)).
      destruct (settle_quiet p (Resolved true) w0) as [Hq1 Ht1]; [done|].
      split; [done|]. exists [EvEmit "write" m1]. split; [done|].
      by repeat constructor.
Qed.

Lemma loop_steps_quiet w w1 :
  quiet w → rtc loop_step w w1 →
  quiet w1 ∧ ∃ t, trace w1 = trace w ++ t ∧ Forall (λ e, isStoreAttempt e = false) t.
Proof.
  intros Hq Hsteps. induction Hsteps as [w|w w1 w2 Hstep _ IH].
  - split; [done|]. exists []. by rewrite app_nil_r.
  - destruct (loop_step_quiet w w1 Hq Hstep) as (Hq1 & t1 & Ht1 & Hno1).
    destruct (IH Hq1) as (Hq2 & t2 & Ht2 & Hno2).
    split; [done|]. exists (t1 ++ t2). rewrite Ht2, Ht1, app_assoc.
    split; [done|]. by apply Forall_app.
Qed.

(** C9. In every world a store can come to, [close] clears each timeout
    registered in [pendingStores] and deletes its entry, then stops the
    bucket manager, then the batch manager, then shuts the connection
    down. After it [pendingStores] is empty and no timeout is live, so no
    timeout can expire, and however the event loop goes on, no attempt of
    [store] starts again for a parked message. *)
Theorem close_cancels_parked w :
  reachable w →
  let w1 := (close w).2 in
  pendingStores w1 = ∅
  ∧ timers w1 = ∅
  ∧ issued w w1
    = map (λ kv, EvClearTimeout (Some kv.2)) (map_to_list (pendingStores w))
      ++ [EvBucketManagerStop; EvBatchManagerStop; EvShutdown]
  ∧ bm_stopped (bucketManager w1) = true
  ∧ batch_stopped (batchManager w1) = true
  ∧ connected w1 = false
  ∧ (∀ h, fireTimer h w1 = (tt, w1))
  ∧ (∀ w2, rtc loop_step w1 w2 →
       pendingStores w2 = ∅
       ∧ timers w2 = ∅
       ∧ Forall (λ e, isStoreAttempt e = false) (issued w1 w2)).
Proof.
  intros Hreach w1. pose proof (reachable_registered w Hreach) as Hreg.
  subst w1. rewrite (close_run w Hreg). cbn [snd].
  set (w1 := mkWorld _ _ _ _ _ _ _ _ _ _ _).
  assert (Hquiet : quiet w1) by (repeat split; apply Hreg).
  split; [done|]. split; [done|]. split.
  { unfold issued. subst w1. cbn [trace]. apply drop_app_length. }
  split; [done|]. split; [done|]. split; [done|]. split.
  - intros h. unfold fireTimer. compute_run. subst w1. cbn [timers].
    by rewrite lookup_empty.
  - intros w2 Hsteps.
    destruct (loop_steps_quiet w1 w2 Hquiet Hsteps)
      as ((Htimers & Hpending & _) & t & Ht & Hno).
    split; [done|]. split; [done|].
    unfold issued. rewrite Ht. by rewrite drop_app_length.
Qed.

(** ** The range reads, in full *)

Lemma fetchRange_run streamId partition fromTimestamp fromSequenceNo toTimestamp
    toSequenceNo publisherId msgChainId w :
  fetchRange streamId partition fromTimestamp fromSequenceNo toTimestamp
    toSequenceNo publisherId msgChainId w
  = let info :=
      mkDebugInfo streamId (Some partition) None (Some fromTimestamp)
        (Some toTimestamp) (Some fromSequenceNo) (Some toSequenceNo)
        publisherId msgChainId in
    let lookup :=
      EvGetBucketsByTimestamp streamId partition fromTimestamp toTimestamp in
    match bm_range (bucketManager w) streamId partition fromTimestamp toTimestamp with
    | inl e => (mkResultStream info [] (Destroyed (Some e)), emitted [lookup] w)
    | inr [] => (mkResultStream info [] Ended, emitted [lookup] w)
    | inr buckets =>
        let queries :=
          map (addFilters publisherId msgChainId)
            (rangeQueries streamId partition fromTimestamp fromSequenceNo
               toTimestamp toSequenceNo (bucketsToIds buckets)) in
        let streams :=
          map (λ q, client_stream (cassandraClient w) (selectOf q) (q_params q)
                      streaming) queries in
        (mkResultStream info (forwarded (mergedRows streams))
           (match thrown (mergedRows streams) with
            | Some _ => Open
            | None =>
                match mergedError streams with
                | Some e => Destroyed (Some e)
                | None => Ended
                end
            end),
         emitted
           (lookup :: map (λ q, EvStream (selectOf q) (q_params q) streaming) queries
            ++ rowEvents info (mergedRows streams)
            ++ escaped (mergedRows streams)) w)
    end.
Proof.
  unfold fetchRange. run.
  destruct (bm_range (bucketManager w) streamId partition fromTimestamp toTimestamp)
    as [e|[|bucket buckets]]; cbv zeta; [by run|by run|].
  rewrite bool_decide_eq_false_2 by done. run. rewrite openStreams_run. run.
  rewrite pipeline_run by done. by run.
Qed.

(** X1. What a range read delivers. When the bucket manager fails, the
    stream is destroyed with that error; when it finds no bucket, the stream
    ends empty; in both cases no query is sent to the driver. When it finds
    buckets, the queries of the plan are all opened, in the order of the plan,
    and their rows are taken one stream after the other, up to the first
    failing query. When all these rows deserialise, the stream has pushed
    their messages and is destroyed with that query's error, or ended when
    no query failed. When one does not, the stream has pushed the messages of
    the rows before it and is left open: the exception of that row is caught
    by nothing and is the last thing that happens. *)
Theorem fetchRange_result (streamId : string)
    (partition fromTimestamp fromSequenceNo toTimestamp toSequenceNo : Z)
    (publisherId msgChainId : option string) w :
  let info :=
    mkDebugInfo streamId (Some partition) None (Some fromTimestamp)
      (Some toTimestamp) (Some fromSequenceNo) (Some toSequenceNo)
      publisherId msgChainId in
  let r := fetchRange streamId partition fromTimestamp fromSequenceNo toTimestamp
             toSequenceNo publisherId msgChainId w in
  let answer := bm_range (bucketManager w) streamId partition fromTimestamp
                  toTimestamp in
  rs_info r.1 = info
  ∧ (∀ err, answer = inl err →
       rs_pushed r.1 = [] ∧ rs_status r.1 = Destroyed (Some err)
       ∧ physicalQueries (issued w r.2) = [])
  ∧ (answer = inr [] →
       rs_pushed r.1 = [] ∧ rs_status r.1 = Ended
       ∧ physicalQueries (issued w r.2) = [])
  ∧ (∀ buckets, answer = inr buckets → buckets ≠ [] →
       let queries :=
         map (addFilters publisherId msgChainId)
           (rangeQueries streamId partition fromTimestamp fromSequenceNo
              toTimestamp toSequenceNo (bucketsToIds buckets)) in
       let streams :=
         map (λ q, client_stream (cassandraClient w) (selectOf q) (q_params q)
                     streaming) queries in
       rs_pushed r.1 = forwarded (mergedRows streams)
       ∧ (thrown (mergedRows streams) = None →
          rs_pushed r.1 = decoded (mergedRows streams)
          ∧ rs_status r.1
            = match mergedError streams with
              | Some err => Destroyed (Some err)
              | None => Ended
              end
          ∧ Forall (λ e, ∀ err, e ≠ EvUncaughtException err) (issued w r.2))
       ∧ (∀ before row after err,
            mergedRows streams = before ++ row :: after →
            thrown before = None → rowError row = Some err →
            rs_pushed r.1 = decoded before
            ∧ rs_status r.1 = Open
            ∧ last (issued w r.2) = Some (EvUncaughtException err))
       ∧ readNotifications (issued w r.2) = rs_pushed r.1
       ∧ filter (λ e, isBackendCall e = true) (issued w r.2)
         = EvGetBucketsByTimestamp streamId partition fromTimestamp toTimestamp
           :: map (λ q, EvStream (selectOf q) (q_params q) streaming) queries).
Proof.
  intros info r answer. subst r. rewrite fetchRange_run. cbv zeta. fold info answer.
  split; [by destruct answer as [e|[|bucket buckets]]|].
  split; [|split].
  - intros err ->. cbn [fst snd rs_pushed rs_status]. by rewrite issued_emitted.
  - intros ->. cbn [fst snd rs_pushed rs_status]. by rewrite issued_emitted.
  - intros buckets -> Hne. destruct buckets as [|bucket buckets]; [done|].
    cbn [fst snd rs_pushed rs_status]. rewrite issued_emitted.
    set (queries := map (addFilters publisherId msgChainId) _).
    set (streams := map _ queries).
    set (opened := map (λ q : Query, EvStream (Msg:=Msg) (selectOf q) (q_params q)
                                       streaming) queries).
    assert (Hopened : readNotifications opened = []
                      ∧ filter (λ e, isBackendCall e = true) opened = opened
                      ∧ Forall (λ e, ∀ err, e ≠ EvUncaughtException err) opened).
    { subst opened. induction queries as [|q queries' IH]; [by repeat constructor|].
      cbn [map]. destruct IH as (IH1 & IH2 & IH3). split; [|split].
      - done.
      - rewrite filter_cons_True by done. by rewrite IH2.
      - by constructor. }
    destruct Hopened as (Hread & Hcalls & Hcaught).
    split; [done|]. split; [|split; [|split]].
    + intros Hall. rewrite Hall. split; [by apply forwarded_all|]. split; [done|].
      unfold escaped. rewrite Hall, app_nil_r. constructor; [done|].
      apply Forall_app. split; [done|]. unfold rowEvents.
      induction (readable (mergedRows streams)) as [|row l IH]; [constructor|].
      cbn [omap list_omap]. unfold rowEvent at 1.
      destruct (row_payload row) as [payload|]; [destruct (deserialize payload)|];
        [done|by constructor|by constructor].
    + intros before row after err Hrows Hbefore Hrow. rewrite Hrows.
      destruct (forwarded_split before after row err Hbefore Hrow) as [-> Hthrown].
      unfold escaped. rewrite Hthrown. split; [done|]. split; [done|].
      rewrite app_comm_cons, !app_assoc. apply last_snoc.
    + change (?e :: ?l) with ([e] ++ l).
      unfold readNotifications in *. rewrite !omap_app, Hread.
      fold (readNotifications (rowEvents info (mergedRows streams))).
      fold (readNotifications (escaped (Msg:=Msg) (mergedRows streams))).
      by rewrite readNotifications_rows, readNotifications_escaped, app_nil_r.
    + rewrite filter_cons_True by done. f_equal.
      rewrite !filter_app, backendCalls_rows, Hcalls.
      unfold escaped. destruct (thrown (mergedRows streams)); [|by rewrite !app_nil_r].
      rewrite filter_cons_False by done. by rewrite !app_nil_r.
Qed.

(** ** The last-N read, in full *)

Lemma makeLastQuery_finished s p limit ids rs w :
  rs_status rs = Open → rs_pushed rs = [] →
  finished (cassandraClient w) s p limit (makeLastQuery s p limit ids rs w).1.
Proof.
  intros Hopen Hnil. rewrite makeLastQuery_run by done. cbv zeta.
  destruct (client_execute _ _ _ _) as [err|rows] eqn:Hrows.
  { right. exists err. cbn. split; [done|]. by left. }
  cbn [fst]. destruct (thrown (rev rows)) as [err|] eqn:Hthrown; [|by left].
  right. exists err. cbn. split; [done|]. right. exists ids, rows.
  by rewrite Hnil.
Qed.

Lemma pageCallback_finished s p limit hasNext rows sc rs w :
  rs_status rs = Open → rs_pushed rs = [] →
  match (pageCallback s p limit hasNext rows sc rs w).1 with
  | inl rs1 => finished (cassandraClient w) s p limit rs1
  | inr _ => hasNext = true
  end.
Proof.
  intros Hopen Hnil. unfold pageCallback. cbv zeta. unfold ended. rewrite Hopen.
  destruct (scan_bucketId (foldl rowCallback sc rows)) as [bucketId|].
  2:{ run. left. unfold stream_end. by rewrite Hopen. }
  run. destruct (client_execute _ _ _ _) as [err|counted].
  { run. right. exists err. unfold destroy. rewrite Hopen. cbn. split; [done|by left]. }
  destruct (head counted) as [row|].
  2:{ run. right. eexists. unfold destroy. rewrite Hopen. cbn. split; [done|by left]. }
  destruct hasNext; cbn [andb].
  - destruct (_ && _); run; [done|].
    by apply (makeLastQuery_finished s p limit _ rs (emitted _ w)).
  - run. by apply (makeLastQuery_finished s p limit _ rs (emitted _ w)).
Qed.

Lemma lastPages_finished s p limit pages sc rs w :
  rs_status rs = Open → rs_pushed rs = [] →
  finished (cassandraClient w) s p limit (lastPages s p limit pages sc rs w).1.
Proof.
  intros Hopen Hnil. revert sc w.
  induction pages as [rows|rows next IH|err]; intros sc w; cbn [lastPages].
  - run. pose proof (pageCallback_finished s p limit false rows sc rs w Hopen Hnil) as H.
    by destruct (pageCallback s p limit false rows sc rs w).1.
  - run. pose proof (pageCallback_finished s p limit true rows sc rs w Hopen Hnil) as H.
    pose proof (log_only_world _ w
                  (log_only_pageCallback s p limit true rows sc rs)) as Hw.
    destruct (pageCallback s p limit true rows sc rs w).1 as [rs1|sc1]; run; [done|].
    rewrite Hw. apply (IH sc1 (emitted _ w)).
  - run. unfold ended, destroy. rewrite Hopen. right. exists err.
    cbn. split; [done|by left].
Qed.

Lemma thrown_None (rows : list Row) :
  thrown (codec:=codec) rows = None ↔ Forall (λ row, rowError row = None) rows.
Proof.
  induction rows as [|row rows IH]; [by split; [constructor|]|].
  cbn [thrown]. rewrite Forall_cons, <- IH.
  destruct (rowError row); by intuition.
Qed.


(** X3. The ways a last-N read stops before its final query. When the
    listing of the buckets fails, the stream is destroyed with that error;
    when the first page of the listing has no row, the stream ends empty: in
    both cases the listing is the only call that reached the backend. When
    the count of the bucket of the first page fails, or returns no row, the
    stream is destroyed after the listing and that one count, and the final
    query is never sent. *)
Theorem requestLast_stops_early (streamId : string) (partition limit : Z) w :
  let r := requestLast streamId partition limit w in
  let listing :=
    EvEachRow GET_BUCKETS [PString streamId; PNumber partition]
      (mkOptions true (Some 1) None) in
  let pages :=
    client_eachRow (cassandraClient w) GET_BUCKETS
      [PString streamId; PNumber partition] (mkOptions true (Some 1) None) in
  let count := λ b,
    client_execute (cassandraClient w) COUNT_MESSAGES
      [PString streamId; PNumber partition; PBucketId b] noPaging in
  let counting := λ b,
    EvExecute COUNT_MESSAGES [PString streamId; PNumber partition; PBucketId b]
      noPaging in
  (∀ err, pages = PageError err →
     rs_status r.1 = Destroyed (Some err) ∧ rs_pushed r.1 = []
     ∧ filter (λ e, isBackendCall e = true) (issued w r.2) = [listing])
  ∧ (pages = LastPage [] ∨ (∃ next, pages = MorePages [] next) →
     rs_status r.1 = Ended ∧ rs_pushed r.1 = []
     ∧ filter (λ e, isBackendCall e = true) (issued w r.2) = [listing])
  ∧ (∀ rows row next err,
       pages = LastPage (rows ++ [row]) ∨ pages = MorePages (rows ++ [row]) next →
       count (row_id row) = inl err →
       rs_status r.1 = Destroyed (Some err) ∧ rs_pushed r.1 = []
       ∧ filter (λ e, isBackendCall e = true) (issued w r.2)
         = [listing; counting (row_id row)])
  ∧ (∀ rows row next,
       pages = LastPage (rows ++ [row]) ∨ pages = MorePages (rows ++ [row]) next →
       count (row_id row) = inr [] →
       (∃ err, rs_status r.1 = Destroyed (Some err)) ∧ rs_pushed r.1 = []
       ∧ filter (λ e, isBackendCall e = true) (issued w r.2)
         = [listing; counting (row_id row)]).
Proof.
  intros r listing pages count counting. subst r. unfold requestLast. cbv zeta. run.
  fold pages. set (clamped := if bool_decide (limit > MAX_RESEND_LAST) then _ else _).
  set (info := mkDebugInfo _ _ _ _ _ _ _ _ _).
  assert (Hscan : ∀ rows row sc,
            scan_bucketId (foldl rowCallback sc (rows ++ [row])) = Some (row_id row)).
  { intros rows row sc. by rewrite foldl_app. }
  split; [|split; [|split]].
  - intros err ->. cbn [lastPages]. run. rewrite issued_emitted. cbn [app].
    by rewrite filter_cons_False, filter_cons_True by done.
  - intros [->|[next ->]]; cbn [lastPages]; unfold pageCallback; cbv zeta;
      cbn [foldl ended createResultStream rs_status scan_bucketId]; run;
      rewrite issued_emitted; cbn [app];
      by rewrite filter_cons_False, filter_cons_True by done.
  - intros rows row next err Hpages Hcount. subst count. cbv beta in Hcount.
    destruct Hpages as [->| ->]; cbn [lastPages]; unfold pageCallback; cbv zeta;
      cbn [ended createResultStream rs_status]; rewrite Hscan; run;
      rewrite Hcount; run; rewrite issued_emitted; cbn [app];
      by rewrite filter_cons_False, !filter_cons_True by done.
  - intros rows row next Hpages Hcount. subst count. cbv beta in Hcount.
    destruct Hpages as [->| ->]; cbn [lastPages]; unfold pageCallback; cbv zeta;
      cbn [ended createResultStream rs_status]; rewrite Hscan; run;
      rewrite Hcount; cbn [head]; run; rewrite issued_emitted; cbn [app];
      (split; [by eexists|]);
      by rewrite filter_cons_False, !filter_cons_True by done.
Qed.

(** ** Reading changes nothing *)

#[local] Abbreviation reading := (reading (Msg:=Msg)).

Lemma reading_ret {A} (a : A) : reading (mret a).
Proof.
  split; [apply log_only_ret|]. intros w. rewrite mret_run. cbn [snd].
  unfold issued. by rewrite drop_all.
Qed.

Lemma reading_gets {A} (f : World (Msg:=Msg) → A) :
  (∀ w t, f (emitted t w) = f w) → reading (gets f).
Proof.
  intros Hf. split; [by apply log_only_gets|]. intros w. rewrite gets_run.
  cbn [snd]. unfold issued. by rewrite drop_all.
Qed.

Lemma reading_event e : isReadEvent e = true → reading (event e).
Proof.
  intros He. split; [apply log_only_event|]. intros w. rewrite event_run.
  cbn [snd]. rewrite issued_emitted. by repeat constructor.
Qed.

Lemma reading_bind {A B} (m : M (Msg:=Msg) A) (k : A → M B) :
  reading m → (∀ a, reading (k a)) → reading (m ≫= k).
Proof.
  intros [Hm Hmr] Hk. split.
  { apply log_only_bind; [done|]. intros a. apply Hk. }
  intros w. rewrite mbind_run. rewrite (log_only_world m w Hm) at 1.
  destruct (Hk (m w).1) as [Hka Hkr]. rewrite Hka. cbn [snd].
  rewrite issued_emitted. apply Forall_app. split; [apply Hmr|apply Hkr].
Qed.

Lemma reading_readOnly {A} (m : M (Msg:=Msg) A) : reading m → readOnly m.
Proof.
  intros [Hm Hr] w. exists (issued w (m w).2). split; [|apply Hr].
  by apply log_only_world.
Qed.

Create HintDb reading.

#[local] Hint Resolve reading_ret : reading.
#[local] Hint Extern 1 (reading (gets _)) =>
  apply reading_gets; reflexivity : reading.
#[local] Hint Extern 1 (reading (event _)) =>
  apply reading_event; reflexivity : reading.

Ltac reading_step :=
  lazymatch goal with
  | |- reading (_ ≫= _) => apply reading_bind; [|intros]
  | |- reading (match ?x with _ => _ end) => destruct x
  | |- reading (let _ := _ in _) => cbv zeta
  | |- _ => solve [auto with reading]
  end.

Ltac reading := repeat reading_step.

Lemma reading_execute q ps o : reading (execute q ps o).
Proof. unfold execute. reading. Qed.

Lemma reading_eachRow q ps o : reading (eachRow q ps o).
Proof. unfold eachRow. reading. Qed.

Lemma reading_stream q ps o : reading (stream q ps o).
Proof. unfold stream. reading. Qed.

Lemma reading_getBucketsByTimestamp s p fromTs toTs :
  reading (getBucketsByTimestamp s p fromTs toTs).
Proof. unfold getBucketsByTimestamp. reading. Qed.

Lemma reading_logger_trace text info : reading (logger_trace text info).
Proof. by apply reading_event. Qed.

Lemma reading_nextPage : reading nextPage.
Proof. by apply reading_event. Qed.

Lemma reading_parseRow row info : reading (parseRow row info).
Proof. unfold parseRow, logger_error, emit. reading. Qed.

#[local] Hint Resolve reading_execute reading_eachRow reading_stream
  reading_getBucketsByTimestamp reading_logger_trace reading_nextPage
  reading_parseRow : reading.

Lemma reading_write row rs : reading (write row rs).
Proof. unfold write, transform. reading. Qed.

#[local] Hint Resolve reading_write : reading.

Lemma reading_writeRows rows rs : reading (writeRows rows rs).
Proof. revert rs. induction rows; intros rs; cbn [writeRows]; reading. Qed.

#[local] Hint Resolve reading_writeRows : reading.

Lemma reading_pipeline streams rs : reading (pipeline streams rs).
Proof.
  revert rs. induction streams; intros rs; cbn [pipeline];
    unfold uncaughtException; reading.
Qed.

Lemma reading_openStreams queries : reading (openStreams queries).
Proof.
  induction queries; cbn [openStreams]; unfold queryWithStreamingResults; reading.
Qed.

#[local] Hint Resolve reading_pipeline reading_openStreams : reading.

Lemma reading_fetchRange s p fromTs fromSeq toTs toSeq pub chain :
  reading (fetchRange s p fromTs fromSeq toTs toSeq pub chain).
Proof. unfold fetchRange. reading. Qed.

Lemma reading_makeLastQuery s p limit ids rs :
  reading (makeLastQuery s p limit ids rs).
Proof. unfold makeLastQuery. reading. Qed.

#[local] Hint Resolve reading_fetchRange reading_makeLastQuery : reading.

Lemma reading_pageCallback s p limit hasNext rows sc rs :
  reading (pageCallback s p limit hasNext rows sc rs).
Proof. unfold pageCallback. reading. Qed.

#[local] Hint Resolve reading_pageCallback : reading.

Lemma reading_lastPages s p limit pages sc rs :
  reading (lastPages s p limit pages sc rs).
Proof. revert sc. induction pages; intros sc; cbn [lastPages]; reading. Qed.

#[local] Hint Resolve reading_lastPages : reading.

(** X4. Reading never writes. Each read operation ([requestLast],
    [requestFrom], [requestRange] and the four scalar summaries) leaves the
    store as it found it (options, managers, parked stores, timers,
    immediates, promises, connection) and only appends events of reading to
    the trace: logger lines, ['read'] notifications, queries of the driver
    and the bucket manager's listing of a range. *)
Theorem reads_never_write (streamId : string)
    (partition limit fromTimestamp fromSequenceNo toTimestamp toSequenceNo : Z)
    (publisherId msgChainId : option string) :
  readOnly (requestLast streamId partition limit)
  ∧ readOnly (requestFrom streamId partition fromTimestamp fromSequenceNo publisherId)
  ∧ readOnly (requestRange streamId partition fromTimestamp fromSequenceNo
                toTimestamp toSequenceNo publisherId msgChainId)
  ∧ readOnly (Msg:=Msg) (getFirstMessageTimestampInStream streamId partition)
  ∧ readOnly (Msg:=Msg) (getLastMessageTimestampInStream streamId partition)
  ∧ readOnly (Msg:=Msg) (getNumberOfMessagesInStream streamId partition)
  ∧ readOnly (Msg:=Msg) (getTotalBytesInStream streamId partition).
Proof.
  repeat split; apply reading_readOnly.
  - unfold requestLast. reading.
  - unfold requestFrom. reading.
  - unfold requestRange. reading.
  - unfold getFirstMessageTimestampInStream, timestampInStream. reading.
  - unfold getLastMessageTimestampInStream, timestampInStream. reading.
  - unfold getNumberOfMessagesInStream. reading.
  - unfold getTotalBytesInStream. reading.
Qed.

(** ** The stores under way *)

Lemma outstandingOf_insert live queued batched h delay (task : Task (Msg:=Msg)) :
  live !! h = None →
  outstandingOf (<[h := (delay, task)]> live) queued batched
  ≡ₚ taskPromise task :: outstandingOf live queued batched.
Proof.
  intros Hh. unfold outstandingOf. by rewrite map_to_list_insert by done.
Qed.

Lemma outstandingOf_delete live queued batched h delay (task : Task (Msg:=Msg)) :
  live !! h = Some (delay, task) →
  outstandingOf live queued batched
  ≡ₚ taskPromise task :: outstandingOf (delete h live) queued batched.
Proof.
  intros Hh. unfold outstandingOf.
  by rewrite <- (map_to_list_delete live h (delay, task)) at 1 by done.
Qed.

Lemma outstandingOf_queued live queued batched (task : Task (Msg:=Msg)) :
  outstandingOf live (queued ++ [task]) batched
  ≡ₚ taskPromise task :: outstandingOf live queued batched.
Proof.
  unfold outstandingOf. rewrite fmap_app. cbn [fmap list_fmap].
  by solve_Permutation.
Qed.

Lemma outstandingOf_dequeued live queued batched (task : Task (Msg:=Msg)) :
  outstandingOf live (task :: queued) batched
  ≡ₚ taskPromise task :: outstandingOf live queued batched.
Proof. unfold outstandingOf. cbn [fmap list_fmap]. by solve_Permutation. Qed.

Lemma outstandingOf_batched live queued batched
    (entry : BucketId * Msg * Callback (Msg:=Msg)) :
  outstandingOf live queued (batched ++ [entry])
  ≡ₚ callbackPromise entry.2 :: outstandingOf live queued batched.
Proof.
  unfold outstandingOf. rewrite fmap_app. cbn [fmap list_fmap].
  by solve_Permutation.
Qed.

Lemma outstandingOf_reported live queued batched i
    (entry : BucketId * Msg * Callback (Msg:=Msg)) :
  batched !! i = Some entry →
  outstandingOf live queued batched
  ≡ₚ callbackPromise entry.2
     :: outstandingOf live queued (take i batched ++ drop (S i) batched).
Proof.
  intros Hi. unfold outstandingOf.
  rewrite <- (take_drop_middle batched i entry Hi) at 1.
  rewrite !fmap_app. cbn [fmap list_fmap]. by solve_Permutation.
Qed.

Lemma underWay_same held w w1 :
  opts w1 = opts w →
  timers w1 = timers w →
  pendingStores w1 = pendingStores w →
  immediates w1 = immediates w →
  batchManager w1 = batchManager w →
  promises w1 = promises w →
  (nextId w ≤ nextId w1)%nat →
  underWay held w → underWay held w1.
Proof.
  intros Ho Ht Hp Hi Hb Hpr Hn [Hpaired Hdelay Hpending Hown Hbelow Hcb].
  unfold outstandingPromises in *.
  split; unfold outstandingPromises; rewrite ?Ho, ?Ht, ?Hp, ?Hi, ?Hb, ?Hpr; try done.
  intros p Hp1. specialize (Hbelow p Hp1). lia.
Qed.

Lemma underWay_Permutation held held1 w w1 :
  opts w1 = opts w →
  pendingStores w1 = pendingStores w →
  timers w1 = timers w →
  promises w1 = promises w →
  (nextId w ≤ nextId w1)%nat →
  held1 ++ outstandingPromises w1 ≡ₚ held ++ outstandingPromises w →
  Forall (λ entry, ∃ p, entry.2 = StoreDone entry.1.2 p)
    (batch_queue (batchManager w1)) →
  underWay held w → underWay held1 w1.
Proof.
  intros Ho Hp Ht Hpr Hn Hperm Hcb1 [Hpaired Hdelay Hpending Hown Hbelow Hcb].
  split; rewrite ?Ho, ?Ht, ?Hp, ?Hpr, ?Hperm; try done.
  intros p Hp1. specialize (Hbelow p Hp1). lia.
Qed.

Lemma storeWith_underWay held (m : Msg) (p : nat) w :
  registered w → underWay (p :: held) w → underWay held (storeWith m p w).2.
Proof.
  intros Hreg Hway.
  destruct (bm_lookup (bucketManager w) (getStreamId m) (getStreamPartition m)
              (getTimestamp m)) as [b|] eqn:Hb.
  - rewrite (storeWith_found m p w b Hb). cbn [snd].
    apply (underWay_Permutation (p :: held) held w); fields_everywhere; try done.
    + unfold outstandingPromises. fields. rewrite outstandingOf_queued.
      by solve_Permutation.
    + apply Hway.
  - rewrite (storeWith_parked m p w Hb). cbn [snd].
    destruct Hreg as [Htimer Hfresh Himm].
    destruct Hway as [Hpaired Hdelay Hpending Hown Hbelow Hcb].
    assert (Hnew : timers w !! S (nextId w) = None).
    { destruct (timers w !! S (nextId w)) as [[delay task]|] eqn:Hh; [|done].
      destruct (Htimer _ _ _ Hh) as (uuid & m1 & p1 & _ & Hu).
      destruct (Hfresh _ _ Hu). lia. }
    assert (Hperm : held
                    ++ outstandingOf
                         (<[S (nextId w) := (retriesIntervalMilliseconds (opts w),
                                             RetryStoreTask (nextId w) m p)]>
                            (timers w))
                         (immediates w) (batch_queue (batchManager w))
                    ≡ₚ (p :: held) ++ outstandingPromises w).
    { rewrite outstandingOf_insert by done. cbn [taskPromise].
      unfold outstandingPromises. by solve_Permutation. }
    split; unfold outstandingPromises; fields_everywhere; rewrite ?Hperm;
      try done.
    + intros uuid h Hu. apply lookup_insert_Some in Hu as [[<- <-]|[Hne Hu]].
      * eexists _, _, _. apply lookup_insert_eq.
      * destruct (Hpaired uuid h Hu) as (delay & m1 & p1 & Hh).
        exists delay, m1, p1. rewrite lookup_insert_ne; [done|].
        destruct (Hfresh uuid h Hu). lia.
    + intros h delay task Hh.
      apply lookup_insert_Some in Hh as [[_ [= <- _]]|[_ Hh]]; [done|].
      by apply (Hdelay h delay task).
    + intros q Hq. specialize (Hbelow q Hq). lia.
Qed.

Lemma store_underWay held (m : Msg) w :
  registered w → underWay held w → underWay held (store m w).2.
Proof.
  intros Hreg Hway. rewrite store_run. cbn [snd]. apply storeWith_underWay.
  { apply (registered_same w); fields_everywhere; [done|done|lia|apply Hreg|done]. }
  destruct Hway as [Hpaired Hdelay Hpending Hown Hbelow Hcb].
  assert (Hold : ∀ q, q ∈ held ++ outstandingPromises w → (q < nextId w)%nat).
  { intros q Hq. apply Hbelow. rewrite Forall_forall in Hpending.
    by rewrite (Hpending q Hq). }
  split; unfold outstandingPromises in *; fields_everywhere;
    rewrite <- ?app_comm_cons; try done.
  - constructor; [apply lookup_insert_eq|].
    rewrite Forall_forall in *. intros q Hq.
    rewrite lookup_insert_ne; [by apply Hpending|].
    specialize (Hold q Hq). lia.
  - constructor; [|done]. intros Hin. specialize (Hold _ Hin). lia.
  - intros q Hq. destruct (decide (q = nextId w)) as [->|Hne]; [lia|].
    rewrite lookup_insert_ne in Hq by done. specialize (Hbelow q Hq). lia.
Qed.

(** The world in which the retry of an expired timeout starts [store]
    again: the timeout and its entry of [pendingStores] are gone. *)
Lemma retry_registered w w2 h uuid delay (m : Msg) p :
  registered w →
  timers w !! h = Some (delay, RetryStoreTask uuid m p) →
  pendingStores w !! uuid = Some h →
  timers w2 = delete h (timers w) →
  pendingStores w2 = delete uuid (pendingStores w) →
  immediates w2 = immediates w →
  nextId w2 = nextId w →
  registered w2.
Proof.
  intros [Htimer Hfresh Himm] Hh Hu Ht Hp Hi Hn.
  split; rewrite ?Ht, ?Hp, ?Hi, ?Hn; [| |done].
  - intros h1 delay1 task1 Hh1. apply lookup_delete_Some in Hh1 as [Hne Hh1].
    destruct (Htimer h1 delay1 task1 Hh1) as (uuid1 & m1 & p1 & -> & Hu1).
    exists uuid1, m1, p1. split; [done|].
    rewrite lookup_delete_ne; [done|]. intros ->. congruence.
  - intros uuid1 h1 Hu1. apply lookup_delete_Some in Hu1 as [_ Hu1].
    by apply Hfresh.
Qed.

Lemma retry_underWay held w w2 h uuid delay (m : Msg) p :
  underWay held w →
  timers w !! h = Some (delay, RetryStoreTask uuid m p) →
  opts w2 = opts w →
  timers w2 = delete h (timers w) →
  pendingStores w2 = delete uuid (pendingStores w) →
  immediates w2 = immediates w →
  batchManager w2 = batchManager w →
  promises w2 = promises w →
  nextId w2 = nextId w →
  underWay (p :: held) w2.
Proof.
  intros [Hpaired Hdelay Hpending Hown Hbelow Hcb] Hh Ho Ht Hp Hi Hb Hpr Hn.
  assert (Hperm : (p :: held) ++ outstandingPromises w2
                  ≡ₚ held ++ outstandingPromises w).
  { unfold outstandingPromises. rewrite Ht, Hi, Hb.
    rewrite (outstandingOf_delete (timers w) _ _ h delay
               (RetryStoreTask uuid m p)) by done.
    cbn [taskPromise]. by solve_Permutation. }
  split; rewrite ?Hperm, ?Ho, ?Ht, ?Hp, ?Hb, ?Hpr, ?Hn; try done.
  - intros uuid1 h1 Hu1. apply lookup_delete_Some in Hu1 as [Hne Hu1].
    destruct (Hpaired uuid1 h1 Hu1) as (delay1 & m1 & p1 & Hh1).
    exists delay1, m1, p1. rewrite lookup_delete_ne; [done|].
    intros <-. rewrite Hh in Hh1. by injection Hh1 as _ -> _ _.
  - intros h1 delay1 task1 Hh1. apply lookup_delete_Some in Hh1 as [_ Hh1].
    by apply (Hdelay h1 delay1 task1).
Qed.

Lemma fireTimer_underWay held h w :
  registered w → underWay held w → underWay held (fireTimer h w).2.
Proof.
  intros Hreg Hway. unfold fireTimer. compute_run.
  destruct (timers w !! h) as [[delay task]|] eqn:Hh; cbv beta iota; cbn [snd]; [|done].
  destruct (registered_timer w Hreg h delay task Hh) as (uuid & m & p & -> & Hu).
  unfold runTask. compute_run. apply storeWith_underWay.
  - by apply (retry_registered w _ h uuid delay m p).
  - by apply (retry_underWay held w _ h uuid delay m p).
Qed.

Lemma runImmediate_underWay held w :
  registered w → underWay held w → underWay held (runImmediate w).2.
Proof.
  intros Hreg Hway. unfold runImmediate. compute_run.
  destruct (immediates w) as [|task rest] eqn:Hq; cbv beta iota; cbn [snd]; [done|].
  pose proof (registered_immediates w Hreg) as Hall. rewrite Hq in Hall.
  apply Forall_cons in Hall as [Htask Hrest].
  destruct task as [b m p|]; [|done]. unfold runTask. compute_run.
  apply (underWay_Permutation held held w); fields_everywhere; try done.
  - unfold outstandingPromises. fields. cbn [batch_queue]. rewrite Hq.
    by rewrite outstandingOf_batched, outstandingOf_dequeued.
  - apply Forall_app. split; [apply Hway|]. repeat constructor. by exists p.
Qed.

Lemma settle_underWay held p st w :
  underWay (p :: held) w → underWay held (settle p st w).2.
Proof.
  intros [Hpaired Hdelay Hpending Hown Hbelow Hcb].
  rewrite <- app_comm_cons in *.
  apply Forall_cons in Hpending as [Hp Hpending].
  apply NoDup_cons in Hown as [Hnotin Hown].
  unfold settle. compute_run. rewrite Hp. cbv beta iota. cbn [snd].
  split; unfold outstandingPromises in *; fields_everywhere; try done.
  - rewrite Forall_forall in *. intros q Hq.
    rewrite lookup_insert_ne; [by apply Hpending|]. by intros <-.
  - intros q Hq. destruct (decide (q = p)) as [->|Hne].
    + apply Hbelow. by rewrite Hp.
    + rewrite lookup_insert_ne in Hq by done. by apply Hbelow.
Qed.

Lemma batchDone_underWay held i err w :
  underWay held w → underWay held (batchDone i err w).2.
Proof.
  intros Hway. unfold batchDone. compute_run.
  destruct (batch_queue (batchManager w) !! i) as [[[b m] cb]|] eqn:Hi;
    cbv beta iota; cbn [snd]; [|done].
  pose proof (underWay_callbacks held w Hway) as Hcb.
  rewrite Forall_forall in Hcb.
  destruct (Hcb (b, m, cb)) as [p Hp]; [by eapply list_elem_of_lookup_2|].
  cbn [fst snd] in Hp. subst cb.
  assert (Hleft : Forall (λ entry : BucketId * Msg * Callback (Msg:=Msg),
                            ∃ p, entry.2 = StoreDone entry.1.2 p)
                    (take i (batch_queue (batchManager w))
                     ++ drop (S i) (batch_queue (batchManager w)))).
  { rewrite Forall_forall. intros entry Hentry. apply Hcb.
    apply elem_of_app in Hentry as [Hentry|Hentry].
    - eapply elem_of_sublist; [done|apply sublist_take].
    - eapply elem_of_sublist; [done|apply sublist_drop]. }
  unfold runCallback, reject, resolve. destruct err as [e|]; compute_run;
    apply settle_underWay;
    apply (underWay_Permutation held (p :: held) w); fields_everywhere; try done;
    unfold outstandingPromises; fields; cbn [batch_queue];
    rewrite (outstandingOf_reported _ _ (batch_queue (batchManager w)) i
               (b, m, StoreDone m p)) by done;
    cbn [callbackPromise snd]; by solve_Permutation.
Qed.

(** After [close] the promises held by the retries are held by nothing. *)
Lemma close_underWay held w :
  registered w →
  underWay held w →
  underWay (held ++ ((λ ht, taskPromise ht.2.2) <$> map_to_list (timers w)))
           (close w).2.
Proof.
  intros Hreg [Hpaired Hdelay Hpending Hown Hbelow Hcb].
  rewrite (close_run w Hreg). cbn [snd].
  assert (Hperm : (held ++ ((λ ht, taskPromise ht.2.2) <$> map_to_list (timers w)))
                  ++ outstandingOf ∅ (immediates w) (batch_queue (batchManager w))
                  ≡ₚ held ++ outstandingPromises w).
  { unfold outstandingPromises, outstandingOf. rewrite map_to_list_empty.
    cbn [fmap list_fmap app]. by rewrite <- app_assoc. }
  split; unfold outstandingPromises; fields_everywhere; cbn [batch_queue];
    rewrite ?Hperm; done.
Qed.

Lemma underWay_released held held1 w :
  held1 ⊆+ held → underWay held w → underWay held1 w.
Proof.
  intros Hsub [Hpaired Hdelay Hpending Hown Hbelow Hcb].
  assert (Hsub1 : held1 ++ outstandingPromises w ⊆+ held ++ outstandingPromises w).
  { by apply submseteq_app. }
  split; try done.
  - rewrite Forall_forall in *. intros q Hq. apply Hpending.
    by eapply elem_of_submseteq.
  - apply submseteq_Permutation in Hsub1 as [k Hk]. rewrite Hk in Hown.
    by apply NoDup_app in Hown as [? _].
Qed.

Lemma step_underWay held w w1 :
  step w w1 → registered w → underWay held w → underWay held w1.
Proof.
  intros Hstep Hreg Hway. destruct Hstep as [w w1 Hloop|m w|w|A m w Hm|bm w].
  - destruct Hloop.
    + by apply fireTimer_underWay.
    + by apply runImmediate_underWay.
    + by apply batchDone_underWay.
  - by apply store_underWay.
  - eapply underWay_released; [|by apply close_underWay].
    by apply submseteq_inserts_r.
  - rewrite (log_only_world m w Hm). by apply (underWay_same held w).
  - by apply (underWay_same held w).
Qed.

Lemma steps_underWay held w w1 :
  rtc step w w1 → registered w → underWay held w →
  registered w1 ∧ underWay held w1.
Proof.
  induction 1 as [w|w w1 w2 Hstep _ IH]; [done|].
  intros Hreg Hway. apply IH.
  - by eapply step_registered.
  - by eapply step_underWay.
Qed.

Lemma underWay_new client o bm : underWay [] (LogStore_new (Msg:=Msg) client o bm).
Proof.
  split; unfold outstandingPromises, outstandingOf, LogStore_new; fields;
    cbn [app batch_queue]; rewrite ?map_to_list_empty; try done.
  - constructor.
  - intros p [st Hp]. done.
Qed.

Lemma reachable_underWay w : reachable w → registered w ∧ underWay [] w.
Proof.
  intros (client & o & bm & Hsteps).
  eapply steps_underWay; [done|apply registered_new|apply underWay_new].
Qed.

(** The promise of a live retry is one of the promises under way. *)
Lemma retry_outstanding w h delay uuid (m : Msg) p :
  timers w !! h = Some (delay, RetryStoreTask uuid m p) →
  p ∈ (λ ht : nat * (option Z * Task (Msg:=Msg)), taskPromise ht.2.2)
        <$> map_to_list (timers w).
Proof.
  intros Hh. apply list_elem_of_fmap.
  exists (h, (delay, RetryStoreTask uuid m p)). split; [done|].
  by apply elem_of_map_to_list.
Qed.

(** X5. In every world a store can come to, [pendingStores] mirrors the
    live timeouts: an entry [uuid -> handle] is there exactly when the
    timeout of that handle is live and retries the store parked under that
    uuid. Every live timeout waits the configured retry interval and holds a
    promise that is still pending. *)
Theorem pendingStores_mirror_timers w :
  reachable w →
  (∀ uuid h,
     pendingStores w !! uuid = Some h
     ↔ ∃ delay m p, timers w !! h = Some (delay, RetryStoreTask uuid m p))
  ∧ (∀ h delay task,
       timers w !! h = Some (delay, task) →
       delay = retriesIntervalMilliseconds (opts w)
       ∧ ∃ uuid m p,
           task = RetryStoreTask uuid m p
           ∧ pendingStores w !! uuid = Some h
           ∧ promises w !! p = Some Pending).
Proof.
  intros Hreach. destruct (reachable_underWay w Hreach) as [Hreg Hway].
  split.
  - intros uuid h. split.
    + apply Hway.
    + intros (delay & m & p & Hh).
      destruct (registered_timer w Hreg h _ _ Hh) as (uuid1 & m1 & p1 & Heq & Hu).
      by injection Heq as -> _ _.
  - intros h delay task Hh. split; [by apply (underWay_delay [] w Hway h delay task)|].
    destruct (registered_timer w Hreg h _ _ Hh) as (uuid & m & p & -> & Hu).
    exists uuid, m, p. split; [done|]. split; [done|].
    pose proof (underWay_pending [] w Hway) as Hpending.
    rewrite Forall_forall in Hpending. apply Hpending. cbn [app].
    unfold outstandingPromises, outstandingOf. apply elem_of_app. left.
    by eapply retry_outstanding.
Qed.

(** X6. In every world a store can come to, each entry the batch manager
    holds carries the callback of its own message, and the promise of that
    callback is pending. When the batch manager reports success on the
    entry, ['write'] is emitted for the message and the promise resolves
    with [true]; when it reports an error, the promise is rejected with that
    error and nothing is emitted. No other promise changes. *)
Theorem batch_report_settles w i b (m : Msg) cb :
  reachable w →
  batch_queue (batchManager w) !! i = Some (b, m, cb) →
  ∃ p,
    cb = StoreDone m p
    ∧ promises w !! p = Some Pending
    ∧ (let w1 := (batchDone i None w).2 in
       promises w1 = <[p := Resolved true]> (promises w)
       ∧ issued w w1 = [EvEmit "write" m])
    ∧ (∀ err,
         let w1 := (batchDone i (Some err) w).2 in
         promises w1 = <[p := Rejected err]> (promises w)
         ∧ issued w w1 = []).
Proof.
  intros Hreach Hi. destruct (reachable_underWay w Hreach) as [Hreg Hway].
  pose proof (underWay_callbacks [] w Hway) as Hcb.
  rewrite Forall_forall in Hcb.
  destruct (Hcb (b, m, cb)) as [p Hp]; [by eapply list_elem_of_lookup_2|].
  cbn [fst snd] in Hp. subst cb. exists p. split; [done|].
  assert (Hpending : promises w !! p = Some Pending).
  { pose proof (underWay_pending [] w Hway) as Hpending.
    rewrite Forall_forall in Hpending. apply Hpending. cbn [app].
    unfold outstandingPromises, outstandingOf. apply elem_of_app. right.
    apply elem_of_app. right. apply list_elem_of_fmap.
    exists (b, m, StoreDone m p). split; [done|]. by eapply list_elem_of_lookup_2. }
  split; [done|]. split.
  - cbv zeta. unfold batchDone. compute_run. rewrite Hi. cbv beta iota.
    unfold runCallback, resolve, settle. compute_run. fields. rewrite Hpending.
    cbv beta iota. cbn [snd]. fields. split; [done|].
    unfold issued. fields. apply drop_app_length.
  - intros err. cbv zeta. unfold batchDone. compute_run. rewrite Hi. cbv beta iota.
    unfold runCallback, reject, settle. compute_run. fields. rewrite Hpending.
    cbv beta iota. cbn [snd]. fields. split; [done|].
    unfold issued. fields. apply drop_all.
Qed.

(** X7. [close] abandons the parked stores. The promise of a store that
    is parked when [close] is called is pending, and it stays pending
    whatever happens afterwards (timeouts, immediates, reports of the batch
    manager, further calls of [store] and [close], reads): [close] clears
    the retry without resolving or rejecting the promise, and nothing else
    holds it. *)
Theorem close_abandons_parked w h delay uuid (m : Msg) p :
  reachable w →
  timers w !! h = Some (delay, RetryStoreTask uuid m p) →
  promises w !! p = Some Pending
  ∧ ∀ w2, rtc step (close w).2 w2 → promises w2 !! p = Some Pending.
Proof.
  intros Hreach Hh. destruct (reachable_underWay w Hreach) as [Hreg Hway].
  assert (Hheld : underWay [p] (close w).2).
  { eapply underWay_released; [|by apply close_underWay]. cbn [app].
    apply singleton_submseteq_l. by eapply retry_outstanding. }
  assert (Hpending : ∀ w1, underWay [p] w1 → promises w1 !! p = Some Pending).
  { intros w1 Hw1. pose proof (underWay_pending [p] w1 Hw1) as Hall.
    by apply Forall_cons in Hall as [Hp _]. }
  split.
  - pose proof (underWay_pending [] w Hway) as Hall.
    rewrite Forall_forall in Hall. apply Hall. cbn [app].
    unfold outstandingPromises, outstandingOf. apply elem_of_app. left.
    by eapply retry_outstanding.
  - intros w2 Hsteps. apply Hpending.
    eapply steps_underWay; [done| |done].
    eapply step_registered; [apply step_close|done].
Qed.

(** X8. What the retry of a parked store does when its timeout expires,
    in every world a store can come to. The entry leaves [pendingStores]
    and the timeout is gone. If the bucket manager now resolves a bucket,
    the bucket's counters grow and the hand-over to the batch manager is
    queued for the promise of the first call. If it still resolves none,
    the message is parked again, under a uuid and a timeout not in use, for
    the same promise and the configured interval: as many stores are parked
    as before. No promise is settled by the retry. *)
Theorem retry_outcome w h delay uuid (m : Msg) p :
  reachable w →
  timers w !! h = Some (delay, RetryStoreTask uuid m p) →
  let lookup :=
    bm_lookup (bucketManager w) (getStreamId m) (getStreamPartition m)
              (getTimestamp m) in
  let w1 := (fireTimer h w).2 in
  pendingStores w !! uuid = Some h
  ∧ promises w1 = promises w
  ∧ (∀ b, lookup = Some b →
       pendingStores w1 = delete uuid (pendingStores w)
       ∧ timers w1 = delete h (timers w)
       ∧ immediates w1 = immediates w ++ [BatchStoreTask b m p]
       ∧ bucketManager w1
         = bm_increment b (byteLength (serialize m)) (bucketManager w))
  ∧ (lookup = None →
       ∃ uuid1 h1,
         pendingStores w !! uuid1 = None
         ∧ timers w !! h1 = None
         ∧ pendingStores w1 = <[uuid1 := h1]> (delete uuid (pendingStores w))
         ∧ timers w1
           = <[h1 := (retriesIntervalMilliseconds (opts w),
                      RetryStoreTask uuid1 m p)]> (delete h (timers w))
         ∧ immediates w1 = immediates w
         ∧ bucketManager w1 = bucketManager w
         ∧ size (pendingStores w1) = size (pendingStores w)).
Proof.
  intros Hreach Hh lookup w1.
  destruct (reachable_underWay w Hreach) as [Hreg Hway].
  destruct (registered_timer w Hreg h _ _ Hh) as (uuid1 & m1 & p1 & Heq & Hu).
  injection Heq as <- <- <-.
  set (w0 := set_pendingStores (delete uuid) (set_timers (delete h) w)).
  assert (Hrun : fireTimer h w = storeWith m p w0).
  { unfold fireTimer. run. rewrite Hh. run. unfold runTask. by run. }
  assert (Hlookup : bm_lookup (bucketManager w0) (getStreamId m)
                      (getStreamPartition m) (getTimestamp m) = lookup) by done.
  subst w1. rewrite Hrun. split; [done|]. split; [|split].
  - destruct lookup as [b|] eqn:Hl.
    + by rewrite (storeWith_found m p w0 b Hlookup).
    + by rewrite (storeWith_parked m p w0 Hlookup).
  - intros b Hb. rewrite Hb in Hlookup.
    by rewrite (storeWith_found m p w0 b Hlookup).
  - intros Hnone. rewrite Hnone in Hlookup.
    rewrite (storeWith_parked m p w0 Hlookup). cbn [snd].
    destruct Hreg as [Htimer Hfresh Himm].
    assert (Hfresh1 : pendingStores w !! nextId w = None).
    { destruct (pendingStores w !! nextId w) as [h1|] eqn:Hu1; [|done].
      destruct (Hfresh _ _ Hu1). lia. }
    assert (Hfresh2 : timers w !! S (nextId w) = None).
    { destruct (timers w !! S (nextId w)) as [[delay1 task1]|] eqn:Hh1; [|done].
      destruct (Htimer _ _ _ Hh1) as (uuid1 & m1 & p1 & _ & Hu1).
      destruct (Hfresh _ _ Hu1). lia. }
    exists (nextId w), (S (nextId w)).
    split; [done|]. split; [done|]. split; [done|]. split; [done|].
    split; [done|]. split; [done|]. subst w0. fields.
    rewrite map_size_insert_None by (by rewrite lookup_delete_ne by congruence).
    rewrite map_size_delete_Some by (by rewrite Hu).
    destruct (size (pendingStores w)) as [|n] eqn:Hsize; [|done].
    apply map_size_empty_inv in Hsize. by rewrite Hsize in Hu.
Qed.

(** ** The scalar summaries, in full *)

(** X9. The four scalar summaries answer 0 when there is nothing to
    summarise. The first and the last timestamp are 0 when the bucket query
    does not return exactly one row, after that one query, and when the one
    bucket has not exactly one data row; the number of messages and the
    total of bytes are 0 when the sum query does not return exactly one row. *)
Theorem summaries_default_to_zero (streamId : string) (partition : Z) w :
  let answer := λ q, client_execute (cassandraClient w) q
                       [PString streamId; PNumber partition] prepared in
  let within := λ q b, client_execute (cassandraClient w) q
                         [PString streamId; PNumber partition; PBucketId b]
                         prepared in
  let firstBucket :=
    "SELECT id FROM bucket WHERE stream_id=? AND partition =? ORDER BY date_create ASC LIMIT 1" in
  let lastBucket :=
    "SELECT id FROM bucket WHERE stream_id=? AND partition =? ORDER BY date_create DESC LIMIT 1" in
  let firstRow :=
    "SELECT ts FROM stream_data WHERE stream_id=? AND partition=? AND bucket_id=? ORDER BY ts ASC LIMIT 1" in
  let lastRow :=
    "SELECT ts FROM stream_data WHERE stream_id=? AND partition=? AND bucket_id=? ORDER BY ts DESC LIMIT 1" in
  (∀ rows, answer firstBucket = inr rows → length rows ≠ 1%nat →
     getFirstMessageTimestampInStream streamId partition w
     = (inr 0, emitted [EvExecute firstBucket [PString streamId; PNumber partition]
                          prepared] w))
  ∧ (∀ rows, answer lastBucket = inr rows → length rows ≠ 1%nat →
     getLastMessageTimestampInStream streamId partition w
     = (inr 0, emitted [EvExecute lastBucket [PString streamId; PNumber partition]
                          prepared] w))
  ∧ (∀ bucket rows, answer firstBucket = inr [bucket] →
       within firstRow (row_id bucket) = inr rows → length rows ≠ 1%nat →
       (getFirstMessageTimestampInStream streamId partition w).1 = inr 0)
  ∧ (∀ bucket rows, answer lastBucket = inr [bucket] →
       within lastRow (row_id bucket) = inr rows → length rows ≠ 1%nat →
       (getLastMessageTimestampInStream streamId partition w).1 = inr 0)
  ∧ (∀ rows, answer SUM_RECORDS = inr rows → length rows ≠ 1%nat →
     getNumberOfMessagesInStream streamId partition w
     = (inr 0, emitted [EvExecute SUM_RECORDS [PString streamId; PNumber partition]
                          prepared] w))
  ∧ (∀ rows, answer SUM_SIZE = inr rows → length rows ≠ 1%nat →
     getTotalBytesInStream streamId partition w
     = (inr 0, emitted [EvExecute SUM_SIZE [PString streamId; PNumber partition]
                          prepared] w)).
Proof.
  intros answer within firstBucket lastBucket firstRow lastRow.
  subst answer within. cbv beta.
  repeat split.
  - intros rows Hrows Hlen.
    unfold getFirstMessageTimestampInStream, timestampInStream. run.
    fold firstBucket. rewrite Hrows. by destruct rows as [|? [|? ?]].
  - intros rows Hrows Hlen.
    unfold getLastMessageTimestampInStream, timestampInStream. run.
    fold lastBucket. rewrite Hrows. by destruct rows as [|? [|? ?]].
  - intros bucket rows Hbucket Hrows Hlen.
    by apply (timestampInStream_no_row firstBucket firstRow _ _ _ bucket rows).
  - intros bucket rows Hbucket Hrows Hlen.
    by apply (timestampInStream_no_row lastBucket lastRow _ _ _ bucket rows).
  - intros rows Hrows Hlen. unfold getNumberOfMessagesInStream. run. rewrite Hrows.
    by destruct rows as [|? [|? ?]].
  - intros rows Hrows Hlen. unfold getTotalBytesInStream. run. rewrite Hrows.
    by destruct rows as [|? [|? ?]].
Qed.

Lemma foldr_sizes (sizes : list Z) :
  foldr Z.add 0 (map row_size (map sizeRow sizes)) = foldr Z.add 0 sizes.
Proof. induction sizes as [|n sizes IH]; [done|]. cbn. by rewrite IH. Qed.

Lemma foldr_nonneg (sizes : list Z) :
  Forall (λ n, 0 ≤ n) sizes → 0 ≤ foldr Z.add 0 sizes.
Proof. induction 1 as [|n sizes Hn _ IH]; cbn; lia. Qed.

(** X10. How far the fallback of [getTotalBytesInStream] reaches. Let
    the buckets of a stream have the sizes [sizes], none negative, and let
    the backend answer [SUM(size)] with their total wrapped to 32 bits.
    Then the function returns the true total whenever the total is below
    2^32: up to 2^31 - 1 from the sum itself, from there on from the rows it
    adds up after the sum came back negative. The result is never negative.
    From 2^32 on it can be wrong: a wrapped sum that is not negative is
    returned as it is. *)
Theorem getTotalBytesInStream_exact (streamId : string) (partition : Z) w
    (sizes : list Z) :
  Forall (λ n, 0 ≤ n) sizes →
  let total := foldr Z.add 0 sizes in
  client_execute (cassandraClient w) SUM_SIZE [PString streamId; PNumber partition]
    prepared = inr [countRow (wrap32 total)] →
  client_execute (cassandraClient w) SELECT_SIZE
    [PString streamId; PNumber partition] prepared = inr (map sizeRow sizes) →
  let result := (getTotalBytesInStream streamId partition w).1 in
  result = inr (if bool_decide (wrap32 total < 0) then total else wrap32 total)
  ∧ (total < 4294967296 → result = inr total)
  ∧ (total = 4294967296 → result = inr 0)
  ∧ (∃ n, result = inr n ∧ 0 ≤ n).
Proof.
  intros Hsizes total Hsum Hrows result.
  pose proof (foldr_nonneg sizes Hsizes) as Htotal. fold total in Htotal.
  assert (Hresult : result
            = inr (if bool_decide (wrap32 total < 0) then total else wrap32 total)).
  { subst result. case_bool_decide as Hneg.
    - rewrite (getTotalBytesInStream_overflow streamId partition w
                 (countRow (wrap32 total)) (map sizeRow sizes) Hsum Hneg Hrows).
      cbn [fst]. by rewrite foldr_sizes.
    - unfold getTotalBytesInStream. run. rewrite Hsum. cbn [row_count countRow].
      by rewrite bool_decide_eq_false_2 by done. }
  split; [done|]. split; [|split].
  - intros Hbelow. rewrite Hresult. f_equal. unfold wrap32 in *.
    case_bool_decide as Hneg; [done|].
    destruct (decide (total < 2147483648)) as [Hsmall|Hlarge].
    + rewrite Z.mod_small by lia. lia.
    + exfalso. apply Hneg.
      replace (total + 2147483648) with ((total - 2147483648) + 1 * 4294967296) by lia.
      rewrite Z.mod_add by lia. rewrite Z.mod_small by lia. lia.
  - intros Hfull. rewrite Hresult, Hfull. done.
  - rewrite Hresult. eexists. split; [done|]. case_bool_decide; lia.
Qed.

(** ** Start-up *)

Lemma connectTrials_connects driver client o bm retryCount attempt lastError k :
  (k < retryCount)%nat →
  (∀ j, (j < k)%nat → connect driver (attempt + j) ≠ None) →
  connect driver (attempt + k) = None →
  connectTrials (Msg:=Msg) driver client o bm retryCount attempt lastError
  = (failedTrials k ++ [StartConnect],
     inr (LogStore_new client (default (mkLogStoreOptions Absent Absent) o) bm)).
Proof.
  revert retryCount attempt lastError.
  induction k as [|k IH]; intros retryCount attempt lastError Hk Hfail Hok.
  - destruct retryCount as [|retryCount]; [lia|]. cbn [connectTrials].
    rewrite Nat.add_0_r in Hok. by rewrite Hok.
  - destruct retryCount as [|retryCount]; [lia|]. cbn [connectTrials].
    specialize (Hfail 0%nat ltac:(lia)) as Hfirst. rewrite Nat.add_0_r in Hfirst.
    destruct (connect driver attempt) as [err|] eqn:Hc; [|done].
    rewrite (IH retryCount (S attempt) (Some err)); [done|lia| |].
    + intros j Hj. replace (S attempt + j)%nat with (attempt + S j)%nat by lia.
      apply Hfail. lia.
    + by replace (S attempt + k)%nat with (attempt + S k)%nat by lia.
Qed.

Lemma connectTrials_gives_up driver client o bm retryCount attempt lastError :
  (∀ j, (j < retryCount)%nat → connect driver (attempt + j) ≠ None) →
  connectTrials (Msg:=Msg) driver client o bm retryCount attempt lastError
  = (failedTrials retryCount,
     inl ("Failed to connect to Cassandra after 20 trials: "
          +:+ match match retryCount with
                    | O => lastError
                    | S n => connect driver (attempt + n)
                    end with
              | Some err => JsError_toString err
              | None => ""
              end)).
Proof.
  revert attempt lastError.
  induction retryCount as [|retryCount IH]; intros attempt lastError Hfail; [done|].
  cbn [connectTrials].
  specialize (Hfail 0%nat ltac:(lia)) as Hfirst. rewrite Nat.add_0_r in Hfirst.
  destruct (connect driver attempt) as [err|] eqn:Hc; [|done].
  rewrite (IH (S attempt) (Some err)).
  2:{ intros j Hj. replace (S attempt + j)%nat with (attempt + S j)%nat by lia.
      apply Hfail. lia. }
  cbn [failedTrials failedTrial app]. do 2 f_equal.
  destruct retryCount as [|n].
  - by rewrite Nat.add_0_r, Hc.
  - by replace (S attempt + n)%nat with (attempt + S n)%nat by lia.
Qed.

Lemma failedTrials_connects n :
  length (filter (λ ev, isConnect ev = true) (failedTrials n)) = n
  ∧ filter (λ ev, isSleep ev = true) (failedTrials n) = replicate n (StartSleep 5000).
Proof.
  induction n as [|n [IH1 IH2]]; [done|]. cbn [failedTrials failedTrial app].
  split.
  - rewrite filter_cons_True by done. rewrite !filter_cons_False by done.
    cbn [length]. by rewrite IH1.
  - rewrite !filter_cons_False by done. rewrite filter_cons_True by done.
    cbn [replicate]. by rewrite IH2.
Qed.

(** X11. The trials of [startCassandraLogStore]. It builds one client
    and calls [connect] on it until a call succeeds, at most 20 times. If
    the call number [k] (from 0, below 20) is the first to succeed, the
    store is built on that client with the options given (none: the empty
    options), after [k] failed trials, each one a console line and a sleep
    of 5000 ms. If the 20 calls all fail, it has slept 20 times, 5000 ms
    also after the last failure, and throws the error whose message names
    the 20 trials and ends with the text of the error of the last call. *)
Theorem startCassandraLogStore_trials (driver : Driver) (o : StartCassandraOptions)
    (bm : BucketManager) :
  let r := startCassandraLogStore (Msg:=Msg) driver o bm in
  (∀ k, (k < 20)%nat →
     (∀ j, (j < k)%nat → connect driver j ≠ None) →
     connect driver k = None →
     r = (failedTrials k ++ [StartConnect],
          inr (LogStore_new (newClient driver (clientOptions o))
                 (default (mkLogStoreOptions Absent Absent) (start_opts o)) bm))
     ∧ length (filter (λ ev, isConnect ev = true) r.1) = S k
     ∧ filter (λ ev, isSleep ev = true) r.1 = replicate k (StartSleep 5000))
  ∧ (∀ err,
       (∀ j, (j < 19)%nat → connect driver j ≠ None) →
       connect driver 19 = Some err →
       r = (failedTrials 20,
            inl ("Failed to connect to Cassandra after 20 trials: "
                 +:+ JsError_toString err))
       ∧ length (filter (λ ev, isConnect ev = true) r.1) = 20%nat
       ∧ filter (λ ev, isSleep ev = true) r.1 = replicate 20 (StartSleep 5000)).
Proof.
  intros r. subst r. unfold startCassandraLogStore. cbv zeta. split.
  - intros k Hk Hfail Hok.
    rewrite (connectTrials_connects driver _ _ bm 20 0 None k) by done.
    split; [done|]. cbn [fst].
    destruct (failedTrials_connects k) as [Hc Hs].
    rewrite !filter_app, length_app, Hc, Hs.
    rewrite filter_cons_True by done. rewrite filter_cons_False by done.
    cbn. rewrite app_nil_r. split; [lia|done].
  - intros err Hfail Hlast.
    rewrite (connectTrials_gives_up driver _ _ bm 20 0 None).
    2:{ intros j Hj. destruct (decide (j = 19%nat)) as [->|Hne].
        - cbn. by rewrite Hlast.
        - apply Hfail. lia. }
    cbn [Nat.add]. rewrite Hlast. split; [done|]. cbn [fst].
    destruct (failedTrials_connects 20) as [Hc Hs]. by rewrite Hc, Hs.
Qed.

(** ** Metrics *)

Lemma recorded_from (contentLength : Msg → Z) (metrics : Metrics) t :
  foldl (listen contentLength) metrics t
  = mkMetrics
      (readMessagesPerSecond metrics ++ map (λ _, 1) (readNotifications t))
      (readBytesPerSecond metrics ++ map contentLength (readNotifications t))
      (writeMessagesPerSecond metrics ++ map (λ _, 1) (writeNotifications t))
      (writeBytesPerSecond metrics ++ map contentLength (writeNotifications t)).
Proof.
  revert metrics. induction t as [|e t IH]; intros metrics.
  - cbn. rewrite !app_nil_r. by destruct metrics.
  - cbn [foldl]. rewrite IH.
    assert (Hr : readNotifications (e :: t)
                 = match readNotification e with
                   | Some m => m :: readNotifications t
                   | None => readNotifications t
                   end) by done.
    assert (Hw : writeNotifications (e :: t)
                 = match writeNotification e with
                   | Some m => m :: writeNotifications t
                   | None => writeNotifications t
                   end) by done.
    rewrite Hr, Hw. clear Hr Hw IH.
    destruct e as [| name m | | | | | | | | | | | | |];
      cbn [listen readNotification writeNotification]; try done.
    repeat case_bool_decide; simplify_eq;
      cbn [onRead onWrite readMessagesPerSecond readBytesPerSecond
           writeMessagesPerSecond writeBytesPerSecond map];
      by rewrite <- ?app_assoc.
Qed.

Lemma recorded_trace (contentLength : Msg → Z) t :
  recorded contentLength t
  = mkMetrics (map (λ _, 1) (readNotifications t))
              (map contentLength (readNotifications t))
              (map (λ _, 1) (writeNotifications t))
              (map contentLength (writeNotifications t)).
Proof. unfold recorded. by rewrite recorded_from. Qed.

Lemma writeNotifications_reading t :
  Forall (λ e, isReadEvent e = true) t → writeNotifications t = [].
Proof.
  induction 1 as [|e t He _ IH]; [done|].
  assert (Hw : writeNotifications (e :: t)
               = match writeNotification e with
                 | Some m => m :: writeNotifications t
                 | None => writeNotifications t
                 end) by done.
  rewrite Hw, IH. clear Hw IH.
  destruct e as [| name m | | | | | | | | | | | | |]; try done.
  cbn [isReadEvent writeNotification] in *.
  apply bool_decide_eq_true in He as ->. done.
Qed.

Lemma readNotifications_app t1 t2 :
  readNotifications (t1 ++ t2) = readNotifications t1 ++ readNotifications t2.
Proof. apply omap_app. Qed.

Lemma makeLastQuery_notifies s p limit ids rs w :
  rs_status rs = Open → rs_pushed rs = [] →
  let r := makeLastQuery s p limit ids rs w in
  ∃ t, r.2 = emitted t w ∧ readNotifications t = rs_pushed r.1.
Proof.
  intros Hopen Hnil r. subst r. rewrite makeLastQuery_run by done. cbv zeta.
  destruct (client_execute _ _ _ _) as [err|rows]; cbn [fst snd rs_pushed];
    eexists; (split; [done|]); rewrite Hnil; [done|].
  change (?e :: ?l) with ([e] ++ l).
  by rewrite readNotifications_app, readNotifications_rows.
Qed.

Lemma pageCallback_notifies s p limit hasNext rows sc rs w :
  rs_status rs = Open → rs_pushed rs = [] →
  let r := pageCallback s p limit hasNext rows sc rs w in
  ∃ t, r.2 = emitted t w
       ∧ readNotifications t
         = match r.1 with inl rs1 => rs_pushed rs1 | inr _ => [] end.
Proof.
  intros Hopen Hnil r. subst r. unfold pageCallback. cbv zeta.
  unfold ended. rewrite Hopen.
  destruct (scan_bucketId (foldl rowCallback sc rows)) as [bucketId|].
  2:{ exists []. run. rewrite emitted_nil. split; [done|].
      unfold stream_end. by rewrite Hopen. }
  run. destruct (client_execute _ _ _ _) as [err|counted].
  { run. eexists. split; [done|]. unfold destroy. by rewrite Hopen. }
  destruct (head counted) as [row|].
  2:{ run. eexists. split; [done|]. unfold destroy. by rewrite Hopen. }
  destruct (_ && _ && _).
  { run. eexists. by split. }
  run.
  destruct (makeLastQuery_notifies s p limit
              (scan_bucketIds (foldl rowCallback sc rows)) rs
              (emitted [EvExecute COUNT_MESSAGES
                          [PString s; PNumber p; PBucketId bucketId] noPaging] w)
              Hopen Hnil) as (t & Hw & Hout).
  cbv zeta in Hw, Hout. rewrite Hw. run. eexists. split; [done|].
  by rewrite readNotifications_app.
Qed.

Lemma lastPages_notifies s p limit pages sc rs w :
  rs_status rs = Open → rs_pushed rs = [] →
  let r := lastPages s p limit pages sc rs w in
  ∃ t, r.2 = emitted t w ∧ readNotifications t = rs_pushed r.1.
Proof.
  intros Hopen Hnil. revert sc w.
  induction pages as [rows|rows next IH|err]; intros sc w r; subst r;
    cbn [lastPages].
  - run.
    destruct (pageCallback_notifies s p limit false rows sc rs w Hopen Hnil)
      as (t & Hw & Hout). cbv zeta in Hw, Hout.
    exists t. split; [done|].
    destruct (pageCallback s p limit false rows sc rs w).1; [done|].
    by rewrite Hnil.
  - run.
    destruct (pageCallback_notifies s p limit true rows sc rs w Hopen Hnil)
      as (t & Hw & Hout). cbv zeta in Hw, Hout.
    destruct (pageCallback s p limit true rows sc rs w).1 as [rs1|sc1].
    + run. by exists t.
    + rewrite Hw. destruct (IH sc1 (emitted t w)) as (t1 & Hw1 & Hout1).
      rewrite Hw1. run. eexists. split; [done|].
      by rewrite readNotifications_app, Hout.
  - run. exists []. rewrite emitted_nil. split; [done|].
    unfold ended, destroy. by rewrite Hopen.
Qed.

(** X12. The metrics of [enableMetrics] follow the messages. A last-N
    read and a range read record, for each message they deliver and in the
    order of delivery, a 1 at the rate of read messages and the length of its
    content at the rate of read bytes, and nothing else. [store] records
    nothing when it is called; when the batch manager reports success on a
    message, a 1 and the length of its content are recorded at the rates of
    written messages and bytes, and nothing when it reports an error. *)
Theorem metrics_follow_messages (contentLength : Msg → Z) w :
  (∀ streamId partition limit,
     let r := requestLast streamId partition limit w in
     recorded contentLength (issued w r.2)
     = mkMetrics (map (λ _, 1) (rs_pushed r.1)) (map contentLength (rs_pushed r.1))
                 [] [])
  ∧ (∀ streamId partition fromTimestamp fromSequenceNo toTimestamp toSequenceNo
       publisherId msgChainId,
       let r := fetchRange streamId partition fromTimestamp fromSequenceNo
                  toTimestamp toSequenceNo publisherId msgChainId w in
       recorded contentLength (issued w r.2)
       = mkMetrics (map (λ _, 1) (rs_pushed r.1))
                   (map contentLength (rs_pushed r.1)) [] [])
  ∧ (∀ m, recorded contentLength (issued w (store m w).2) = newMetrics)
  ∧ (∀ i b m p,
       batch_queue (batchManager w) !! i = Some (b, m, StoreDone m p) →
       recorded contentLength (issued w (batchDone i None w).2)
       = mkMetrics [] [] [1] [contentLength m]
       ∧ ∀ err, recorded contentLength (issued w (batchDone i (Some err) w).2)
                = newMetrics).
Proof.
  split; [|split; [|split]].
  - intros streamId partition limit r. rewrite recorded_trace.
    destruct (reading_readOnly (requestLast streamId partition limit)) with (w := w)
      as (t & Ht & Hreads).
    { split; [apply log_only_requestLast|].
      assert (Hr : reading (requestLast streamId partition limit))
        by (unfold requestLast; reading).
      apply Hr. }
    fold r in Ht. rewrite Ht, issued_emitted.
    rewrite (writeNotifications_reading t Hreads). cbn [map].
    assert (Hnotified : readNotifications t = rs_pushed r.1).
    { subst r. unfold requestLast in *. cbv zeta in *. revert Ht. run.
      set (clamped := if bool_decide (limit > MAX_RESEND_LAST) then _ else _).
      set (info := mkDebugInfo _ _ _ _ _ _ _ _ _).
      set (w1 := emitted _ w).
      destruct (lastPages_notifies streamId partition clamped
                  (client_eachRow (cassandraClient w) GET_BUCKETS
                     [PString streamId; PNumber partition]
                     (mkOptions true (Some 1) None))
                  (mkLastScan None [] 0) (createResultStream info) w1)
        as (t1 & Hw1 & Hout1); [done..|].
      cbv zeta in Hw1, Hout1. rewrite Hw1. subst w1. run. intros Heq.
      apply (f_equal (issued w)) in Heq. rewrite !issued_emitted in Heq.
      subst t. by rewrite !readNotifications_app. }
    by rewrite Hnotified.
  - intros streamId partition fromTimestamp fromSequenceNo toTimestamp toSequenceNo
      publisherId msgChainId r. rewrite recorded_trace.
    destruct (reading_readOnly
                (fetchRange streamId partition fromTimestamp fromSequenceNo
                   toTimestamp toSequenceNo publisherId msgChainId)) with (w := w)
      as (t & Ht & Hreads); [apply reading_fetchRange|].
    fold r in Ht. rewrite Ht, issued_emitted.
    rewrite (writeNotifications_reading t Hreads). cbn [map].
    assert (Hnotified : readNotifications t = rs_pushed r.1).
    { subst r. revert Ht. rewrite fetchRange_run. cbv zeta.
      destruct (bm_range _ _ _ _ _) as [err|[|bucket buckets]]; cbn [fst snd];
        intros Heq; apply (f_equal (issued w)) in Heq;
        rewrite !issued_emitted in Heq; subst t; [done|done|].
      cbn [rs_pushed]. change (?e :: ?l) with ([e] ++ l).
      rewrite !readNotifications_app, readNotifications_rows.
      set (queries := map (addFilters publisherId msgChainId) _).
      assert (Hnone : readNotifications
                (map (λ q : Query, EvStream (Msg:=Msg) (selectOf q) (q_params q)
                                     streaming) queries) = []).
      { induction queries as [|q queries IH]; [done|]. cbn. apply IH. }
      by rewrite Hnone, readNotifications_escaped, app_nil_r. }
    by rewrite Hnotified.
  - intros m. rewrite recorded_trace, store_run. cbn [snd].
    set (w0 := set_promises _ _).
    destruct (bm_lookup (bucketManager w0) (getStreamId m) (getStreamPartition m)
                (getTimestamp m)) as [b|] eqn:Hb.
    + rewrite (storeWith_found m _ w0 b Hb). cbn [snd]. unfold issued. fields.
      by rewrite drop_app_length.
    + rewrite (storeWith_parked m _ w0 Hb). cbn [snd]. unfold issued. fields.
      by rewrite drop_app_length.
  - intros i b m p Hi. split; [|intros err]; rewrite recorded_trace;
      unfold batchDone; compute_run; rewrite Hi; cbv beta iota;
      unfold runCallback, reject, resolve, settle; compute_run; fields;
      destruct (promises w !! p) as [[| |]|]; cbv beta iota; cbn [snd];
      unfold issued; fields; rewrite ?drop_app_length, ?drop_all; done.
Qed.

End Properties.

(** * The properties on the sample store *)

Section Sample.

#[local] Existing Instance sampleCodec.

Lemma requestLast_bounded_oldest_first_witness :
  rs_pushed (requestLast "s1" 0 3 sampleWorld).1
    = [mkSample 101 0; mkSample 102 0; mkSample 103 0]
  ∧ (length (rs_pushed (requestLast "s1" 0 3 sampleWorld).1) ≤ 3)%nat
  ∧ oldestFirst (rs_pushed (requestLast "s1" 0 3 sampleWorld).1).
Proof.
  split; [by vm_compute|].
  assert (Hbackend : ∀ bucketIds rows,
            client_execute (cassandraClient sampleWorld) GET_LAST_N_MESSAGES
              [PString "s1"; PNumber 0; PBucketIds bucketIds;
               PNumber (Z.min 3 10000)] noPaging = inr rows →
            (length rows ≤ Z.to_nat (Z.min 3 10000))%nat
            ∧ newestFirst (decoded rows)).
  { intros bucketIds rows [= <-]. split; [vm_compute; lia|].
    vm_compute. repeat constructor; right; split; lia. }
  destruct (requestLast_bounded_oldest_first "s1" 0 3 sampleWorld Hbackend)
    as (Hlen & Hsorted & _).
  split; [exact Hlen|exact Hsorted].
Defined.

Lemma requestRange_validation_witness :
  (requestRange "s1" 0 100 0 104 2147483647 (Some "0xabc") None sampleWorld).1
    = inl "Invalid combination of requestFrom arguments"
  ∧ Forall (λ e, isBackendCall e = false)
      (issued sampleWorld
         (requestRange "s1" 0 100 0 104 2147483647 (Some "0xabc") None
            sampleWorld).2).
Proof.
  destruct (requestRange_validation "s1" 0 100 0 104 2147483647 (Some "0xabc") None
              sampleWorld) as (_ & Hinvalid & _).
  destruct Hinvalid as (Hthrown & _ & Hcalls); [by right|].
  split; [exact Hthrown|exact Hcalls].
Defined.

Lemma fetchRange_query_plan_witness :
  physicalQueries
    (issued sampleWorld
       (fetchRange "s1" 0 100 0 104 2147483647 None None sampleWorld).2)
  = [ ("SELECT payload FROM stream_data WHERE stream_id = ? AND partition = ? AND bucket_id IN ? AND ts >= ? AND ts <= ? ALLOW FILTERING",
       [PString "s1"; PNumber 0; PBucketIds ["A"; "B"]; PNumber 100; PNumber 104]) ].
Proof.
  assert (Hne : [mkBucket "A"; mkBucket "B"] ≠ []) by done.
  exact (proj1 (fetchRange_query_plan "s1" 0 100 0 104 2147483647 None None
                  sampleWorld [mkBucket "A"; mkBucket "B"] eq_refl Hne)
               (conj eq_refl eq_refl)).
Defined.


Lemma requestLast_page_scan_witness :
  filter (λ e, isBackendCall e = true)
    (issued sampleWorld (requestLast "s1" 0 3 sampleWorld).2)
  = [ EvEachRow GET_BUCKETS [PString "s1"; PNumber 0] (mkOptions true (Some 1) None);
      EvExecute COUNT_MESSAGES [PString "s1"; PNumber 0; PBucketId "B"] noPaging;
      EvNextPage;
      EvExecute COUNT_MESSAGES [PString "s1"; PNumber 0; PBucketId "A"] noPaging;
      EvExecute GET_LAST_N_MESSAGES
        [PString "s1"; PNumber 0; PBucketIds ["B"; "A"]; PNumber 3] noPaging ]
  ∧ filter (λ e, isBackendCall e = true)
      (issued gapWorld (requestLast "s1" 0 3 gapWorld).2)
    = [ EvEachRow GET_BUCKETS [PString "s1"; PNumber 0] (mkOptions true (Some 1) None);
        EvExecute COUNT_MESSAGES [PString "s1"; PNumber 0; PBucketId "B"] noPaging;
        EvNextPage;
        EvExecute COUNT_MESSAGES [PString "s1"; PNumber 0; PBucketId "B"] noPaging;
        EvExecute GET_LAST_N_MESSAGES
          [PString "s1"; PNumber 0; PBucketIds ["B"]; PNumber 3] noPaging ].
Proof.
  split.
  2: {
    assert (Hne : [idRow "B"] ≠ []) by done.
    assert (Hcount : ∀ b, b ∈ listedIds [[idRow "B"]; []; [idRow "A"]] →
              client_execute (cassandraClient gapWorld) COUNT_MESSAGES
                [PString "s1"; PNumber 0; PBucketId b] noPaging
              = inr [totalRow 2]
              ∧ 0 ≤ 2 < 2147483648) by (intros b _; split; [reflexivity|lia]).
    destruct (requestLast_page_scan "s1" 0 3 gapWorld [idRow "B"] [[]; [idRow "A"]]
                (λ _, 2) Hne eq_refl Hcount)
      as [(k & Hk & Hcalls & Hbefore & Hstop) _].
    assert (k = 2%nat) as ->.
    { destruct k as [|[|[|k]]]; [simpl in Hk; lia| |reflexivity|].
      - vm_compute in Hstop. destruct Hstop as [Hstop|[Hstop|Hstop]];
          [discriminate Hstop|destruct Hstop; reflexivity|destruct Hstop; reflexivity].
      - destruct (Hbefore 2%nat ltac:(lia)) as [Hless _].
        vm_compute in Hless. discriminate Hless. }
    exact Hcalls. }
  assert (Hne : [idRow "B"] ≠ []) by done.
  assert (Hcount : ∀ b, b ∈ listedIds [[idRow "B"]; [idRow "A"]] →
            client_execute (cassandraClient sampleWorld) COUNT_MESSAGES
              [PString "s1"; PNumber 0; PBucketId b] noPaging
            = inr [totalRow 2]
            ∧ 0 ≤ 2 < 2147483648) by (intros b _; split; [reflexivity|lia]).
  destruct (requestLast_page_scan "s1" 0 3 sampleWorld [idRow "B"] [[idRow "A"]]
              (λ _, 2) Hne eq_refl Hcount)
    as [(k & Hk & Hcalls & _ & Hstop) _].
  assert (k = 2%nat) as ->.
  { destruct k as [|[|k]]; [simpl in Hk; lia| |simpl in Hk; lia].
    vm_compute in Hstop. destruct Hstop as [Hstop|[Hstop|Hstop]];
      [discriminate Hstop|destruct Hstop; reflexivity|destruct Hstop; reflexivity]. }
  exact Hcalls.
Defined.

(** C5 fails for [getNumberOfMessagesInStream]. The two buckets of the
    sample store count 1073741824 records each, 2147483648 together; the
    backend's 32-bit [SUM(records)] reports -2147483648, and that is what
    the function returns, after that one query. [getTotalBytesInStream]
    meets the same overflow of [SUM(size)] and returns the 2147483648 it
    adds up row by row. *)
Theorem getNumberOfMessagesInStream_overflow_unhandled :
  foldr Z.add 0 sampleRecords = 2147483648
  ∧ getNumberOfMessagesInStream "s1" 0 sampleWorld
    = (inr (-2147483648),
       emitted [EvExecute SUM_RECORDS [PString "s1"; PNumber 0] prepared] sampleWorld)
  ∧ (getTotalBytesInStream "s1" 0 sampleWorld).1 = inr 2147483648.
Proof. by vm_compute. Qed.

Lemma store_coordinator_witness :
  (bm_counters (bucketManager (store (mkSample 103 0) sampleWorld).2) !! "B"
     = Some (5, 1)
   ∧ immediates (store (mkSample 103 0) sampleWorld).2
     = [BatchStoreTask "B" (mkSample 103 0) (store (mkSample 103 0) sampleWorld).1])
  ∧ (∃ uuid h,
       pendingStores parkedWorld = <[uuid := h]> (pendingStores sampleWorld)
       ∧ timers parkedWorld
         = <[h := (Some 500,
                   RetryStoreTask uuid earlyMessage (store earlyMessage sampleWorld).1)]>
             (timers sampleWorld)
       ∧ ∀ w2 delay,
           timers w2 !! h
             = Some (delay,
                     RetryStoreTask uuid earlyMessage
                       (store earlyMessage sampleWorld).1) →
           promises (fireTimer h w2).2 = promises w2)
  ∧ retriesIntervalMilliseconds
      (opts (LogStore_new (Msg:=SampleMessage) sampleClient
               (mkLogStoreOptions Absent (Present None)) sampleBucketManager))
    = None.
Proof.
  split; [|split].
  - destruct (store_coordinator (mkSample 103 0) sampleWorld) as (_ & Hfound & _).
    destruct (Hfound "B" eq_refl) as (_ & Hcounters & Himmediates & _).
    split; [exact Hcounters|exact Himmediates].
  - destruct (store_coordinator earlyMessage sampleWorld) as (_ & _ & Hparked & _).
    destruct (Hparked eq_refl) as (uuid & h & Hpending & Htimers & _ & _ & _ & _ & Hretry).
    exists uuid, h. split; [exact Hpending|]. split; [exact Htimers|].
    intros w2 delay Htimer.
    destruct (Hretry w2 delay Htimer) as (_ & _ & Hpromises & _).
    exact Hpromises.
  - destruct (store_coordinator earlyMessage sampleWorld) as (_ & _ & _ & _ & Hinterval).
    exact (Hinterval sampleClient (mkLogStoreOptions Absent (Present None))
             sampleBucketManager).
Defined.

Lemma requestFrom_is_fetchRange_witness :
  (requestFrom "s1" 0 102 0 None sampleWorld).1
  = (fetchRange "s1" 0 102 0 8640000000000000 2147483647 None None sampleWorld).1.
Proof.
  exact (proj1 (requestFrom_is_fetchRange "s1" 0 102 0 None sampleWorld)).
Defined.



Lemma parkedWorld_reachable : reachable parkedWorld.
Proof.
  exists sampleClient, (mkLogStoreOptions Absent Absent), sampleBucketManager.
  apply rtc_once. apply step_store.
Qed.

Lemma close_cancels_parked_witness :
  pendingStores parkedWorld !! 1%nat = Some 2%nat
  ∧ pendingStores (close parkedWorld).2 = ∅
  ∧ timers (close parkedWorld).2 = ∅.
Proof.
  split; [by vm_compute|].
  destruct (close_cancels_parked parkedWorld parkedWorld_reachable)
    as (Hpending & Htimers & _).
  split; [exact Hpending|exact Htimers].
Defined.

Lemma requestFrom_no_validation_witness :
  (requestRange "s1" 0 102 0 MAX_TIMESTAMP_VALUE MAX_SEQUENCE_NUMBER_VALUE
     (Some "0xabc") None sampleWorld).1
    = inl "Invalid combination of requestFrom arguments"
  ∧ physicalQueries (issued sampleWorld (requestFrom "s1" 0 102 0 (Some "0xabc") sampleWorld).2)
    = map (λ q, ("SELECT payload FROM stream_data " +:+ q_where q
                   +:+ " AND publisher_id = ?" +:+ " ALLOW FILTERING",
                 q_params q ++ [PString "0xabc"]))
          (rangeQueries "s1" 0 102 0 MAX_TIMESTAMP_VALUE MAX_SEQUENCE_NUMBER_VALUE
             ["A"; "B"]).
Proof.
  destruct (requestFrom_no_validation "s1" 0 102 0 "0xabc" sampleWorld)
    as (_ & Hqueries & Hthrown & _).
  assert (Hne : [mkBucket "A"; mkBucket "B"] ≠ []) by done.
  assert (Hpub : "0xabc" ≠ "") by done.
  split; [exact Hthrown|].
  exact (Hqueries [mkBucket "A"; mkBucket "B"] eq_refl Hne Hpub).
Defined.

Lemma fetchRange_result_witness :
  (rs_pushed (fetchRange "s1" 0 100 0 104 2147483647 None None sampleWorld).1
     = [mkSample 102 0; mkSample 103 0]
   ∧ rs_status (fetchRange "s1" 0 100 0 104 2147483647 None None sampleWorld).1
     = Ended)
  ∧ rs_pushed (fetchRange "s1" 0 100 0 104 2147483647 None None corruptWorld).1
    = [mkSample 101 0]
  ∧ rs_status (fetchRange "s1" 0 100 0 104 2147483647 None None corruptWorld).1
    = Open
  ∧ last (issued corruptWorld
            (fetchRange "s1" 0 100 0 104 2147483647 None None corruptWorld).2)
    = Some (EvUncaughtException "SyntaxError: Unexpected token in JSON").
Proof.
  assert (Hne : [mkBucket "A"; mkBucket "B"] ≠ []) by done.
  split.
  - destruct (fetchRange_result "s1" 0 100 0 104 2147483647 None None sampleWorld)
      as (_ & _ & _ & Hfound).
    destruct (Hfound [mkBucket "A"; mkBucket "B"] eq_refl Hne)
      as (_ & Hall & _).
    destruct (Hall eq_refl) as (Hpushed & Hstatus & _).
    split; [exact Hpushed|exact Hstatus].
  - destruct (fetchRange_result "s1" 0 100 0 104 2147483647 None None corruptWorld)
      as (_ & _ & _ & Hfound).
    destruct (Hfound [mkBucket "A"; mkBucket "B"] eq_refl Hne)
      as (_ & _ & Hcorrupt & _).
    exact (Hcorrupt [samplePayload 101 0] (payloadRow (Some "garbage"))
             [samplePayload 103 0] "SyntaxError: Unexpected token in JSON"
             eq_refl eq_refl eq_refl).
Defined.

Lemma requestLast_stops_early_witness :
  rs_status (requestLast "s1" 0 3 emptyWorld).1 = Ended
  ∧ rs_pushed (requestLast "s1" 0 3 emptyWorld).1 = []
  ∧ filter (λ e, isBackendCall e = true)
      (issued emptyWorld (requestLast "s1" 0 3 emptyWorld).2)
    = [EvEachRow GET_BUCKETS [PString "s1"; PNumber 0]
         (mkOptions true (Some 1) None)].
Proof.
  destruct (requestLast_stops_early "s1" 0 3 emptyWorld) as (_ & Hempty & _).
  exact (Hempty (or_introl eq_refl)).
Defined.

Lemma sampleWorld_reachable : reachable sampleWorld.
Proof.
  exists sampleClient, (mkLogStoreOptions Absent Absent), sampleBucketManager.
  apply rtc_refl.
Qed.

Lemma batchedWorld_reachable : reachable batchedWorld.
Proof.
  exists sampleClient, (mkLogStoreOptions Absent Absent), sampleBucketManager.
  eapply rtc_l; [apply (step_store (mkSample 103 0))|].
  apply rtc_once. apply step_loop. apply loop_immediate.
Qed.

Lemma pendingStores_mirror_timers_witness :
  ∃ delay m p,
    timers parkedWorld !! 2%nat = Some (delay, RetryStoreTask 1%nat m p).
Proof.
  destruct (pendingStores_mirror_timers parkedWorld parkedWorld_reachable)
    as [Hmirror _].
  apply (proj1 (Hmirror 1%nat 2%nat)). by vm_compute.
Defined.

Lemma batch_report_settles_witness :
  ∃ p,
    promises batchedWorld !! p = Some Pending
    ∧ promises (batchDone 0 None batchedWorld).2 !! p = Some (Resolved true)
    ∧ issued batchedWorld (batchDone 0 None batchedWorld).2
      = [EvEmit "write" (mkSample 103 0)].
Proof.
  assert (Hentry : batch_queue (batchManager batchedWorld) !! 0%nat
                   = Some ("B", mkSample 103 0, StoreDone (mkSample 103 0) 0%nat))
    by (by vm_compute).
  destruct (batch_report_settles batchedWorld 0 "B" (mkSample 103 0)
              (StoreDone (mkSample 103 0) 0%nat) batchedWorld_reachable Hentry)
    as (p & _ & Hpending & (Hresolved & Hwrite) & _).
  exists p. split; [exact Hpending|]. split; [|exact Hwrite].
  rewrite Hresolved. apply lookup_insert_eq.
Defined.

Lemma close_abandons_parked_witness :
  promises parkedWorld !! 0%nat = Some Pending
  ∧ promises (close parkedWorld).2 !! 0%nat = Some Pending.
Proof.
  assert (Htimer : timers parkedWorld !! 2%nat
                   = Some (Some 500, RetryStoreTask 1%nat earlyMessage 0%nat))
    by (by vm_compute).
  destruct (close_abandons_parked parkedWorld 2 (Some 500) 1 earlyMessage 0
              parkedWorld_reachable Htimer) as [Hbefore Hafter].
  split; [exact Hbefore|]. apply Hafter. apply rtc_refl.
Defined.

Lemma retry_outcome_witness :
  size (pendingStores (fireTimer 2 parkedWorld).2) = size (pendingStores parkedWorld)
  ∧ promises (fireTimer 2 parkedWorld).2 = promises parkedWorld.
Proof.
  assert (Htimer : timers parkedWorld !! 2%nat
                   = Some (Some 500, RetryStoreTask 1%nat earlyMessage 0%nat))
    by (by vm_compute).
  destruct (retry_outcome parkedWorld 2 (Some 500) 1 earlyMessage 0
              parkedWorld_reachable Htimer) as (_ & Hpromises & _ & Hparked).
  destruct (Hparked eq_refl) as (uuid1 & h1 & _ & _ & _ & _ & _ & _ & Hsize).
  split; [exact Hsize|exact Hpromises].
Defined.

Lemma summaries_default_to_zero_witness :
  (getNumberOfMessagesInStream "s1" 0 emptyWorld).1 = inr 0
  ∧ (getFirstMessageTimestampInStream "s1" 0 emptyWorld).1 = inr 0.
Proof.
  destruct (summaries_default_to_zero "s1" 0 emptyWorld)
    as (Hfirst & _ & _ & _ & Hnumber & _).
  assert (Hlen : length ([] : list Row) ≠ 1%nat) by done.
  split.
  - exact (f_equal fst (Hnumber [] eq_refl Hlen)).
  - exact (f_equal fst (Hfirst [] eq_refl Hlen)).
Defined.

Lemma getTotalBytesInStream_exact_witness :
  (getTotalBytesInStream "s1" 0 sampleWorld).1 = inr 2147483648.
Proof.
  assert (Hsizes : Forall (λ n, 0 ≤ n) sampleSizes)
    by (repeat constructor; done).
  destruct (getTotalBytesInStream_exact "s1" 0 sampleWorld sampleSizes Hsizes
              eq_refl eq_refl) as (_ & Hexact & _).
  apply Hexact. by vm_compute.
Defined.

Lemma startCassandraLogStore_trials_witness :
  startCassandraLogStore sampleDriver sampleStart sampleBucketManager
  = (failedTrials 2 ++ [StartConnect], inr sampleWorld).
Proof.
  destruct (startCassandraLogStore_trials (Msg:=SampleMessage) sampleDriver
              sampleStart sampleBucketManager) as [Hconnects _].
  assert (Hk : (2 < 20)%nat) by lia.
  assert (Hfail : ∀ j, (j < 2)%nat → connect sampleDriver j ≠ None).
  { intros j Hj. cbn. by rewrite bool_decide_eq_true_2 by done. }
  exact (proj1 (Hconnects 2%nat Hk Hfail eq_refl)).
Defined.

Lemma metrics_follow_messages_witness :
  recorded sampleContentLength
    (issued batchedWorld (batchDone 0 None batchedWorld).2)
  = mkMetrics [] [] [1] [5].
Proof.
  destruct (metrics_follow_messages sampleContentLength batchedWorld)
    as (_ & _ & _ & Hbatch).
  exact (proj1 (Hbatch 0%nat "B" (mkSample 103 0) 0%nat eq_refl)).
Defined.

End Sample.

(** * The properties of SystemRecovery *)

Section SystemRecoveryProperties.

Import SystemRecovery.

Context {Item : Type}.

Implicit Types (st : State Item) (entries : list (string * RecoveryProgress)).

Lemma Map_get_set_eq {V} key (value : V) (entries : list (string * V)) :
  Map_get key (Map_set key value entries) = Some value.
Proof.
  induction entries as [|[k v] entries IH]; cbn [Map_set Map_get].
  - by rewrite bool_decide_eq_true_2.
  - case_bool_decide as Hk; cbn [Map_get].
    + by rewrite bool_decide_eq_true_2.
    + by rewrite bool_decide_eq_false_2.
Qed.

Lemma Map_get_set_ne {V} key other (value : V) (entries : list (string * V)) :
  other ≠ key →
  Map_get other (Map_set key value entries) = Map_get other entries.
Proof.
  intros Hne. induction entries as [|[k v] entries IH]; cbn [Map_set Map_get].
  - by rewrite bool_decide_eq_false_2.
  - case_bool_decide as Hk; cbn [Map_get].
    + subst k. by rewrite !bool_decide_eq_false_2 by done.
    + by rewrite IH.
Qed.

Lemma foldr_min_start (a b : Z) (l : list Z) :
  foldr Z.min (Z.min a b) l = Z.min b (foldr Z.min a l).
Proof. induction l as [|x l IH]; cbn; lia. Qed.

Lemma progressLoop_isComplete entries ts complete :
  isComplete (progressLoop entries ts complete) = true
  ↔ complete = true ∧ Forall finishedProgress entries.
Proof.
  revert ts complete.
  induction entries as [|[k progress] entries IH]; intros ts complete;
    cbn [progressLoop].
  - cbn. split; [by intros ->|by intros [-> _]].
  - destruct (timestamp progress) as [t|] eqn:Ht.
    + rewrite IH. rewrite andb_true_iff, Forall_cons. unfold finishedProgress.
      cbn [snd]. rewrite Ht. intuition congruence.
    + cbn. split; [done|]. intros [_ Hall]. apply Forall_cons in Hall as [[Hno _] _].
      cbn [snd] in Hno. by rewrite Ht in Hno.
Qed.

Lemma progressLoop_timestamp_None entries ts complete :
  timestamp (progressLoop entries ts complete) = None
  ↔ Exists (λ entry, timestamp entry.2 = None) entries.
Proof.
  revert ts complete.
  induction entries as [|[k progress] entries IH]; intros ts complete;
    cbn [progressLoop].
  - cbn. split; [done|]. by intros ?%Exists_nil.
  - rewrite Exists_cons. cbn [snd].
    destruct (timestamp progress) as [t|] eqn:Ht.
    + rewrite IH. intuition congruence.
    + cbn. tauto.
Qed.

Lemma progressLoop_timestamp entries ts complete :
  Forall (λ entry, timestamp entry.2 ≠ None) entries →
  timestamp (progressLoop entries ts complete)
  = Some (foldr Z.min ts (timestamps entries)).
Proof.
  revert ts complete.
  induction entries as [|[k progress] entries IH]; intros ts complete Hall;
    cbn [progressLoop]; [done|].
  apply Forall_cons in Hall as [Hk Hall]. cbn [snd] in Hk.
  unfold timestamps. cbn [omap list_omap snd].
  destruct (timestamp progress) as [t|]; [|done].
  rewrite IH by done. cbn [foldr]. f_equal. apply foldr_min_start.
Qed.

(** X13. The getter [progress] of the recovery. The whole is complete
    exactly when every broker known has a timestamp and is complete; as soon
    as one has no timestamp, the answer has none and is not complete; when
    all have one, the answer's timestamp is their minimum, capped by
    [MAX_SAFE_INTEGER]. With no broker known the answer is complete, at
    [MAX_SAFE_INTEGER]. *)
Theorem progress_of_all st :
  (isComplete (progress st) = true ↔ Forall finishedProgress (progresses st))
  ∧ (timestamp (progress st) = None
     ↔ Exists (λ entry, timestamp entry.2 = None) (progresses st))
  ∧ (timestamp (progress st) = None → isComplete (progress st) = false)
  ∧ (Forall (λ entry, timestamp entry.2 ≠ None) (progresses st) →
     timestamp (progress st)
     = Some (foldr Z.min MAX_SAFE_INTEGER (timestamps (progresses st))))
  ∧ (progresses st = [] → progress st = mkProgress (Some MAX_SAFE_INTEGER) true).
Proof.
  unfold progress. split; [|split; [|split; [|split]]].
  - rewrite progressLoop_isComplete. tauto.
  - apply progressLoop_timestamp_None.
  - intros Hnone. apply progressLoop_timestamp_None in Hnone.
    apply not_true_is_false. rewrite progressLoop_isComplete.
    intros [_ Hall]. apply Exists_exists in Hnone as (entry & Hin & Hno).
    rewrite Forall_forall in Hall. by destruct (Hall entry Hin).
  - apply progressLoop_timestamp.
  - by intros ->.
Qed.

Lemma Map_set_set {V} key (v1 v2 : V) (entries : list (string * V)) :
  Map_set key v2 (Map_set key v1 entries) = Map_set key v2 entries.
Proof.
  induction entries as [|[k v] entries IH]; cbn [Map_set].
  - by rewrite bool_decide_eq_true_2.
  - case_bool_decide as Hk; cbn [Map_set].
    + by rewrite bool_decide_eq_true_2.
    + rewrite bool_decide_eq_false_2 by done. by rewrite IH.
Qed.

Lemma setProgress_known publisher f st before :
  Map_get publisher (progresses st) = Some before →
  setProgress publisher f st
  = mkState (requestId st) (Map_set publisher (f before) (progresses st))
            (subscribed st) (trace st).
Proof. intros Hget. unfold setProgress. by rewrite Hget. Qed.

(** The progresses after the publisher of a message was looked up, and
    entered if it was not known. *)
Lemma entered_known (publisher : string) entries :
  Map_get publisher
    (match Map_get publisher entries with
     | Some _ => entries
     | None => Map_set publisher (mkProgress None false) entries
     end)
  = Some (default (mkProgress None false) (Map_get publisher entries)).
Proof.
  destruct (Map_get publisher entries) as [before|] eqn:Hget; [done|].
  apply Map_get_set_eq.
Qed.

Lemma replay_run (metadata : MessageMetadata) (payload : list Item) st before :
  Map_get (publisherId metadata) (progresses st) = Some before →
  replay metadata payload st
  = mkState (requestId st)
      (match payload with
       | [] => progresses st
       | _ => Map_set (publisherId metadata)
                (mkProgress (Some (metadata_timestamp metadata)) (isComplete before))
                (progresses st)
       end)
      (subscribed st) (trace st ++ map EvOnSystemMessage payload).
Proof.
  revert st before. induction payload as [|item payload IH]; intros st before Hget.
  - cbn. rewrite app_nil_r. by destruct st.
  - unfold replay in *. cbn [foldl].
    rewrite (setProgress_known _ _ _ before) by done.
    cbn [log requestId progresses subscribed trace].
    rewrite (IH _ (mkProgress (Some (metadata_timestamp metadata))
                              (isComplete before)))
      by (cbn [progresses]; apply Map_get_set_eq).
    cbn [requestId progresses subscribed trace isComplete map].
    rewrite <- app_assoc. cbn [app]. f_equal.
    destruct payload; [done|]. by rewrite Map_set_set.
Qed.

Lemma onMessage_complete_run requestId0 (metadata : MessageMetadata) st :
  requestId st = Some requestId0 →
  let entered :=
    match Map_get (publisherId metadata) (progresses st) with
    | Some _ => progresses st
    | None => Map_set (publisherId metadata) (mkProgress None false) (progresses st)
    end in
  let before :=
    default (mkProgress None false) (Map_get (publisherId metadata) (progresses st)) in
  let after :=
    Map_set (publisherId metadata)
      (mkProgress (Some (default 0 (timestamp before))) true) entered in
  let debug :=
    EvDebug "Processing RecoveryComplete" (publisherId metadata) None in
  onMessage (RecoveryComplete requestId0) metadata st
  = if isComplete (progressLoop after MAX_SAFE_INTEGER true)
    then mkState (requestId st) after false
           (trace st ++ [debug; EvUnsubscribe;
                         EvInfo "Successfully complete SystemRecovery"])
    else mkState (requestId st) after (subscribed st) (trace st ++ [debug]).
Proof.
  intros Hid entered before after debug. unfold onMessage.
  set (st1 := match Map_get (publisherId metadata) (progresses st) with
              | Some _ => st
              | None => mkState _ _ _ _
              end).
  assert (Hst1 : st1 = mkState (requestId st) entered (subscribed st) (trace st)).
  { subst st1 entered. destruct (Map_get _ _); [by destruct st|done]. }
  rewrite Hst1. cbn [requestId]. rewrite Hid.
  rewrite bool_decide_eq_false_2 by (by intros []).
  cbv zeta.
  assert (Hget : Map_get (publisherId metadata) entered = Some before)
    by apply entered_known.
  unfold setProgress, log. cbn [requestId progresses subscribed trace].
  rewrite Hget, Map_get_set_eq, Map_set_set. cbn [timestamp isComplete].
  assert (Hts : match timestamp before with None => Some 0 | Some t => Some t end
                = Some (default 0 (timestamp before)))
    by (by destruct (timestamp before)).
  rewrite Hts. fold after. unfold progress. cbn [progresses].
  destruct (isComplete (progressLoop after MAX_SAFE_INTEGER true)); [|done].
  unfold stop, log. cbn [requestId progresses subscribed trace].
  by rewrite <- !app_assoc.
Qed.

(** X14. What one message does to the recovery. A message of a type
    not listened to changes nothing. A recovery response or a recovery
    complete of another request only enters its publisher, if it was not
    known, with no timestamp and not complete; from then on the whole is
    not complete. A recovery complete of the current request marks its
    publisher complete, with the timestamp it had or 0; the subscriber is
    unsubscribed exactly when every broker known is then complete with a
    timestamp. A recovery response of the current request hands each entry
    of its payload to [onSystemMessage], in order, and, unless the payload
    is empty, sets the publisher's timestamp to the timestamp of the
    response. *)
Theorem onMessage_effect (metadata : MessageMetadata) st :
  let publisher := publisherId metadata in
  let entered :=
    match Map_get publisher (progresses st) with
    | Some _ => progresses st
    | None => Map_set publisher (mkProgress None false) (progresses st)
    end in
  let before :=
    default (mkProgress None false) (Map_get publisher (progresses st)) in
  onMessage OtherMessage metadata st = st
  ∧ (∀ requestId0 payload, requestId st ≠ Some requestId0 →
       onMessage (RecoveryComplete requestId0) metadata st
       = mkState (requestId st) entered (subscribed st) (trace st)
       ∧ onMessage (RecoveryResponse requestId0 payload) metadata st
         = mkState (requestId st) entered (subscribed st) (trace st)
       ∧ (Map_get publisher (progresses st) = None →
          isComplete
            (progress (onMessage (RecoveryComplete requestId0) metadata st))
          = false))
  ∧ (∀ requestId0, requestId st = Some requestId0 →
       let st1 := onMessage (RecoveryComplete requestId0) metadata st in
       let debug := EvDebug "Processing RecoveryComplete" publisher None in
       progresses st1
       = Map_set publisher (mkProgress (Some (default 0 (timestamp before))) true)
                 entered
       ∧ (Forall finishedProgress (progresses st1) →
          subscribed st1 = false
          ∧ trace st1
            = trace st ++ [debug; EvUnsubscribe;
                           EvInfo "Successfully complete SystemRecovery"])
       ∧ (¬ Forall finishedProgress (progresses st1) →
          subscribed st1 = subscribed st ∧ trace st1 = trace st ++ [debug]))
  ∧ (∀ requestId0 payload, requestId st = Some requestId0 →
       let st1 := onMessage (RecoveryResponse requestId0 payload) metadata st in
       progresses st1
       = match payload with
         | [] => entered
         | _ => Map_set publisher
                  (mkProgress (Some (metadata_timestamp metadata))
                              (isComplete before)) entered
         end
       ∧ subscribed st1 = subscribed st
       ∧ trace st1
         = trace st
           ++ EvDebug "Processing RecoveryResponse" publisher (Some (length payload))
           :: map EvOnSystemMessage payload).
Proof.
  intros publisher entered before.
  assert (Hentered : (match Map_get publisher (progresses st) with
                      | Some _ => st
                      | None =>
                          mkState (requestId st)
                            (Map_set publisher (mkProgress None false) (progresses st))
                            (subscribed st) (trace st)
                      end)
                     = mkState (requestId st) entered (subscribed st) (trace st)).
  { subst entered. destruct (Map_get _ _); [by destruct st|done]. }
  split; [done|]. split; [|split].
  - intros requestId0 payload Hother.
    assert (Hrun : onMessage (RecoveryComplete requestId0) metadata st
                   = mkState (requestId st) entered (subscribed st) (trace st)).
    { unfold onMessage. fold publisher. rewrite Hentered. cbn [requestId].
      by rewrite bool_decide_eq_true_2. }
    split; [done|]. split.
    + unfold onMessage. fold publisher. rewrite Hentered. cbn [requestId].
      by rewrite bool_decide_eq_true_2.
    + intros Hnew. rewrite Hrun. apply not_true_is_false. unfold progress.
      rewrite progressLoop_isComplete. cbn [progresses]. intros [_ Hall].
      subst entered. rewrite Hnew in Hall.
      assert (Hin : (publisher, mkProgress None false)
                    ∈ Map_set publisher (mkProgress None false) (progresses st)).
      { clear. induction (progresses st) as [|[k v] entries IH]; cbn [Map_set].
        - by left.
        - case_bool_decide; [by left|by right]. }
      rewrite Forall_forall in Hall. by destruct (Hall _ Hin).
  - intros requestId0 Hid st1 debug. subst st1.
    rewrite (onMessage_complete_run requestId0 metadata st Hid). cbv zeta.
    fold publisher entered before.
    set (after := Map_set publisher _ entered).
    pose proof (progressLoop_isComplete after MAX_SAFE_INTEGER true) as Hiff.
    destruct (isComplete (progressLoop after MAX_SAFE_INTEGER true));
      cbn [progresses subscribed trace]; (split; [done|]); split; try done.
    + intros Hnot. destruct Hnot. by apply Hiff.
    + intros Hall. assert (false = true) by (by apply Hiff). done.
  - intros requestId0 payload Hid st1. subst st1. unfold onMessage.
    fold publisher. rewrite Hentered. cbn [requestId]. rewrite Hid.
    rewrite bool_decide_eq_false_2 by (by intros []).
    rewrite (replay_run metadata payload _ before)
      by (cbn [log progresses]; apply entered_known).
    cbn [log requestId progresses subscribed trace]. fold publisher.
    split; [done|]. split; [done|]. by rewrite <- app_assoc.
Qed.

Lemma Map_set_fresh {V} key (value : V) (entries : list (string * V)) :
  key ∉ entries.*1 → Map_set key value entries = entries ++ [(key, value)].
Proof.
  induction entries as [|[k v] entries IH]; intros Hnew; [done|].
  cbn [Map_set]. rewrite bool_decide_eq_false_2.
  - rewrite IH; [done|]. intros Hin. apply Hnew. by right.
  - intros ->. apply Hnew. by left.
Qed.

Lemma Map_get_brokers (g : string → RecoveryProgress) addrs a :
  a ∈ addrs → Map_get a (map (λ x, (x, g x)) addrs) = Some (g a).
Proof.
  induction addrs as [|b addrs IH]; intros Hin; [by apply elem_of_nil in Hin|].
  cbn [map Map_get]. case_bool_decide as Hb; [by subst|].
  apply IH. by apply elem_of_cons in Hin as [->|Hin].
Qed.

Lemma Map_set_brokers (g : string → RecoveryProgress) addrs a value :
  NoDup addrs → a ∈ addrs →
  Map_set a value (map (λ x, (x, g x)) addrs)
  = map (λ x, (x, if bool_decide (x = a) then value else g x)) addrs.
Proof.
  induction addrs as [|b addrs IH]; intros Hnodup Hin;
    [by apply elem_of_nil in Hin|].
  apply NoDup_cons in Hnodup as [Hb Hnodup]. cbn [map Map_set].
  case_bool_decide as Hba.
  - subst b. f_equal. apply map_ext_in. intros x Hx.
    rewrite bool_decide_eq_false_2; [done|]. intros ->.
    by apply Hb, list_elem_of_In.
  - f_equal. apply IH; [done|]. by apply elem_of_cons in Hin as [->|Hin].
Qed.

Lemma registerBrokers_new (addrs pre : list string) st :
  progresses st = map (λ a, (a, mkProgress None false)) pre →
  NoDup (pre ++ addrs) →
  registerBrokers addrs st
  = mkState (requestId st) (map (λ a, (a, mkProgress None false)) (pre ++ addrs))
            (subscribed st) (trace st).
Proof.
  revert pre st. induction addrs as [|a addrs IH]; intros pre st Hpre Hnodup.
  - cbn. rewrite app_nil_r, <- Hpre. by destruct st.
  - unfold registerBrokers in *. cbn [foldl].
    rewrite (IH (pre ++ [a])).
    + cbn [requestId subscribed trace]. by rewrite <- app_assoc.
    + cbn [progresses]. rewrite Hpre, Map_set_fresh.
      * by rewrite map_app.
      * apply NoDup_app in Hnodup as (_ & Hdisjoint & _).
        intros Hin. apply list_elem_of_fmap in Hin as ([k v] & -> & Hin).
        apply list_elem_of_In, in_map_iff in Hin as (x & [= <- _] & Hx).
        apply (Hdisjoint x); [by apply list_elem_of_In|by left].
    + by rewrite <- app_assoc.
Qed.

Lemma finished_brokers (pre addrs : list string) :
  Forall finishedProgress
    (map (λ x, (x, if bool_decide (x ∈ pre)
                   then mkProgress (Some 0) true else mkProgress None false)) addrs)
  ↔ addrs ⊆ pre.
Proof.
  rewrite Forall_forall. split.
  - intros Hall x Hx.
    destruct (decide (x ∈ pre)) as [|Hnot]; [done|].
    destruct (Hall (x, mkProgress None false)) as [Hts _]; [|done].
    apply list_elem_of_In, in_map_iff. exists x.
    rewrite bool_decide_eq_false_2 by done. split; [done|by apply list_elem_of_In].
  - intros Hsub entry Hentry.
    apply list_elem_of_In, in_map_iff in Hentry as (x & <- & Hx).
    rewrite bool_decide_eq_true_2 by (by apply Hsub, list_elem_of_In).
    by split.
Qed.

(** The recovery after the brokers [addrs] were registered for the
    request and the brokers [pre] have sent their recovery complete. *)
Lemma completes_run (requestId0 : string) (ts : string → Z) (addrs pre : list string) :
  NoDup addrs → pre ⊆ addrs → ¬ addrs ⊆ pre →
  let st :=
    foldl (λ st a, onMessage (RecoveryComplete requestId0) (mkMetadata a (ts a)) st)
          (registerBrokers addrs (mkState (Item:=Item) (Some requestId0) [] true []))
          pre in
  requestId st = Some requestId0
  ∧ progresses st
    = map (λ x, (x, if bool_decide (x ∈ pre)
                    then mkProgress (Some 0) true else mkProgress None false)) addrs
  ∧ subscribed st = true
  ∧ filter (λ e, isUnsubscribe e = true) (trace st) = [].
Proof.
  intros Hnodup. induction pre as [|a pre IH] using rev_ind; intros Hsub Hnot st.
  - subst st. cbn [foldl].
    rewrite (registerBrokers_new addrs []) by done. cbn [app].
    split; [done|]. split; [|done]. cbn [progresses]. apply map_ext_in.
    intros x _. rewrite bool_decide_eq_false_2; [done|]. apply not_elem_of_nil.
  - subst st. rewrite foldl_app. cbn [foldl].
    set (st := foldl _ _ pre) in *.
    destruct IH as (Hid & Hprog & Hsubscribed & Htrace).
    { intros x Hx. apply Hsub, elem_of_app. by left. }
    { intros Hall. apply Hnot. intros x Hx. apply elem_of_app. left. by apply Hall. }
    assert (Ha : a ∈ addrs) by (apply Hsub, elem_of_app; right; by left).
    rewrite (onMessage_complete_run requestId0 _ st Hid). cbv zeta.
    cbn [publisherId]. rewrite Hprog, Map_get_brokers by done.
    cbn [default].
    set (after := Map_set a _ _).
    assert (Hafter : after
              = map (λ x, (x, if bool_decide (x ∈ pre ++ [a])
                              then mkProgress (Some 0) true
                              else mkProgress None false)) addrs).
    { subst after. rewrite Map_set_brokers by done. apply map_ext_in.
      intros x _. case_bool_decide as Hxa.
      - subst x. rewrite (bool_decide_eq_true_2 (a ∈ pre ++ [a]))
          by (apply elem_of_app; right; by left).
        by case_bool_decide.
      - destruct (decide (x ∈ pre)) as [Hx|Hx].
        + rewrite !bool_decide_eq_true_2; [done| |done]. apply elem_of_app. by left.
        + rewrite !bool_decide_eq_false_2; [done| |done].
          intros [?|Hxa1%list_elem_of_singleton]%elem_of_app; done. }
    assert (Hopen : isComplete (progressLoop after MAX_SAFE_INTEGER true) = false).
    { apply not_true_is_false. rewrite progressLoop_isComplete, Hafter.
      intros [_ Hall]. by apply finished_brokers in Hall. }
    rewrite Hopen. cbn [requestId progresses subscribed trace].
    split; [done|]. split; [done|]. split; [done|].
    rewrite filter_app, Htrace. by rewrite filter_cons_False by done.
Qed.

Lemma foldr_min_zeros (l : list Z) :
  l ≠ [] → Forall (λ t, t = 0) l → foldr Z.min MAX_SAFE_INTEGER l = 0.
Proof.
  intros Hne Hall. induction Hall as [|t l -> Hl IH]; [done|]. cbn [foldr].
  destruct l as [|t1 l]; [done|]. rewrite IH by done. done.
Qed.

(** X15. The recovery ends with the last broker. Let the brokers
    [addrs], distinct and at least one, be registered for a request, and let
    each of them send its recovery complete for that request, in any order.
    While one of them has not sent, the subscriber stays subscribed and the
    progress is not complete. After the last one the progress is complete,
    with timestamp 0 when no response carried messages, and the subscriber
    was unsubscribed, once. *)
Theorem recovery_ends_with_last_broker (requestId0 : string) (ts : string → Z)
    (addrs order : list string) :
  NoDup addrs → addrs ≠ [] → order ≡ₚ addrs →
  let run := λ senders,
    foldl (λ st a, onMessage (RecoveryComplete requestId0) (mkMetadata a (ts a)) st)
          (registerBrokers addrs (mkState (Item:=Item) (Some requestId0) [] true []))
          senders in
  (∀ pre post, order = pre ++ post → post ≠ [] →
     subscribed (run pre) = true ∧ isComplete (progress (run pre)) = false)
  ∧ subscribed (run order) = false
  ∧ progress (run order) = mkProgress (Some 0) true
  ∧ length (filter (λ e, isUnsubscribe e = true) (trace (run order))) = 1%nat.
Proof.
  intros Hnodup Hne Hperm run.
  assert (Hnodup1 : NoDup order) by (by rewrite Hperm).
  assert (Hpre : ∀ pre post, order = pre ++ post → post ≠ [] →
            pre ⊆ addrs ∧ ¬ addrs ⊆ pre).
  { intros pre post Horder Hpost. split.
    - intros x Hx. rewrite <- Hperm, Horder. apply elem_of_app. by left.
    - intros Hall. destruct post as [|b post]; [done|].
      rewrite Horder in Hnodup1. apply NoDup_app in Hnodup1 as (_ & Hdisjoint & _).
      apply (Hdisjoint b); [|by left]. apply Hall.
      rewrite <- Hperm, Horder. apply elem_of_app. right. by left. }
  split; [|].
  - intros pre post Horder Hpost. destruct (Hpre pre post Horder Hpost) as [Hsub Hnot].
    destruct (completes_run requestId0 ts addrs pre Hnodup Hsub Hnot)
      as (_ & Hprog & Hsubscribed & _).
    subst run. cbv beta.
    split; [done|]. apply not_true_is_false. unfold progress.
    rewrite progressLoop_isComplete, Hprog.
    intros [_ Hall]. by apply finished_brokers in Hall.
  - assert (Hlast : ∃ pre a, order = pre ++ [a]).
    { destruct order as [|b order] using rev_ind; [|by eauto].
      apply Permutation_nil_l in Hperm. by subst. }
    destruct Hlast as (pre & a & Horder).
    destruct (Hpre pre [a] Horder ltac:(done)) as [Hsub Hnot].
    destruct (completes_run requestId0 ts addrs pre Hnodup Hsub Hnot)
      as (Hid & Hprog & Hsubscribed & Htrace).
    assert (Ha : a ∈ addrs).
    { rewrite <- Hperm, Horder. apply elem_of_app. right. by left. }
    assert (Hall : addrs ⊆ pre ++ [a]).
    { intros x Hx. by rewrite <- Horder, Hperm. }
    subst run. cbv beta. rewrite Horder, foldl_app. cbn [foldl].
    set (st := foldl _ _ pre) in *.
    rewrite (onMessage_complete_run requestId0 _ st Hid). cbv zeta.
    cbn [publisherId]. rewrite Hprog, Map_get_brokers by done. cbn [default].
    set (after := Map_set a _ _).
    assert (Hafter : after = map (λ x, (x, mkProgress (Some 0) true)) addrs).
    { subst after. rewrite Map_set_brokers by done. apply map_ext_in.
      intros x Hx. case_bool_decide as Hxa.
      - subst x. by case_bool_decide.
      - rewrite bool_decide_eq_true_2; [done|].
        apply list_elem_of_In, Hall, elem_of_app in Hx
          as [Hx|Hx%list_elem_of_singleton]; done. }
    assert (Hfinished : Forall finishedProgress after).
    { rewrite Hafter, Forall_forall. intros entry Hentry.
      apply list_elem_of_In, in_map_iff in Hentry as (x & <- & _). by split. }
    assert (Hclosed : isComplete (progressLoop after MAX_SAFE_INTEGER true) = true).
    { by apply progressLoop_isComplete. }
    rewrite Hclosed. cbn [subscribed trace]. split; [done|]. split.
    + unfold progress. cbn [progresses].
      assert (Hts : timestamp (progressLoop after MAX_SAFE_INTEGER true) = Some 0).
      { rewrite progressLoop_timestamp.
        2:{ eapply Forall_impl; [exact Hfinished|]. by intros entry [? _]. }
        f_equal. rewrite Hafter. apply foldr_min_zeros.
        - destruct addrs; done.
        - unfold timestamps. clear. induction addrs as [|x addrs IH]; [done|].
          cbn. by constructor. }
      destruct (progressLoop after MAX_SAFE_INTEGER true) as [t c].
      cbn [isComplete timestamp] in *. by subst.
    + rewrite filter_app, Htrace. cbn [app].
      rewrite filter_cons_False by done. rewrite filter_cons_True by done.
      by rewrite filter_cons_False by done.
Qed.

End SystemRecoveryProperties.

Section SystemRecoverySample.

Import SystemRecovery.

Lemma progress_of_all_witness :
  timestamp (progress (mkState (Item:=unit) (Some "r1")
                         [("0xa", mkProgress (Some 7) true);
                          ("0xb", mkProgress (Some 5) false)] true []))
  = Some 5.
Proof.
  destruct (progress_of_all (mkState (Item:=unit) (Some "r1")
                               [("0xa", mkProgress (Some 7) true);
                                ("0xb", mkProgress (Some 5) false)] true []))
    as (_ & _ & _ & Hmin & _).
  apply Hmin. by repeat constructor.
Defined.

Lemma onMessage_effect_witness :
  isComplete
    (progress (onMessage (RecoveryComplete "r0") (mkMetadata "0xc" 9)
                 (mkState (Item:=unit) (Some "r1")
                    [("0xa", mkProgress (Some 7) true)] true [])))
  = false.
Proof.
  destruct (onMessage_effect (mkMetadata "0xc" 9)
              (mkState (Item:=unit) (Some "r1")
                 [("0xa", mkProgress (Some 7) true)] true []))
    as (_ & Hother & _).
  assert (Hid : Some "r1" ≠ Some "r0") by done.
  destruct (Hother "r0" [] Hid) as (_ & _ & Hopen).
  exact (Hopen eq_refl).
Defined.

Lemma recovery_ends_with_last_broker_witness :
  subscribed
    (foldl (λ st a, onMessage (RecoveryComplete "r1") (mkMetadata a 7) st)
       (registerBrokers ["0xa"; "0xb"] (mkState (Item:=unit) (Some "r1") [] true []))
       ["0xb"; "0xa"])
  = false.
Proof.
  assert (Hnodup : NoDup ["0xa"; "0xb"]).
  { repeat constructor; [|by intros ?%elem_of_nil].
    by intros [=]%list_elem_of_singleton. }
  assert (Hne : ["0xa"; "0xb"] ≠ []) by done.
  assert (Hperm : ["0xb"; "0xa"] ≡ₚ ["0xa"; "0xb"]) by apply perm_swap.
  exact (proj1 (proj2 (recovery_ends_with_last_broker (Item:=unit) "r1" (λ _, 7)
                         ["0xa"; "0xb"] ["0xb"; "0xa"] Hnodup Hne Hperm))).
Defined.

End SystemRecoverySample.

(** * The properties of LSAN *)

Section LSANProperties.

Import LSAN.

Context {Ledger : Type}.
Context (ERC20_init : string → string → Ledger → Ledger)
        (_mint _burn : Z → Z → Ledger → Result Ledger)
        (_transfer : Z → Z → Z → Ledger → Result Ledger)
        (_spendAllowance : Z → Z → Z → Ledger → Result Ledger).

Implicit Types (c : Contract (Ledger:=Ledger)) (call : Call).

(** X16. The gates of [transfer] and [transferFrom]. A transfer to the
    node manager's address by a caller who is not a whitelisted sender
    reverts with the message of the sender gate, before the ledger is
    touched; so does a [transferFrom] to that address that passed the first
    gate. A [transferFrom] out of the node manager's address by a caller who
    is not a whitelisted recipient reverts with the message of the recipient
    gate. Every other call is the transfer of [ERC20Upgradeable]:
    [transfer] moves the caller's tokens, [transferFrom] spends the caller's
    allowance and then moves the tokens, both answer [true] and change
    nothing of the contract but the ledger. *)
Theorem transfer_gates (_from _to : Z) (amount : Z) call c :
  let senderListed := mapping (whitelistedSenders c) (sender call) in
  let recipientListed := mapping (whitelistedRecipients c) (sender call) in
  let recipientGate := _from ≠ nodeManagerAddress c ∨ recipientListed = true in
  let senderGate := _to ≠ nodeManagerAddress c ∨ senderListed = true in
  (¬ senderGate →
     transfer _transfer _to amount call c
     = inl (Require "User is not whitelisted to transfer to the address")
     ∧ (recipientGate →
        transferFrom _transfer _spendAllowance _from _to amount call c
        = inl (Require "User is not whitelisted to transfer to the address")))
  ∧ (¬ recipientGate →
     transferFrom _transfer _spendAllowance _from _to amount call c
     = inl (Require "User is not whitelisted to transferFrom this address"))
  ∧ (senderGate →
     transfer _transfer _to amount call c
     = (l ← _transfer (sender call) _to amount (ledger c);
        mret (true, set_ledger l c))
     ∧ (recipientGate →
        transferFrom _transfer _spendAllowance _from _to amount call c
        = (l ← _spendAllowance _from (sender call) amount (ledger c);
           l ← _transfer _from _to amount l;
           mret (true, set_ledger l c)))).
Proof using Type.
  intros senderListed recipientListed recipientGate senderGate.
  assert (Hsender : senderGate
            ↔ bool_decide (_to ≠ nodeManagerAddress c) || senderListed = true).
  { subst senderGate. by rewrite orb_true_iff, bool_decide_eq_true. }
  assert (Hrecipient : recipientGate
            ↔ bool_decide (_from ≠ nodeManagerAddress c) || recipientListed = true).
  { subst recipientGate. by rewrite orb_true_iff, bool_decide_eq_true. }
  unfold transfer, transferFrom, onlyWhitelistedSender, onlyWhitelistedRecipient.
  fold senderListed recipientListed.
  split; [|split].
  - intros Hclosed. rewrite Hsender in Hclosed. apply not_true_is_false in Hclosed.
    rewrite Hclosed. split; [done|]. intros Hopen. apply Hrecipient in Hopen.
    by rewrite Hopen.
  - intros Hclosed. rewrite Hrecipient in Hclosed.
    apply not_true_is_false in Hclosed. by rewrite Hclosed.
  - intros Hopen. apply Hsender in Hopen. rewrite Hopen. split; [done|].
    intros Hopen1. apply Hrecipient in Hopen1. by rewrite Hopen1.
Qed.

Lemma mul_ok (a b : Z) : a * b ≤ MAX_UINT256 → mul a b = inr (a * b).
Proof using Type. intros H. unfold mul. by rewrite bool_decide_eq_true_2. Qed.

(** The price of a token at [elapsed] seconds after the deployment. *)
Lemma getTokenPrice_run call c :
  let elapsed := block_timestamp call - DEPLOYED_TIME c in
  let expense := maticPerByte c * totalBytesStored c in
  expense ≤ MAX_UINT256 →
  0 ≤ elapsed →
  elapsed * 86400000 ≤ MAX_UINT256 →
  getTokenPrice call c
  = if bool_decide (elapsed = 0) then inl (Panic 18)
    else mul (expense `div` (elapsed * 86400000)) (multiplier c).
Proof using Type.
  intros elapsed expense Hexpense Helapsed Hmillis. unfold getTokenPrice.
  rewrite mul_ok by done. cbn [mbind Result_bind].
  unfold sub. rewrite bool_decide_eq_true_2 by lia. cbn [mbind Result_bind].
  fold elapsed.
  rewrite (mul_ok elapsed 24) by lia. cbn [mbind Result_bind].
  rewrite (mul_ok (elapsed * 24) 60) by lia. cbn [mbind Result_bind].
  rewrite (mul_ok (elapsed * 24 * 60) 60) by lia. cbn [mbind Result_bind].
  rewrite (mul_ok (elapsed * 24 * 60 * 60) 1000) by lia. cbn [mbind Result_bind].
  replace (elapsed * 24 * 60 * 60 * 1000) with (elapsed * 86400000) by lia.
  unfold div. case_bool_decide as Hzero.
  - rewrite bool_decide_eq_true_2 by lia. done.
  - rewrite bool_decide_eq_false_2 by lia. done.
Qed.

(** X17. What [mint] gives and when it cannot. Let [elapsed] be the
    seconds since the deployment and [price], the expense
    [maticPerByte * totalBytesStored] divided by [elapsed * 86400000],
    rounded down, times [multiplier]. A call whose value is not above the
    minimum deposit reverts with that message. A call that passes the three
    requirements mints [value / price] tokens, rounded down, to the caller
    and adds the value to the treasury and to the balance, when the price is
    positive. It reverts with a division by zero in the second of the
    deployment, and whenever the price is zero: as soon as
    [elapsed * 86400000] exceeds the expense, whatever value is sent. *)
Theorem mint_outcome call c :
  let elapsed := block_timestamp call - DEPLOYED_TIME c in
  let expense := maticPerByte c * totalBytesStored c in
  let price := expense `div` (elapsed * 86400000) * multiplier c in
  (value call ≤ minimumDeposit c →
     mint _mint call c = inl (Require "sent amount less than minimum amount"))
  ∧ (value call > minimumDeposit c → maticPerByte c > 0 → totalBytesStored c > 0 →
     expense ≤ MAX_UINT256 → 0 ≤ elapsed → elapsed * 86400000 ≤ MAX_UINT256 →
     0 ≤ multiplier c →
     (elapsed = 0 → mint _mint call c = inl (Panic 18))
     ∧ (0 < elapsed → price = 0 → mint _mint call c = inl (Panic 18))
     ∧ (expense < elapsed * 86400000 → mint _mint call c = inl (Panic 18))
     ∧ (0 < price → price ≤ MAX_UINT256 →
        treasury c + value call ≤ MAX_UINT256 →
        mint _mint call c
        = (l ← _mint (sender call) (value call `div` price) (ledger c);
           mret (set_ledger l
                   (set_treasury (treasury c + value call)
                      (set_balance (balance c + value call) c)))))).
Proof using Type.
  intros elapsed expense price. split.
  - intros Hvalue. unfold mint. cbv zeta. cbn [minimumDeposit set_balance].
    by rewrite (bool_decide_eq_false_2 (value call > minimumDeposit c)) by lia.
  - intros Hvalue Hmatic Hbytes Hexpense Helapsed Hmillis Hmultiplier.
    assert (Hrun : mint _mint call c
              = (lsanPrice ← getTokenPrice call c;
                 mintAmount ← div (value call) lsanPrice;
                 t ← add (treasury c) (value call);
                 l ← _mint (sender call) mintAmount (ledger c);
                 mret (set_ledger l
                         (set_treasury t (set_balance (balance c + value call) c))))).
    { unfold mint. cbv zeta.
      cbn [minimumDeposit maticPerByte totalBytesStored set_balance].
      rewrite !bool_decide_eq_true_2 by lia. done. }
    rewrite Hrun.
    pose proof (getTokenPrice_run call c Hexpense Helapsed Hmillis) as Hprice_run.
    cbv zeta in Hprice_run. fold elapsed expense in Hprice_run.
    assert (Hexpense0 : 0 ≤ expense) by (subst expense; nia).
    assert (Hzero : 0 < elapsed → price = 0 → getTokenPrice call c = inr 0).
    { intros Hpos Hprice. rewrite Hprice_run.
      rewrite bool_decide_eq_false_2 by lia.
      rewrite mul_ok by (change (price ≤ MAX_UINT256); by rewrite Hprice).
      change (inr price = inr (A:=Failure) 0). by rewrite Hprice. }
    split; [|split; [|split]].
    + intros Hstart. rewrite Hprice_run. by rewrite bool_decide_eq_true_2.
    + intros Hpos Hprice. by rewrite Hzero.
    + intros Hlate.
      assert (Hpos : 0 < elapsed) by lia.
      assert (Hprice : price = 0).
      { subst price. rewrite Z.div_small by lia. done. }
      by rewrite Hzero.
    + intros Hprice Hmax Htreasury.
      assert (Hpos : elapsed ≠ 0).
      { intros Hstart. subst price. rewrite Hstart in Hprice.
        cbn in Hprice. rewrite Z.div_0_r in Hprice. lia. }
      rewrite Hprice_run.
      rewrite bool_decide_eq_false_2 by done.
      rewrite mul_ok by done. fold price. cbn [mbind Result_bind].
      unfold div. rewrite bool_decide_eq_false_2 by lia. cbn [mbind Result_bind].
      unfold add. rewrite bool_decide_eq_true_2 by done. done.
Qed.

(** ** Whitelisting *)

Lemma mapping_insert (m : gmap Z bool) (a b : Z) :
  mapping (<[a := true]> m) b = bool_decide (b = a) || mapping m b.
Proof using Type.
  unfold mapping. case_bool_decide as Hba.
  - subst. by rewrite lookup_insert_eq.
  - by rewrite lookup_insert_ne.
Qed.

(** The contract after the accounts [accounts] were whitelisted as
    senders and as recipients. *)
Lemma whitelistAll_run (accounts : list Z) call c :
  owner c = sender call →
  (∀ a, mapping (whitelistedSenders c) a = mapping (whitelistedRecipients c) a) →
  (NoDup accounts ∧ Forall (λ a, mapping (whitelistedSenders c) a = false) accounts →
     ∃ c1,
       whitelistAll accounts call c = inr c1
       ∧ (∀ a, mapping (whitelistedSenders c1) a
               = bool_decide (a ∈ accounts) || mapping (whitelistedSenders c) a)
       ∧ (∀ a, mapping (whitelistedRecipients c1) a
               = bool_decide (a ∈ accounts) || mapping (whitelistedRecipients c) a)
       ∧ set_whitelistedSenders (whitelistedSenders c)
           (set_whitelistedRecipients (whitelistedRecipients c) c1) = c)
  ∧ (¬ (NoDup accounts
        ∧ Forall (λ a, mapping (whitelistedSenders c) a = false) accounts) →
     whitelistAll accounts call c
     = inl (Require "Address already whitelisted as sender")).
Proof using Type.
  revert c. induction accounts as [|account accounts IH]; intros c Howner Hsame.
  { split.
    - intros _. exists c. split; [done|]. split; [done|]. split; [done|].
      by destruct c.
    - intros Hnot. destruct Hnot. split; constructor. }
  cbn [whitelistAll]. unfold whitelistSender at 1 2, onlyOwner.
  rewrite bool_decide_eq_true_2 by done. cbn [require mbind Result_bind].
  destruct (mapping (whitelistedSenders c) account) eqn:Hlisted.
  { cbn [negb require mbind Result_bind]. split; [|done].
    intros [_ Hfresh]. apply Forall_cons in Hfresh as [Hfresh _]. congruence. }
  cbn [negb require mbind Result_bind mret Result_ret].
  unfold whitelistRecipient at 1 2, onlyOwner.
  cbn [owner whitelistedRecipients set_whitelistedSenders].
  rewrite bool_decide_eq_true_2 by done.
  rewrite <- Hsame, Hlisted. cbn [negb require mbind Result_bind mret Result_ret].
  set (c1 := set_whitelistedRecipients _ _).
  destruct (IH c1) as [Hok Hfail]; [done| |].
  { intros a. subst c1. cbn [whitelistedSenders whitelistedRecipients
      set_whitelistedRecipients set_whitelistedSenders].
    by rewrite !mapping_insert, Hsame. }
  assert (Hsenders : ∀ a, mapping (whitelistedSenders c1) a
            = bool_decide (a = account) || mapping (whitelistedSenders c) a).
  { intros a. subst c1. cbn [whitelistedSenders set_whitelistedRecipients
      set_whitelistedSenders]. apply mapping_insert. }
  assert (Hrecipients : ∀ a, mapping (whitelistedRecipients c1) a
            = bool_decide (a = account) || mapping (whitelistedRecipients c) a).
  { intros a. subst c1. cbn [whitelistedRecipients set_whitelistedRecipients
      set_whitelistedSenders]. apply mapping_insert. }
  assert (Hrest : NoDup (account :: accounts)
                  ∧ Forall (λ a, mapping (whitelistedSenders c) a = false)
                           (account :: accounts)
                  ↔ NoDup accounts
                    ∧ Forall (λ a, mapping (whitelistedSenders c1) a = false)
                             accounts).
  { rewrite NoDup_cons, Forall_cons, !Forall_forall. split.
    - intros [[Hnew Hnodup] [_ Hfresh]]. split; [done|]. intros a Ha.
      rewrite Hsenders, (Hfresh a Ha), orb_false_r.
      apply bool_decide_eq_false_2. by intros ->.
    - intros [Hnodup Hfresh]. split; [split; [|done]|split; [done|]].
      + intros Hin. specialize (Hfresh account Hin). rewrite Hsenders in Hfresh.
        by rewrite bool_decide_eq_true_2 in Hfresh.
      + intros a Ha. specialize (Hfresh a Ha). rewrite Hsenders in Hfresh.
        by apply orb_false_iff in Hfresh as [_ ?]. }
  split.
  - intros Hgood. apply Hrest in Hgood.
    destruct (Hok Hgood) as (c2 & Hrun & Hs & Hr & Hsame2).
    exists c2. split; [done|]. split; [|split].
    + intros a. rewrite Hs, Hsenders.
      destruct (decide (a = account)) as [->|Hne].
      * rewrite (bool_decide_eq_true_2 (account ∈ account :: accounts)) by left.
        rewrite (bool_decide_eq_true_2 (account = account)) by done.
        by rewrite orb_true_r.
      * rewrite (bool_decide_eq_false_2 (a = account)) by done. cbn [orb].
        f_equal. apply bool_decide_ext. rewrite elem_of_cons.
        split; [by right|]. by intros [?|?].
    + intros a. rewrite Hr, Hrecipients.
      destruct (decide (a = account)) as [->|Hne].
      * rewrite (bool_decide_eq_true_2 (account ∈ account :: accounts)) by left.
        rewrite (bool_decide_eq_true_2 (account = account)) by done.
        by rewrite orb_true_r.
      * rewrite (bool_decide_eq_false_2 (a = account)) by done. cbn [orb].
        f_equal. apply bool_decide_ext. rewrite elem_of_cons.
        split; [by right|]. by intros [?|?].
    + clear -Hsame2. subst c1. destruct c, c2.
      unfold set_whitelistedSenders, set_whitelistedRecipients in *. cbn in *.
      injection Hsame2. intros. by subst.
  - intros Hbad. apply Hfail. by rewrite <- Hrest.
Qed.

(** X18. Whitelisting and [initialize]. The owner whitelists an account
    as sender once: a second [whitelistSender] of the account reverts.
    [initialize] reverts on a contract that is initialised. On a new one,
    with nothing whitelisted, it makes the caller the owner, whitelists every
    account of the list as sender and as recipient and no other, and sets the
    safe, the node manager, the time of deployment, the multiplier 1 and the
    minimum deposit 0; but if an account stands twice in the list, it
    reverts: the second whitelisting of the account fails. *)
Theorem initialize_outcome (initialWhitelist : list Z)
    (_safeAddress _nodeManagerAddress : Z) call c :
  (∀ account c1,
     whitelistSender account call c = inr c1 →
     mapping (whitelistedSenders c1) account = true
     ∧ whitelistSender account call c1
       = inl (Require "Address already whitelisted as sender"))
  ∧ (initialized c = true →
     initialize ERC20_init initialWhitelist _safeAddress _nodeManagerAddress call c
     = inl (Require "Initializable: contract is already initialized"))
  ∧ (initialized c = false →
     whitelistedSenders c = ∅ → whitelistedRecipients c = ∅ →
     (NoDup initialWhitelist →
        ∃ c1,
          initialize ERC20_init initialWhitelist _safeAddress _nodeManagerAddress
            call c = inr c1
          ∧ owner c1 = sender call
          ∧ initialized c1 = true
          ∧ (∀ a, mapping (whitelistedSenders c1) a
                  = bool_decide (a ∈ initialWhitelist))
          ∧ (∀ a, mapping (whitelistedRecipients c1) a
                  = bool_decide (a ∈ initialWhitelist))
          ∧ SAFE_ADDRESS c1 = _safeAddress
          ∧ nodeManagerAddress c1 = _nodeManagerAddress
          ∧ DEPLOYED_TIME c1 = block_timestamp call
          ∧ multiplier c1 = 1
          ∧ minimumDeposit c1 = 0
          ∧ treasury c1 = treasury c
          ∧ balance c1 = balance c)
     ∧ (¬ NoDup initialWhitelist →
        initialize ERC20_init initialWhitelist _safeAddress _nodeManagerAddress
          call c
        = inl (Require "Address already whitelisted as sender"))).
Proof using Type.
  split; [|split].
  - intros account c1. unfold whitelistSender, onlyOwner, require.
    case_bool_decide as Howner; [|done]. cbn [mbind Result_bind].
    destruct (mapping (whitelistedSenders c) account) eqn:Hlisted; [done|].
    cbn [negb mbind Result_bind mret Result_ret]. intros [= <-].
    cbn [owner whitelistedSenders set_whitelistedSenders].
    rewrite bool_decide_eq_true_2 by done. cbn [mbind Result_bind].
    rewrite mapping_insert, bool_decide_eq_true_2 by done. done.
  - intros Hinit. unfold initialize. by rewrite Hinit.
  - intros Hinit Hsenders Hrecipients. unfold initialize. rewrite Hinit.
    cbn [negb require mbind Result_bind]. cbv zeta.
    set (c0 := set_ledger _ _).
    assert (Hempty : ∀ a, mapping (whitelistedSenders c0) a = false).
    { intros a. subst c0. cbn. by rewrite Hsenders. }
    destruct (whitelistAll_run initialWhitelist call c0) as [Hok Hfail]; [done| |].
    { intros a. subst c0. cbn. by rewrite Hsenders, Hrecipients. }
    split.
    + intros Hnodup. destruct Hok as (c1 & Hrun & Hs & Hr & Hsame).
      { split; [done|]. rewrite Forall_forall. intros a _. apply Hempty. }
      rewrite Hrun. cbn [mbind Result_bind mret Result_ret]. eexists.
      split; [done|]. cbn.
      assert (Hfields : owner c1 = owner c0 ∧ initialized c1 = initialized c0
                        ∧ treasury c1 = treasury c0 ∧ balance c1 = balance c0).
      { rewrite <- Hsame. by destruct c1. }
      destruct Hfields as (-> & -> & -> & ->).
      repeat split; try done.
      * intros a. rewrite Hs, Hempty. apply orb_false_r.
      * intros a. rewrite Hr. subst c0. cbn. rewrite Hrecipients.
        apply orb_false_r.
    + intros Hdup. rewrite Hfail; [done|]. by intros [? _].
Qed.

(** ** The treasury *)

Lemma bind_inr {A B} (r : Result A) (k : A → Result B) (b : B) :
  r ≫= k = inr b → ∃ a, r = inr a ∧ k a = inr b.
Proof using Type. destruct r as [failure|a]; [done|]. intros Hk. by exists a. Qed.

(** The binds of a successful call, taken apart. *)
Ltac run_call H :=
  cbv zeta in H;
  repeat (let a := fresh "a" in
          let Ha := fresh "Ha" in
          apply bind_inr in H as (a & Ha & H));
  try (injection H as <-).

Lemma transaction_treasury c c1 :
  transaction _mint _burn _transfer _spendAllowance c c1 →
  0 ≤ treasury c ≤ balance c → 0 ≤ treasury c1 ≤ balance c1.
Proof using Type.
  intros Htx Hbacked.
  destruct Htx as [account amount call c c1 H|account amount call c c1 H
    |account call c c1 H|account call c c1 H|amount accepted call c c1 Hamount H
    |v call c c1 H|v call c c1 H|v call c c1 H|v call c c1 H|v call c c1 H
    |call c c1 H|call c c1 Hvalue H|_to _amount call c r H
    |_from _to amount call c r H].
  - unfold mintTokens in H. by run_call H.
  - unfold burn in H. by run_call H.
  - unfold whitelistSender in H. by run_call H.
  - unfold whitelistRecipient in H. by run_call H.
  - unfold withdraw in H. run_call H. destruct accepted; [|done].
    injection H as <-. cbn [treasury balance set_balance set_treasury].
    unfold sub in *. case_bool_decide; [|done]. simplify_eq. lia.
  - unfold setMaticPerByte in H. by run_call H.
  - unfold setTotalBytesStored in H. by run_call H.
  - unfold setMultipler in H. by run_call H.
  - unfold setNodeManagerAddress in H. by run_call H.
  - unfold setMinimumDeposit in H. by run_call H.
  - unfold destroy in H. by run_call H.
  - unfold mint in H. run_call H.
    cbn [treasury balance set_balance set_treasury set_ledger] in *.
    unfold add in *. case_bool_decide; [|done]. simplify_eq. lia.
  - unfold transfer in H. by run_call H.
  - unfold transferFrom in H. by run_call H.
Qed.

(** X19. The treasury is backed. Once the treasury is between 0 and
    the balance of the contract, it stays so through every successful call
    of a function that changes the contract. In such a state the owner can
    withdraw, into a safe that accepts, exactly the amounts up to the
    treasury: a larger amount reverts, with an underflow when the balance
    would cover it, and what the balance holds beyond the treasury cannot
    be withdrawn. *)
Theorem treasury_backed c c1 :
  0 ≤ treasury c ≤ balance c →
  rtc (transaction _mint _burn _transfer _spendAllowance) c c1 →
  0 ≤ treasury c1 ≤ balance c1
  ∧ ∀ amount call, owner c1 = sender call → 0 ≤ amount →
      (amount ≤ treasury c1 →
         withdraw amount true call c1
         = inr (set_balance (balance c1 - amount)
                  (set_treasury (treasury c1 - amount) c1)))
      ∧ (treasury c1 < amount ≤ balance c1 →
           withdraw amount true call c1 = inl (Panic 17))
      ∧ (balance c1 < amount →
           withdraw amount true call c1
           = inl (Require "Insufficient contract balance")).
Proof using Type.
  intros Hbacked Hsteps.
  assert (Hkept : 0 ≤ treasury c1 ≤ balance c1).
  { induction Hsteps as [c|c c1 c2 Hstep _ IH]; [done|].
    apply IH. by eapply transaction_treasury. }
  split; [done|]. intros amount call Howner Hamount.
  unfold withdraw, onlyOwner, require, sub.
  rewrite (bool_decide_eq_true_2 (owner c1 = sender call)) by done.
  cbn [mbind Result_bind].
  split; [|split].
  - intros Hle. rewrite (bool_decide_eq_true_2 (balance c1 >= amount)) by lia.
    cbn [mbind Result_bind].
    by rewrite (bool_decide_eq_true_2 (amount ≤ treasury c1)) by lia.
  - intros Hbetween. rewrite (bool_decide_eq_true_2 (balance c1 >= amount)) by lia.
    cbn [mbind Result_bind].
    by rewrite (bool_decide_eq_false_2 (amount ≤ treasury c1)) by lia.
  - intros Hover. by rewrite (bool_decide_eq_false_2 (balance c1 >= amount)) by lia.
Qed.

End LSANProperties.

Section LSANSample.

Import LSAN.

Lemma transfer_gates_witness :
  transfer sampleLedger_transfer 50 1 (mkCall 7 0 1010) deployedContract
  = inl (Require "User is not whitelisted to transfer to the address").
Proof.
  destruct (transfer_gates sampleLedger_transfer sampleLedger_transfer 7 50 1
              (mkCall 7 0 1010) deployedContract) as [Hclosed _].
  apply proj1 in Hclosed; [exact Hclosed|].
  intros [Hother|Hlisted]; [by apply Hother|by vm_compute in Hlisted].
Defined.

Lemma mint_outcome_witness :
  mint sampleLedger_mint sampleMintCall deployedContract
  = inr (set_ledger {[ 7 := 5 ]}
           (set_treasury 10 (set_balance 10 deployedContract))).
Proof.
  destruct (mint_outcome sampleLedger_mint sampleMintCall deployedContract)
    as [_ Hmint].
  destruct Hmint as (_ & _ & _ & Hminted); [by vm_compute..|].
  rewrite Hminted; [done|by vm_compute|by vm_compute|by vm_compute].
Defined.

Lemma initialize_outcome_witness :
  ∃ c1,
    initialize (λ _ _ l, l) [10; 11] 99 50 (mkCall 1 0 1000) newContract = inr c1
    ∧ owner c1 = 1
    ∧ DEPLOYED_TIME c1 = 1000.
Proof.
  destruct (initialize_outcome (λ _ _ l, l) [10; 11] 99 50 (mkCall 1 0 1000)
              newContract) as (_ & _ & Hnew).
  destruct (Hnew eq_refl eq_refl eq_refl) as [Hok _].
  destruct Hok as (c1 & Hrun & Howner & _ & _ & _ & _ & _ & Htime & _).
  { repeat constructor; [|by intros ?%elem_of_nil].
    by intros [=]%list_elem_of_singleton. }
  exists c1. split; [exact Hrun|]. split; [exact Howner|exact Htime].
Defined.

Lemma treasury_backed_witness :
  0 ≤ 10 ≤ 10
  ∧ withdraw 11 true (mkCall 1 0 1020)
      (set_ledger ({[ 7 := 5 ]} : gmap Z Z)
         (set_treasury 10 (set_balance 10 deployedContract)))
    = inl (Require "Insufficient contract balance").
Proof.
  assert (Hbacked : 0 ≤ treasury deployedContract ≤ balance deployedContract)
    by (by vm_compute).
  assert (Hvalue : 0 ≤ value sampleMintCall) by (by vm_compute).
  destruct (treasury_backed sampleLedger_mint sampleLedger_mint
              sampleLedger_transfer sampleLedger_transfer deployedContract
              (set_ledger ({[ 7 := 5 ]} : gmap Z Z)
                 (set_treasury 10 (set_balance 10 deployedContract)))
              Hbacked) as [Hkept Hwithdraw].
  { apply rtc_once. by apply (tx_mint _ _ _ _ sampleMintCall). }
  split; [exact Hkept|].
  assert (Hamount : 0 ≤ 11) by lia.
  destruct (Hwithdraw 11 (mkCall 1 0 1020) eq_refl Hamount) as (_ & _ & Hover).
  apply Hover. by vm_compute.
Defined.

End LSANSample.

(** * The properties of Runtime *)

Section RuntimeProperties.

Import Runtime.

Context {Fees : Type}.
Context (getNetwork : string → string + Z).
Context (ContractAddresses : Z → option string).

Implicit Types config : ParsedConfig (Fees:=Fees).
Implicit Types this_config cfg : IConfig (Fees:=Fees).

(** The loop over sources that all answer with the chain [id]. *)
Lemma chainIdLoop_same (sources : list string) (chainId : option Z) (id : Z) :
  Forall (λ source, getNetwork source = inr id) sources →
  chainId = None ∨ chainId = Some id →
  chainIdLoop getNetwork sources chainId
  = (sources, inr (match sources with [] => chainId | _ => Some id end)).
Proof using Type.
  intros Hall. revert chainId.
  induction Hall as [|source rest Hsource Hrest IH]; intros chainId Hstart; [done|].
  cbn [chainIdLoop]. rewrite Hsource.
  destruct Hstart as [->| ->].
  - rewrite (IH (Some id)) by (by right). by destruct rest.
  - rewrite bool_decide_eq_false_2 by (by intros ?).
    rewrite (IH (Some id)) by (by right). by destruct rest.
Qed.

(** The loop comes to its end only over sources of one chain. *)
Lemma chainIdLoop_inr (sources : list string) (chainId : option Z) asked r :
  chainIdLoop getNetwork sources chainId = (asked, inr r) →
  asked = sources
  ∧ match r with
    | Some id =>
        Forall (λ source, getNetwork source = inr id) sources
        ∧ (chainId = Some id ∨ chainId = None ∧ sources ≠ [])
    | None => chainId = None ∧ sources = []
    end.
Proof using Type.
  revert chainId asked. induction sources as [|source rest IH]; intros chainId asked.
  { cbn [chainIdLoop]. intros [= <- <-]. split; [done|].
    destruct chainId as [id|]; [|done]. split; [constructor|by left]. }
  cbn [chainIdLoop]. destruct (getNetwork source) as [err|network_chainId] eqn:Hsource;
    [done|].
  destruct chainId as [id|].
  - case_bool_decide as Hid; [done|].
    destruct (chainIdLoop getNetwork rest (Some id)) as [asked1 r1] eqn:Hrest.
    intros [= <- ->]. destruct (IH _ _ Hrest) as [-> Hr]. split; [done|].
    destruct r as [id1|]; [|by destruct Hr].
    destruct Hr as [Hall [[= ->]|[? _]]]; [|done].
    split; [|by left]. constructor; [|done].
    rewrite Hsource. by subst.
  - destruct (chainIdLoop getNetwork rest (Some network_chainId))
      as [asked1 r1] eqn:Hrest.
    intros [= <- ->]. destruct (IH _ _ Hrest) as [-> Hr]. split; [done|].
    destruct r as [id1|]; [|by destruct Hr].
    destruct Hr as [Hall [[= ->]|[? _]]]; [|done].
    split; [by constructor|by right].
Qed.

(** The loop stops at the first source of another chain. *)
Lemma chainIdLoop_differs (pre post : list string) (source : string)
    (chainId : option Z) (id other : Z) :
  Forall (λ source, getNetwork source = inr id) pre →
  chainId = Some id ∨ chainId = None ∧ pre ≠ [] →
  getNetwork source = inr other → other ≠ id →
  chainIdLoop getNetwork (pre ++ source :: post) chainId
  = (pre ++ [source],
     inl "Config sources have different network chain identifiers").
Proof using Type.
  intros Hall. revert chainId.
  induction Hall as [|first rest Hfirst Hrest IH];
    intros chainId Hstart Hsource Hother.
  { destruct Hstart as [->|[_ ?]]; [|done]. cbn [app chainIdLoop].
    rewrite Hsource. by rewrite bool_decide_eq_true_2 by (by intros ->). }
  cbn [app chainIdLoop]. rewrite Hfirst.
  destruct Hstart as [->|[-> _]].
  - rewrite bool_decide_eq_false_2 by (by intros ?).
    by rewrite (IH (Some id)) by (done || by left).
  - by rewrite (IH (Some id)) by (done || by left).
Qed.

Lemma effectiveSources_nil (sources : list string) :
  effectiveSources sources = [] → sources = [].
Proof using Type.
  unfold effectiveSources. by destruct (existsb _ sources).
Qed.

(** X20. What [validateSetConfig] accepts. A configuration without
    sources is refused before any source is asked. If one of the sources
    names [polygon-rpc.com], the sources are replaced by the one Alchemy
    source. The configuration is accepted exactly when all these sources
    answer with one chain id and the table of the system contracts has
    that chain: each source was then asked once, in order, and the new
    configuration has these sources, the system stream of the node manager
    of that chain, and the fees of the pool's configuration or, if it has
    none, those the runtime had. If the sources agree on a chain the table
    does not have, it is refused as invalid; the first source that answers
    with another chain than those before it ends the loop: no later source
    is asked. *)
Theorem validateSetConfig_outcome config this_config :
  let sources := effectiveSources (parsed_sources config) in
  let r := validateSetConfig getNetwork ContractAddresses config this_config in
  (parsed_sources config = [] →
     r = ([], inl "Config does not have any sources"))
  ∧ (∀ cfg,
       r.2 = inr cfg
       ↔ parsed_sources config ≠ []
         ∧ ∃ id nodeManagerAddress,
             Forall (λ source, getNetwork source = inr id) sources
             ∧ ContractAddresses id = Some nodeManagerAddress
             ∧ cfg = mkConfig (nodeManagerAddress +:+ "/system") sources
                       (default (fees this_config) (parsed_fees config)))
  ∧ (∀ cfg, r.2 = inr cfg → r.1 = sources)
  ∧ (∀ id,
       parsed_sources config ≠ [] →
       Forall (λ source, getNetwork source = inr id) sources →
       ContractAddresses id = None →
       r = (sources, inl "Config sources have invalid network chain identifier"))
  ∧ (∀ pre source post id other,
       sources = pre ++ source :: post → pre ≠ [] →
       Forall (λ source, getNetwork source = inr id) pre →
       getNetwork source = inr other → other ≠ id →
       r = (pre ++ [source],
            inl "Config sources have different network chain identifiers")).
Proof using Type.
  intros sources r.
  assert (Hsources : parsed_sources config ≠ [] → sources ≠ []).
  { intros Hne Hnil. by apply effectiveSources_nil in Hnil. }
  assert (Hrun : parsed_sources config ≠ [] →
            r = let '(asked, r) := chainIdLoop getNetwork sources None in
                match r with
                | inl err => (asked, inl err)
                | inr chainId =>
                    match chainId ≫= ContractAddresses with
                    | None =>
                        (asked,
                         inl "Config sources have invalid network chain identifier")
                    | Some nodeManagerAddress =>
                        (asked,
                         inr (mkConfig (nodeManagerAddress +:+ "/system") sources
                                (default (fees this_config) (parsed_fees config))))
                    end
                end).
  { intros Hne. subst r. unfold validateSetConfig.
    rewrite bool_decide_eq_false_2; [done|]. by destruct (parsed_sources config). }
  assert (Hagree : ∀ id, parsed_sources config ≠ [] →
            Forall (λ source, getNetwork source = inr id) sources →
            r = match ContractAddresses id with
                | None =>
                    (sources,
                     inl "Config sources have invalid network chain identifier")
                | Some nodeManagerAddress =>
                    (sources,
                     inr (mkConfig (nodeManagerAddress +:+ "/system") sources
                            (default (fees this_config) (parsed_fees config))))
                end).
  { intros id Hne Hall. rewrite (Hrun Hne).
    rewrite (chainIdLoop_same sources None id Hall) by (by left).
    specialize (Hsources Hne). by destruct sources. }
  assert (Haccepted : ∀ cfg, r.2 = inr cfg →
            parsed_sources config ≠ []
            ∧ r.1 = sources
            ∧ ∃ id nodeManagerAddress,
                Forall (λ source, getNetwork source = inr id) sources
                ∧ ContractAddresses id = Some nodeManagerAddress
                ∧ cfg = mkConfig (nodeManagerAddress +:+ "/system") sources
                          (default (fees this_config) (parsed_fees config))).
  { intros cfg Hcfg.
    assert (Hne : parsed_sources config ≠ []).
    { intros Hnil. subst r. unfold validateSetConfig in Hcfg.
      by rewrite Hnil in Hcfg. }
    split; [done|]. rewrite (Hrun Hne) in Hcfg |- *.
    destruct (chainIdLoop getNetwork sources None) as [asked [err|chainId]] eqn:Hloop;
      [done|].
    apply chainIdLoop_inr in Hloop as [-> Hloop].
    destruct chainId as [id|]; [|done]. cbn [mbind option_bind] in *.
    destruct (ContractAddresses id) as [nodeManagerAddress|] eqn:Hid; [|done].
    split; [done|]. exists id, nodeManagerAddress.
    destruct Hloop as [Hall _]. cbn [snd] in Hcfg. by injection Hcfg as <-. }
  split; [|split; [|split; [|split]]].
  - intros Hnil. subst r. unfold validateSetConfig. by rewrite Hnil.
  - intros cfg. split.
    + intros Hcfg. by destruct (Haccepted cfg Hcfg) as (? & _ & ?).
    + intros (Hne & id & nodeManagerAddress & Hall & Hid & ->).
      by rewrite (Hagree id Hne Hall), Hid.
  - intros cfg Hcfg. by destruct (Haccepted cfg Hcfg) as (_ & ? & _).
  - intros id Hne Hall Hid. by rewrite (Hagree id Hne Hall), Hid.
  - intros pre source post id other Hsplit Hpre Hall Hsource Hother.
    assert (Hne : parsed_sources config ≠ []).
    { intros Hnil. subst sources. rewrite Hnil in Hsplit.
      by destruct pre. }
    rewrite (Hrun Hne), Hsplit.
    by rewrite (chainIdLoop_differs pre post source None id other)
      by (done || by right).
Qed.

End RuntimeProperties.

Section RuntimeSample.

Import Runtime.

Lemma validateSetConfig_outcome_witness :
  validateSetConfig sampleGetNetwork sampleContractAddresses
    (mkParsed None
       ["https://rpc-a.example"; "https://rpc-c.example"; "https://rpc-b.example"]
       None) sampleConfig
  = (["https://rpc-a.example"; "https://rpc-c.example"],
     inl "Config sources have different network chain identifiers").
Proof.
  pose proof (validateSetConfig_outcome sampleGetNetwork sampleContractAddresses
                (mkParsed None
                   ["https://rpc-a.example"; "https://rpc-c.example";
                    "https://rpc-b.example"] None) sampleConfig) as Hall.
  cbv zeta in Hall. destruct Hall as (_ & _ & _ & _ & Hdiffers).
  apply (Hdiffers ["https://rpc-a.example"] "https://rpc-c.example"
           ["https://rpc-b.example"] 137 5); [done|done| |done|done].
  by repeat constructor.
Defined.

End RuntimeSample.
